(** * makemeamixtape: the Art of the Mix importer and the mixtape normalizer

    A shallow embedding of [scripts/import-artofthemix.js] and of the
    companion normalizer script, with the properties of their
    specification stated and settled against the embedded code.

    JavaScript strings are sequences of UTF-16 code units; a code unit is
    a number of type [N].  Regular expressions are embedded as syntax
    trees run by a backtracking matcher written in the
    continuation-passing style of the ECMAScript specification. *)

From Stdlib Require Import List NArith ZArith Arith Bool Ascii String Lia.
From stdpp Require Import gmap.
Import ListNotations.

Local Open Scope nat_scope.

(** ** Strings *)

Definition jsstring := list N.

(** The code units of an ASCII literal. *)
Definition js (s : string) : jsstring :=
  List.map N_of_ascii (list_ascii_of_string s).

Definition u (c : ascii) : N := N_of_ascii c.

Definition dquote : N := 34%N.
Definition squote : N := 39%N.
Definition en_dash : N := 8211%N.
Definition em_dash : N := 8212%N.

Definition str_eqb (a b : jsstring) : bool :=
  bool_decide (a = b).

(** *** Character classes *)

Definition in_range (lo hi c : N) : bool := ((lo <=? c) && (c <=? hi))%N.

Definition is_digit (c : N) : bool := in_range 48 57 c.
Definition is_lower (c : N) : bool := in_range 97 122 c.
Definition is_upper (c : N) : bool := in_range 65 90 c.
Definition is_lower_alnum (c : N) : bool := is_lower c || is_digit c.
Definition is_hyphen (c : N) : bool := (c =? 45)%N.

(** [\s]: the WhiteSpace and LineTerminator code points of ECMAScript. *)
Definition is_space (c : N) : bool :=
  (in_range 9 13 c || (c =? 32) || (c =? 160) || (c =? 5760)
   || in_range 8192 8202 c || (c =? 8232) || (c =? 8233) || (c =? 8239)
   || (c =? 8287) || (c =? 12288) || (c =? 65279))%N.

(** [.]: everything but a line terminator. *)
Definition is_line_terminator (c : N) : bool :=
  ((c =? 10) || (c =? 13) || (c =? 8232) || (c =? 8233))%N.

(** *** Case mapping

    [String.prototype.toLowerCase] follows the Unicode case tables, which
    are no part of the program.  The development is parametric in it; what
    is fixed is its behaviour on Basic Latin text and that it never
    erases a non-empty string. *)

Definition lower_unit (c : N) : N := if is_upper c then (c + 32)%N else c.
Definition upper_unit (c : N) : N := if is_lower c then (c - 32)%N else c.
Definition is_basic_latin (c : N) : bool := (c <? 128)%N.

Class CaseMapping : Type := {
  toLowerCase : jsstring -> jsstring;
  toLowerCase_basic_latin :
    forall s, forallb is_basic_latin s = true -> toLowerCase s = List.map lower_unit s;
  toLowerCase_nil : forall s, toLowerCase s = [] -> s = []
}.

(** *** String methods *)

Definition substring (a b : nat) (s : jsstring) : jsstring :=
  firstn (b - a) (skipn a s).

Fixpoint trimStart (s : jsstring) : jsstring :=
  match s with
  | c :: t => if is_space c then trimStart t else s
  | [] => []
  end.

Definition trimEnd (s : jsstring) : jsstring := rev (trimStart (rev s)).

Definition trim (s : jsstring) : jsstring := trimEnd (trimStart s).

(** [s.split(sep)] for a one-unit separator: never an empty array. *)
Fixpoint split (sep : N) (s : jsstring) : list jsstring :=
  match s with
  | [] => [[]]
  | c :: t =>
      if (c =? sep)%N then [] :: split sep t
      else match split sep t with
           | h :: r => (c :: h) :: r
           | [] => [[c]]
           end
  end.

Definition padStart (n : nat) (fill : N) (s : jsstring) : jsstring :=
  repeat fill (n - length s) ++ s.

(** [arr.includes(x)] on an array of strings. *)
Definition includes (arr : list jsstring) (x : jsstring) : bool :=
  existsb (str_eqb x) arr.

(** Decimal digits of a number, as in a template literal. *)
Fixpoint decimal_aux (fuel n : nat) (acc : jsstring) : jsstring :=
  match fuel with
  | 0 => acc
  | S f =>
      let acc' := N.of_nat (48 + n mod 10) :: acc in
      if n / 10 =? 0 then acc' else decimal_aux f (n / 10) acc'
  end.

Definition decimal (n : nat) : jsstring := decimal_aux (S n) n [].

(** ** Regular expressions *)

Inductive regex : Type :=
| Eps                                   (* the empty pattern *)
| Chr (p : N -> bool)                   (* one code unit: literal, class, dot *)
| Seq (a b : regex)
| Alt (a b : regex)
| Rep (mn : nat) (mx : option nat) (greedy : bool) (a : regex)
| Grp (i : nat) (a : regex)             (* capturing group number i *)
| Bol                                   (* ^ without the m flag *)
| Eol.                                  (* $ without the m flag *)

(** A matcher state: the index reached, the input left, the captures. *)
Record mstate : Type := MState {
  pos : nat;
  rest : jsstring;
  caps : list (nat * jsstring)
}.

Definition cont := mstate -> option mstate.

Definition set_cap (i : nat) (s : jsstring) (x : mstate) : mstate :=
  MState (pos x) (rest x) ((i, s) :: caps x).

Fixpoint groups_of (r : regex) : list nat :=
  match r with
  | Seq a b | Alt a b => groups_of a ++ groups_of b
  | Rep _ _ _ a => groups_of a
  | Grp i a => i :: groups_of a
  | _ => []
  end.

(** Captures of a quantified atom are reset on entering an iteration. *)
Definition clear_caps (gs : list nat) (x : mstate) : mstate :=
  MState (pos x) (rest x)
    (List.filter (fun c => negb (existsb (Nat.eqb (fst c)) gs)) (caps x)).

Definition pred_max (mx : option nat) : option nat :=
  match mx with Some n => Some (Nat.pred n) | None => None end.

Definition orelse (a b : option mstate) : option mstate :=
  match a with Some _ => a | None => b end.

(** RepeatMatcher, over the matcher [ma] of the quantified atom.  Every
    iteration lowers [mn] or consumes input, so [mn + length (rest x)]
    iterations are all there can be. *)
Fixpoint rep_loop (ma : cont -> mstate -> option mstate) (gs : list nat)
  (greedy : bool) (k : cont) (fuel mn : nat) (mx : option nat) (x : mstate)
  {struct fuel} : option mstate :=
  match mx with
  | Some 0 => k x
  | _ =>
      match fuel with
      | 0 => if mn =? 0 then k x else None
      | S fuel' =>
          let d := fun y =>
            if (mn =? 0) && (pos y =? pos x) then None
            else rep_loop ma gs greedy k fuel' (Nat.pred mn) (pred_max mx) y in
          let xr := clear_caps gs x in
          if negb (mn =? 0) then ma d xr
          else if greedy then orelse (ma d xr) (k x)
          else orelse (k x) (ma d xr)
      end
  end.

(** The matcher of a pattern: [rmatch r k x] tries [r] at [x] and hands
    every way it matches to the continuation [k], first in priority
    first, until one succeeds. *)
Fixpoint rmatch (r : regex) (k : cont) (x : mstate) {struct r} : option mstate :=
  match r with
  | Eps => k x
  | Chr p =>
      match rest x with
      | c :: t => if p c then k (MState (S (pos x)) t (caps x)) else None
      | [] => None
      end
  | Seq a b => rmatch a (fun y => rmatch b k y) x
  | Alt a b => orelse (rmatch a k x) (rmatch b k x)
  | Grp i a =>
      rmatch a (fun y => k (set_cap i (firstn (pos y - pos x) (rest x)) y)) x
  | Bol => if pos x =? 0 then k x else None
  | Eol => match rest x with [] => k x | _ :: _ => None end
  | Rep mn mx greedy a =>
      rep_loop (rmatch a) (groups_of a) greedy k (mn + length (rest x)) mn mx x
  end.

(** *** Pattern combinators *)

Definition chr (c : ascii) : regex := Chr (N.eqb (u c)).
(** A letter under the [i] flag: Basic Latin letters match in either case
    and nothing outside Basic Latin canonicalizes to them. *)
Definition chr_i (c : ascii) : regex :=
  Chr (fun x => (x =? lower_unit (u c))%N || (x =? upper_unit (u c))%N).
Definition any : regex := Chr (fun _ => true).
Definition dot : regex := Chr (fun c => negb (is_line_terminator c)).
Definition digit : regex := Chr is_digit.
Definition space : regex := Chr is_space.
Definition none_of (cs : list N) : regex :=
  Chr (fun c => negb (existsb (N.eqb c) cs)).
Definition one_of (cs : list N) : regex := Chr (fun c => existsb (N.eqb c) cs).

Definition star (a : regex) : regex := Rep 0 None true a.
Definition plus (a : regex) : regex := Rep 1 None true a.
Definition opt (a : regex) : regex := Rep 0 (Some 1) true a.
Definition star_lazy (a : regex) : regex := Rep 0 None false a.
Definition plus_lazy (a : regex) : regex := Rep 1 None false a.
Definition times (lo hi : nat) (a : regex) : regex := Rep lo (Some hi) true a.

Fixpoint seqs (rs : list regex) : regex :=
  match rs with
  | [] => Eps
  | [r] => r
  | r :: rs' => Seq r (seqs rs')
  end.

Definition lit (s : string) : regex :=
  seqs (List.map (fun c => Chr (N.eqb c)) (js s)).
Definition lit_i (s : string) : regex :=
  seqs (List.map (fun c =>
          Chr (fun x => (x =? lower_unit c)%N || (x =? upper_unit c)%N)) (js s)).

(** *** Running a pattern *)

Record rmatch_result : Type := Match {
  m_index : nat;        (* where the match starts *)
  m_end : mstate        (* where it ends, with the captures *)
}.

(** The first match at or after the point reached, leftmost first. *)
Fixpoint scan (r : regex) (i : nat) (t : jsstring) : option rmatch_result :=
  match rmatch r Some (MState i t []) with
  | Some y => Some (Match i y)
  | None =>
      match t with
      | [] => None
      | _ :: t' => scan r (S i) t'
      end
  end.

Definition capture (i : nat) (m : rmatch_result) : option jsstring :=
  match List.find (fun c => Nat.eqb (fst c) i) (caps (m_end m)) with
  | Some c => Some (snd c)
  | None => None
  end.

(** [s.match(re)] without the [g] flag, [re.test(s)], [s.search(re)]. *)
Definition rx_match (r : regex) (s : jsstring) : option rmatch_result := scan r 0 s.
Definition test (r : regex) (s : jsstring) : bool :=
  match scan r 0 s with Some _ => true | None => false end.
Definition search (r : regex) (s : jsstring) : option nat :=
  match scan r 0 s with Some m => Some (m_index m) | None => None end.

(** The loop [while ((m = re.exec(s)) !== null)] of a [g] pattern: each
    call resumes at [lastIndex], the end of the match before.  The
    patterns of the script that drive such a loop match no empty text, so
    every round leaves less of the input and [S (length s)] rounds
    suffice. *)
Fixpoint exec_loop (fuel : nat) (r : regex) (i : nat) (t : jsstring)
  : list rmatch_result :=
  match fuel with
  | 0 => []
  | S f =>
      match scan r i t with
      | None => []
      | Some m => m :: exec_loop f r (pos (m_end m)) (rest (m_end m))
      end
  end.

Definition exec_all (r : regex) (s : jsstring) : list rmatch_result :=
  exec_loop (S (length s)) r 0 s.

(** [s.replace(re, rep)] for a [g] pattern and a replacement text free of
    [$]: after an empty match the scan moves on by one unit.  Every round
    leaves less of the input. *)
Fixpoint replace_loop (fuel : nat) (r : regex) (rep : jsstring) (i : nat)
  (t : jsstring) : jsstring :=
  match fuel with
  | 0 => t
  | S f =>
      match scan r i t with
      | None => t
      | Some m =>
          let j := m_index m in
          let e := m_end m in
          firstn (j - i) t ++ rep ++
            (if pos e =? j then
               match skipn (j - i) t with
               | c :: t' => c :: replace_loop f r rep (S j) t'
               | [] => []
               end
             else replace_loop f r rep (pos e) (rest e))
      end
  end.

Definition replace_all (r : regex) (rep : jsstring) (s : jsstring) : jsstring :=
  replace_loop (S (length s)) r rep 0 s.

(** [s.replace(re, rep)] without the [g] flag: the first match only. *)
Definition replace_first (r : regex) (rep : jsstring) (s : jsstring) : jsstring :=
  match scan r 0 s with
  | None => s
  | Some m => firstn (m_index m) s ++ rep ++ rest (m_end m)
  end.

(** A group that lies outside every alternative and quantifier takes
    part in each match of its pattern. *)
Definition group (i : nat) (m : rmatch_result) : jsstring :=
  match capture i m with Some s => s | None => [] end.

(** ** JSON values, as [JSON.parse] builds them

    The numbers are those of a double that a literal can denote:
    [JNum m e] is the finite number m * 2^e, +0 when [m] is 0;
    [JNegZero] is -0, read from a literal such as [-0]; [JInf] is
    Infinity or -Infinity, read from a literal beyond the range of a
    double.  The fields of an object are its own properties in the
    order [JSON.stringify] goes through them. *)

#[local] Set Warnings "-register-all".

Inductive json : Type :=
| JNull
| JBool (b : bool)
| JNum (m e : Z)
| JNegZero
| JInf (negative : bool)
| JStr (s : jsstring)
| JArr (items : list json)
| JObj (fields : list (jsstring * json)).

(** ** The importer: [scripts/import-artofthemix.js] *)

Definition BASE_URL : jsstring := js "https://www.artofthemix.org".
Definition MEMBER_ID : jsstring := js "3942".

Section Importer.

Context {CM : CaseMapping}.

(** [/['']/g], [/[^a-z0-9]+/g] and [/^-+|-+$/g]. *)
Definition re_quotes : regex := one_of [squote; squote].
Definition re_non_alnum : regex := plus (Chr (fun c => negb (is_lower_alnum c))).
Definition re_edge_hyphens : regex :=
  Alt (Seq Bol (plus (chr "-"))) (Seq (plus (chr "-")) Eol).

Definition slugify (title : jsstring) : jsstring :=
  substring 0 80
    (replace_all re_edge_hyphens []
       (replace_all re_non_alnum (js "-")
          (replace_all re_quotes [] (toLowerCase title)))).

(** [parseDate]: [None] is the TypeError of [day.padStart] on an array
    with no second element; a missing year prints as [undefined]. *)
Definition parseDate (dateStr : jsstring) : option jsstring :=
  match split (u "/") dateStr with
  | month :: day :: rest_ =>
      let year := match rest_ with y :: _ => y | [] => js "undefined" end in
      Some (year ++ js "-" ++ padStart 2 (u "0") month
                 ++ js "-" ++ padStart 2 (u "0") day)
  | _ => None
  end.

(** *** The network *)

Record response : Type := Response { status : nat; body : jsstring }.

Definition ok (r : response) : bool := (200 <=? status r) && (status r <=? 299).

(** What [fetch] settles to: a response, or a rejection with its message. *)
Inductive settled : Type :=
| Fulfilled (r : response)
| Rejected (message : jsstring).

(** The answer to the n-th request of a run, by URL. *)
Definition network := nat -> jsstring -> settled.

(** [fetchPage]: the body, or the message of the error thrown. *)
Definition fetchPage (answer : settled) (url : jsstring) : jsstring + jsstring :=
  match answer with
  | Rejected message => inr message
  | Fulfilled r =>
      if ok r then inl (body r)
      else inr (js "Failed to fetch " ++ url ++ js ": " ++ decimal (status r))
  end.

(** *** Listing pages *)

(** [/\/mix\/(\d+)/g] *)
Definition re_mix_id : regex := Seq (lit "/mix/") (Grp 1 (plus digit)).

Definition extractMixIds (html : jsstring) : list jsstring :=
  fold_left
    (fun mixIds m =>
       if negb (includes mixIds (group 1 m)) then mixIds ++ [group 1 m]
       else mixIds)
    (exec_all re_mix_id html) [].

(** *** Detail pages *)

Record Track : Type := MkTrack { track_title : jsstring; track_artist : jsstring }.

Record MixData : Type := MkMixData {
  mixId : jsstring;
  title : jsstring;
  date : jsstring;
  format : jsstring;
  notes : jsstring;
  tracks : list Track;
  sideA : option (list Track);     (* [None] is null *)
  sideB : option (list Track)
}.

(** [/>\s+</g] and [/\n/g] *)
Definition re_between_tags : regex := seqs [chr ">"; plus space; chr "<"].
Definition re_newline : regex := Chr (N.eqb 10).

Definition normalize_html (html : jsstring) : jsstring :=
  replace_all re_newline (js " ") (replace_all re_between_tags (js "><") html).

(** [/<[^>]+>/g] *)
Definition re_tag : regex := seqs [chr "<"; plus (none_of [u ">"]); chr ">"].

Definition strip_tags (s : jsstring) : jsstring := replace_all re_tag [] s.

(** [/<tr[^>]*>\s*<td[^>]*>([\s\S]*?)<\/td>\s*<td[^>]*>([\s\S]*?)<\/td>/gi] *)
Definition rowRegex : regex :=
  seqs [lit_i "<tr"; star (none_of [u ">"]); chr ">"; star space;
        lit_i "<td"; star (none_of [u ">"]); chr ">";
        Grp 1 (star_lazy any); lit_i "</td>"; star space;
        lit_i "<td"; star (none_of [u ">"]); chr ">";
        Grp 2 (star_lazy any); lit_i "</td>"].

(** [/<li[^>]*>([\s\S]*?)<\/li>/gi] *)
Definition listItemRegex : regex :=
  seqs [lit_i "<li"; star (none_of [u ">"]); chr ">";
        Grp 1 (star_lazy any); lit_i "</li>"].

(** [/^(.+?)\s*[-–—]\s*[QQ]?(.+?)[QQ]?$/], with the double quote for Q. *)
Definition re_track_line : regex :=
  seqs [Bol; Grp 1 (plus_lazy dot); star space;
        one_of [u "-"; en_dash; em_dash]; star space;
        opt (one_of [dquote; dquote]); Grp 2 (plus_lazy dot);
        opt (one_of [dquote; dquote]); Eol].

Definition table_rows (normalizedHtml : jsstring) : list Track :=
  fold_left
    (fun tracks rowMatch =>
       let artist := trim (strip_tags (group 1 rowMatch)) in
       let song := trim (strip_tags (group 2 rowMatch)) in
       if str_eqb (toLowerCase artist) (js "artist")
          || str_eqb (toLowerCase song) (js "song") then tracks
       else if str_eqb artist [] || str_eqb song [] then tracks
       else tracks ++ [MkTrack (toLowerCase song) (toLowerCase artist)])
    (exec_all rowRegex normalizedHtml) [].

Definition list_items (normalizedHtml : jsstring) : list Track :=
  fold_left
    (fun tracks listMatch =>
       let item := trim (strip_tags (group 1 listMatch)) in
       match rx_match re_track_line item with
       | Some trackMatch =>
           tracks ++ [MkTrack (toLowerCase (trim (group 2 trackMatch)))
                              (toLowerCase (trim (group 1 trackMatch)))]
       | None => tracks
       end)
    (exec_all listItemRegex normalizedHtml) [].

Definition extractTracksFromHtml (html : jsstring) : list Track :=
  let normalizedHtml := normalize_html html in
  let tracks := table_rows normalizedHtml in
  match tracks with
  | [] => list_items normalizedHtml
  | _ :: _ => tracks
  end.

(** The three title patterns, tried in turn. *)
Definition re_h1 : regex :=
  seqs [lit_i "<h1"; star (none_of [u ">"]); chr ">";
        Grp 1 (plus (none_of [u "<"])); lit_i "</h1>"].
Definition re_title_tag : regex :=
  seqs [lit_i "<title>"; Grp 1 (plus (none_of [u "<"; u "|"]))].
Definition re_mix_title_class : regex :=
  seqs [lit_i "class="; opt (Chr (N.eqb dquote)); lit_i "mix-title";
        opt (Chr (N.eqb dquote)); star (none_of [u ">"]); chr ">";
        Grp 1 (plus (none_of [u "<"])); chr "<"].

(** [/\s+/g] and [/\s+by\s+natalyesaurus\.?$/i] *)
Definition re_spaces : regex := plus space.
Definition re_by_author : regex :=
  seqs [plus space; lit_i "by"; plus space; lit_i "natalyesaurus";
        opt (chr "."); Eol].

(** [/Submit\s*Date[:\s]*(\d{1,2}\/\d{1,2}\/\d{4})/i] and
    [/Submitted[:\s]*(\d{1,2}\/\d{1,2}\/\d{4})/i] *)
Definition re_mdy : regex :=
  seqs [times 1 2 digit; chr "/"; times 1 2 digit; chr "/"; times 4 4 digit].
Definition colon_or_space : regex := Chr (fun c => (c =? u ":")%N || is_space c).
Definition re_submit_date : regex :=
  seqs [lit_i "Submit"; star space; lit_i "Date"; star colon_or_space; Grp 1 re_mdy].
Definition re_submitted : regex :=
  seqs [lit_i "Submitted"; star colon_or_space; Grp 1 re_mdy].

(** [/Format[:\s]*(CD|Cassette|Playlist)/i] *)
Definition re_format : regex :=
  seqs [lit_i "Format"; star colon_or_space;
        Grp 1 (Alt (lit_i "CD") (Alt (lit_i "Cassette") (lit_i "Playlist")))].

(** [/;\s*for\s+([a-z][a-z\s.]+?)(?:\.|<|$)/i] and
    [/dedicated?\s+(?:to\s+)?([a-z][a-z\s.]+?)(?:\.|<|$)/i] *)
Definition is_letter (c : N) : bool := is_lower c || is_upper c.
Definition re_name : regex :=
  Seq (Chr is_letter)
      (plus_lazy (Chr (fun c => is_letter c || is_space c || (c =? u ".")%N))).
Definition re_name_end : regex := Alt (chr ".") (Alt (chr "<") Eol).
Definition re_for : regex :=
  seqs [chr ";"; star space; lit_i "for"; plus space; Grp 1 re_name; re_name_end].
Definition re_dedicated : regex :=
  seqs [lit_i "dedicate"; opt (chr_i "d"); plus space;
        opt (Seq (lit_i "to") (plus space)); Grp 1 re_name; re_name_end].

(** [/Side\s*A/i] and [/Side\s*B/i] *)
Definition re_sideA : regex := seqs [lit_i "Side"; star space; chr_i "A"].
Definition re_sideB : regex := seqs [lit_i "Side"; star space; chr_i "B"].

(** [a || b] on the results of [match]. *)
Definition or_match (a b : option rmatch_result) : option rmatch_result :=
  match a with Some _ => a | None => b end.

(** The title: the first of the three patterns to match, tidied. *)
Definition extract_title (normalizedHtml : jsstring) : jsstring :=
  let titleMatch :=
    or_match (rx_match re_h1 normalizedHtml)
      (or_match (rx_match re_title_tag normalizedHtml)
                (rx_match re_mix_title_class normalizedHtml)) in
  match titleMatch with
  | Some m =>
      replace_first re_by_author []
        (replace_all re_spaces (js " ") (trim (group 1 m)))
  | None => []
  end.

(** The date: [None] when [parseDate] throws. *)
Definition extract_date (html : jsstring) : option jsstring :=
  let dateMatch :=
    or_match (rx_match re_submit_date html) (rx_match re_submitted html) in
  match dateMatch with
  | Some m => parseDate (group 1 m)
  | None => Some []
  end.

Definition extract_format (html : jsstring) : jsstring :=
  match rx_match re_format html with
  | Some m => toLowerCase (group 1 m)
  | None => js "cd"
  end.

Definition extract_notes (html : jsstring) : jsstring :=
  let dedicationMatch :=
    or_match (rx_match re_for html) (rx_match re_dedicated html) in
  match dedicationMatch with
  | Some m => js "for " ++ toLowerCase (trim (group 1 m))
  | None => []
  end.

(** [html.search(/Side\s*B/i)]; -1 is out of reach where it is used. *)
Definition sideBIndex (html : jsstring) : nat :=
  match search re_sideB html with Some i => i | None => 0 end.

(** [extractMixData]: [None] when it throws. *)
Definition extractMixData (html mixId : jsstring) : option MixData :=
  let normalizedHtml := normalize_html html in
  let title := extract_title normalizedHtml in
  match extract_date html with
  | None => None
  | Some date =>
      let format := extract_format html in
      let notes := extract_notes html in
      let hasSideA := test re_sideA html in
      let hasSideB := test re_sideB html in
      let isCassette := str_eqb format (js "cassette") || (hasSideA && hasSideB) in
      if isCassette && hasSideA && hasSideB then
        let sideAHtml := substring 0 (sideBIndex html) html in
        let sideBHtml := skipn (sideBIndex html) html in
        let sideA := extractTracksFromHtml sideAHtml in
        let sideB := extractTracksFromHtml sideBHtml in
        Some (MkMixData mixId title date (js "cassette") notes
                (sideA ++ sideB) (Some sideA) (Some sideB))
      else
        Some (MkMixData mixId title date format notes
                (extractTracksFromHtml normalizedHtml) None None)
  end.

(** *** Writing a record *)

Definition json_of_track (t : Track) : json :=
  JObj [(js "title", JStr (track_title t)); (js "artist", JStr (track_artist t))].

Definition json_of_tracks (ts : list Track) : json := JArr (List.map json_of_track ts).

(** The object [jsonData] and the name of its file under [OUTPUT_DIR]. *)
Definition jsonData (mixData : MixData) : json :=
  JObj ([(js "title", JStr (toLowerCase (title mixData)));
         (js "date", JStr (date mixData));
         (js "format", JStr (format mixData));
         (js "notes", JStr (notes mixData));
         (js "artOfTheMixUrl",
            JStr (js "https://www.artofthemix.org/mix/" ++ mixId mixData));
         (js "tracks", json_of_tracks (tracks mixData))]
        ++ match sideA mixData, sideB mixData with
           | Some a, Some b =>
               if str_eqb (format mixData) (js "cassette")
               then [(js "sideA", json_of_tracks a); (js "sideB", json_of_tracks b)]
               else []
           | _, _ => []
           end).

Definition file_name (mixData : MixData) : jsstring :=
  slugify (title mixData) ++ js ".json".

(** The files of [OUTPUT_DIR] by name; a file holds the pretty-printed
    text of a JSON value, which the value determines. *)
Definition disk := gmap jsstring json.

Definition createMixFile (mixData : MixData) (files : disk) : disk :=
  <[file_name mixData := jsonData mixData]> files.

(** *** The two phases of [importMixes] *)

Definition listing_url (page : nat) : jsstring :=
  BASE_URL ++ js "/members/" ++ MEMBER_ID ++ js "/mixes/" ++ decimal page.

Definition mix_url (mixId : jsstring) : jsstring := BASE_URL ++ js "/mix/" ++ mixId.

(** Step 1: one listing page; a failed fetch is logged and skipped. *)
Definition discover_page (net : network) (reqs page : nat) (allMixIds : list jsstring)
  : list jsstring :=
  match fetchPage (net reqs (listing_url page)) (listing_url page) with
  | inl html => allMixIds ++ extractMixIds html
  | inr _ => allMixIds
  end.

Fixpoint discover (net : network) (reqs : nat) (pages : list nat)
  (allMixIds : list jsstring) : list jsstring :=
  match pages with
  | [] => allMixIds
  | page :: more => discover net (S reqs) more (discover_page net reqs page allMixIds)
  end.

Definition totalPages : nat := 44.

Record progress : Type := Progress {
  files : disk;
  created : nat;
  errors : nat
}.

(** The check of step 2 on an extracted record. *)
Definition persist (mixData : MixData) (st : progress) : progress :=
  if negb (str_eqb (title mixData) []) && (0 <? length (tracks mixData))
  then Progress (createMixFile mixData (files st)) (S (created st)) (errors st)
  else Progress (files st) (created st) (S (errors st)).

(** Step 2: one id; whatever is thrown is caught and counted. *)
Definition import_mix (net : network) (reqs : nat) (mixId : jsstring) (st : progress)
  : progress :=
  match fetchPage (net reqs (mix_url mixId)) (mix_url mixId) with
  | inl html =>
      match extractMixData html mixId with
      | Some mixData => persist mixData st
      | None => Progress (files st) (created st) (S (errors st))
      end
  | inr _ => Progress (files st) (created st) (S (errors st))
  end.

Fixpoint import_all (net : network) (reqs : nat) (allMixIds : list jsstring)
  (st : progress) : progress :=
  match allMixIds with
  | [] => st
  | mixId :: more => import_all net (S reqs) more (import_mix net reqs mixId st)
  end.

Definition importMixes (net : network) (files0 : disk) : progress :=
  let allMixIds := discover net 0 (seq 1 totalPages) [] in
  import_all net totalPages allMixIds (Progress files0 0 0).

End Importer.

(** Case mapping restricted to Basic Latin: what [toLowerCase] does to
    text without any other letter. *)
Definition basic_latin_case : CaseMapping :=
  {| toLowerCase := List.map lower_unit;
     toLowerCase_basic_latin := fun s _ => eq_refl;
     toLowerCase_nil := fun s =>
       match s return List.map lower_unit s = [] -> s = [] with
       | [] => fun _ => eq_refl
       | c :: t => fun H => False_ind _ (nil_cons (eq_sym H))
       end |}.

(** ** The normalizer script

    Each [*.json] file of the directory is parsed, cleaned and written
    back.  A TypeError inside the [try] block leaves the file as it was:
    [None] below. *)

Fixpoint assoc (key : jsstring) (fields : list (jsstring * json)) : option json :=
  match fields with
  | [] => None
  | (k, v) :: more => if str_eqb k key then Some v else assoc key more
  end.

(** Assignment to a property the object has: the key keeps its place. *)
Fixpoint assign (key : jsstring) (v : json) (fields : list (jsstring * json))
  : list (jsstring * json) :=
  match fields with
  | [] => [(key, v)]
  | (k, w) :: more =>
      if str_eqb k key then (k, v) :: more else (k, w) :: assign key v more
  end.

(** ToBoolean on a parsed value. *)
Definition truthy (v : json) : bool :=
  match v with
  | JNull => false
  | JBool b => b
  | JNum m _ => negb (m =? 0)%Z
  | JNegZero => false
  | JInf _ => true
  | JStr s => negb (str_eqb s [])
  | JArr _ | JObj _ => true
  end.

(** [/&nbsp;/g] *)
Definition re_nbsp : regex := lit "&nbsp;".

(** [s.replace(/&nbsp;/g, '').trim()] *)
Definition clean_text (s : jsstring) : jsstring := trim (replace_all re_nbsp [] s).

(** [track.title] as the receiver of [replace]: only a string property of
    an object will do. *)
Definition text_of (track : json) (key : jsstring) : option jsstring :=
  match track with
  | JObj fields =>
      match assoc key fields with
      | Some (JStr s) => Some s
      | _ => None
      end
  | _ => None
  end.

Definition clean_track (track : json) : option json :=
  match text_of track (js "title"), text_of track (js "artist") with
  | Some t, Some a =>
      Some (JObj [(js "title", JStr (clean_text t)); (js "artist", JStr (clean_text a))])
  | _, _ => None
  end.

Fixpoint map_tracks (items : list json) : option (list json) :=
  match items with
  | [] => Some []
  | track :: more =>
      match clean_track track, map_tracks more with
      | Some t, Some ts => Some (t :: ts)
      | _, _ => None
      end
  end.

(** [cleanTracks]: [tracks.map] is a function on arrays alone. *)
Definition cleanTracks (tracks : json) : option json :=
  match tracks with
  | JArr items => option_map JArr (map_tracks items)
  | _ => None
  end.

Definition clean_title (v : json) : option json :=
  match v with
  | JStr s => Some (JStr (clean_text s))
  | _ => None
  end.

(** [if (data.key) { data.key = f(data.key); }]: reading a property of
    [null] throws; arrays and primitives have none of the four keys. *)
Definition clean_field (key : jsstring) (f : json -> option json) (data : json)
  : option json :=
  match data with
  | JNull => None
  | JObj fields =>
      match assoc key fields with
      | Some v =>
          if truthy v then option_map (fun v' => JObj (assign key v' fields)) (f v)
          else Some data
      | None => Some data
      end
  | _ => Some data
  end.

Definition bind_json (a : option json) (f : json -> option json) : option json :=
  match a with Some d => f d | None => None end.

(** The body of the [try] block, from the parsed [data] to what is
    written back. *)
Definition reformat (data : json) : option json :=
  bind_json (clean_field (js "tracks") cleanTracks data) (fun data =>
  bind_json (clean_field (js "sideA") cleanTracks data) (fun data =>
  bind_json (clean_field (js "sideB") cleanTracks data) (fun data =>
  clean_field (js "title") clean_title data))).

(** [JSON.stringify(data, null, 2)] read back by [JSON.parse]: a number
    that is not finite is written as [null] and -0 as [0], at every
    depth; a finite number is written with digits that denote it, and
    strings, arrays and objects with what they hold, in order. *)
Fixpoint written (v : json) : json :=
  match v with
  | JNull => JNull
  | JBool b => JBool b
  | JNum m e => JNum m e
  | JNegZero => JNum 0 0
  | JInf _ => JNull
  | JStr s => JStr s
  | JArr items => JArr (List.map written items)
  | JObj fields => JObj (List.map (fun kv => (fst kv, written (snd kv))) fields)
  end.

(** What the file holds once the [try] block is through, as
    [JSON.parse] reads it; [None] when the block throws and the file is
    left as it was. *)
Definition rewritten (data : json) : option json :=
  option_map written (reformat data).

Definition endsWith (suffix s : jsstring) : bool :=
  str_eqb (skipn (length s - length suffix) s) suffix.

(** One file of the directory: rewritten, or left alone. *)
Definition reformat_file (name : jsstring) (data : json) : json :=
  if endsWith (js ".json") name
  then match rewritten data with Some data' => data' | None => data end
  else data.

Definition reformat_all (files : gmap jsstring json) : gmap jsstring json :=
  map_imap (fun name data => Some (reformat_file name data)) files.

(** ** Notions of the specification *)

(** The canonical form YYYY-MM-DD: four digits, two digits, two digits. *)
Definition is_iso_date (s : jsstring) : bool :=
  match s with
  | [y1; y2; y3; y4; h1; m1; m2; h2; d1; d2] =>
      is_digit y1 && is_digit y2 && is_digit y3 && is_digit y4
      && is_hyphen h1 && is_digit m1 && is_digit m2
      && is_hyphen h2 && is_digit d1 && is_digit d2
  | _ => false
  end.

(** What [\d{1,2}\/\d{1,2}\/\d{4}] matches: a month and a day of one or
    two digits and a year of four. *)
Definition mdy_parts (w m d y : jsstring) : Prop :=
  w = m ++ u "/" :: d ++ u "/" :: y
  /\ forallb is_digit m = true /\ forallb is_digit d = true
  /\ forallb is_digit y = true
  /\ 1 <= length m <= 2 /\ 1 <= length d <= 2 /\ length y = 4.

Definition is_mdy (w : jsstring) : Prop := exists m d y, mdy_parts w m d y.

(** The year, the month and the day, zero-padded and hyphenated. *)
Definition iso_of (m d y : jsstring) : jsstring :=
  y ++ js "-" ++ padStart 2 (u "0") m ++ js "-" ++ padStart 2 (u "0") d.

(** The distinct elements of a list, each at its first occurrence. *)
Fixpoint first_seen (l : list jsstring) : list jsstring :=
  match l with
  | [] => []
  | x :: t => x :: List.filter (fun y => negb (str_eqb y x)) (first_seen t)
  end.

(** [v.key] on a parsed or built object. *)
Definition json_get (key : jsstring) (v : json) : option json :=
  match v with
  | JObj fields => assoc key fields
  | _ => None
  end.

(** ** Sample pages *)

(** A cassette page: a labeled format, both side markers, two rows a
    side, a header row. *)
Definition cassette_page : jsstring :=
  js "<html><h1>Midnight  Mix by natalyesaurus</h1> Submit Date: 7/4/1999 Format: Cassette <p>Side A</p><table><tr><td>Artist</td><td>Song</td></tr> <tr><td>Portishead</td><td>Glory Box</td></tr><tr><td>Air</td><td><b>Sexy Boy</b></td></tr></table><p>Side B</p><table><tr><td>Beck</td><td>Loser</td></tr><tr><td>Blur</td><td>Song 2</td></tr></table></html>".

(** A page that shows no date. *)
Definition undated_page : jsstring :=
  js "<h1>Road Songs</h1><table><tr><td>Can</td><td>Vitamin C</td></tr></table>".

(** ** Notions for the listing pages *)

(** The identifiers a listing page shows, occurrence by occurrence. *)
Definition listed_ids (html : jsstring) : list jsstring :=
  List.map (group 1) (exec_all re_mix_id html).

(** What one listing page adds to the collection. *)
Definition page_ids (net : network) (reqs page : nat) : list jsstring :=
  match fetchPage (net reqs (listing_url page)) (listing_url page) with
  | inl html => extractMixIds html
  | inr _ => []
  end.

(** Page by page, for the requests numbered from [reqs] on. *)
Fixpoint pages_ids (net : network) (reqs : nat) (pages : list nat)
  : list (list jsstring) :=
  match pages with
  | [] => []
  | page :: more => page_ids net reqs page :: pages_ids net (S reqs) more
  end.

(** A site whose first two listing pages both show mix 7 and which has
    nothing else. *)
Definition overlapping_site : network :=
  fun reqs url =>
    if reqs <? 2 then Fulfilled (Response 200 (js "<a href=/mix/7>seven</a>"))
    else Fulfilled (Response 404 []).

(** ** Sample sites and texts *)

(** A site that answers every request with the undated page. *)
Definition one_page_site : network :=
  fun _ _ => Fulfilled (Response 200 undated_page).

(** A site that knows no page. *)
Definition missing_site : network :=
  fun _ _ => Fulfilled (Response 404 (js "Not Found")).

Definition is_ascii_alnum (c : N) : bool := is_lower c || is_upper c || is_digit c.

(** A title of 81 units whose slug is cut right after a hyphen. *)
Definition long_title : jsstring := repeat (u "a") 79 ++ js " b".

(** A list item whose title is a blank between quotes:
    [<ul><li>a - " "</li></ul>]. *)
Definition blank_title_item : jsstring :=
  js "<ul><li>a - " ++ [dquote] ++ js " " ++ [dquote] ++ js "</li></ul>".

(** ** Notions for the normalizer *)

Definition k_title : jsstring := js "title".
Definition k_artist : jsstring := js "artist".
Definition k_tracks : jsstring := js "tracks".
Definition k_sideA : jsstring := js "sideA".
Definition k_sideB : jsstring := js "sideB".

(** The keys of an object, in order; [None] for any other value. *)
Definition keys_of (v : json) : option (list jsstring) :=
  match v with
  | JObj fields => Some (List.map fst fields)
  | _ => None
  end.

(** What the normalizer makes of a track entry with title [t] and
    artist [a]. *)
Definition cleaned_entry (t a : jsstring) : json :=
  JObj [(k_title, JStr (clean_text t)); (k_artist, JStr (clean_text a))].

(** No occurrence of the token [&nbsp;] in the texts the normalizer
    cleans. *)
Definition text_token_free (v : option json) : bool :=
  match v with
  | Some (JStr s) => negb (test re_nbsp s)
  | _ => true
  end.

Definition entry_token_free (entry : json) : bool :=
  text_token_free (json_get k_title entry)
  && text_token_free (json_get k_artist entry).

Definition tracks_token_free (v : option json) : bool :=
  match v with
  | Some (JArr items) => forallb entry_token_free items
  | _ => true
  end.

Definition token_free (data : json) : bool :=
  tracks_token_free (json_get k_tracks data)
  && tracks_token_free (json_get k_sideA data)
  && tracks_token_free (json_get k_sideB data)
  && text_token_free (json_get k_title data).

(** How a guarded assignment relates the field before and after. *)
Definition field_cleaned (f : json -> option json) (before after : option json)
  : Prop :=
  match before with
  | Some v =>
      if truthy v then exists v', f v = Some v' /\ after = Some v'
      else after = Some v
  | None => after = None
  end.

(** An entry and what the normalizer makes of it. *)
Definition entry_cleaned (entry entry' : json) : Prop :=
  exists t a, text_of entry k_title = Some t
              /\ text_of entry k_artist = Some a
              /\ entry' = cleaned_entry t a.

(** ** Sample records *)


(** A file with a cover image and with an album on its one track. *)
Definition album_record : json :=
  JObj [(k_title, JStr (js " road songs&nbsp;"));
        (js "date", JStr (js "1999-07-04"));
        (js "coverImage", JStr (js "/covers/road.jpg"));
        (k_tracks,
           JArr [JObj [(k_title, JStr (js "vitamin c"));
                       (k_artist, JStr (js "can"));
                       (js "album", JStr (js "ege bamyasi"))]])].

(** What the normalizer writes for [album_record]. *)
Definition album_record_cleaned : json :=
  JObj [(k_title, JStr (js "road songs"));
        (js "date", JStr (js "1999-07-04"));
        (js "coverImage", JStr (js "/covers/road.jpg"));
        (k_tracks,
           JArr [JObj [(k_title, JStr (js "vitamin c"));
                       (k_artist, JStr (js "can"))]])].

Definition starts_clean (s : jsstring) : bool :=
  match s with
  | c :: _ => negb (is_space c)
  | [] => true
  end.

(** ** Notions for the track list *)

(** The two cells of a table row, tags stripped and trimmed. *)
Definition row_artist (rowMatch : rmatch_result) : jsstring :=
  trim (strip_tags (group 1 rowMatch)).
Definition row_song (rowMatch : rmatch_result) : jsstring :=
  trim (strip_tags (group 2 rowMatch)).

(** A table whose first row has the two header labels the other way
    round. *)
Definition swapped_header_table : jsstring :=
  js "<table><tr><td>Song</td><td>Artist</td></tr><tr><td>Can</td><td>Vitamin C</td></tr></table>".

(** ** Notions for the slug *)

(** A unit of a safe file name: a lowercase letter, a digit or a hyphen. *)
Definition is_slug_unit (c : N) : bool := is_lower_alnum c || is_hyphen c.

Definition starts_with (p : N -> bool) (s : jsstring) : bool :=
  match s with
  | c :: _ => p c
  | [] => false
  end.

(** Where a greedy run of the class [p] ends. *)
Fixpoint run_end (p : N -> bool) (i : nat) (t : jsstring) (cs : list (nat * jsstring))
  : mstate :=
  match t with
  | c :: t' => if p c then run_end p (S i) t' cs else MState i t cs
  | [] => MState i [] cs
  end.

(** Under the [i] flag a literal matches its letters in either case. *)
Definition same_letter (c a : N) : Prop := a = lower_unit c \/ a = upper_unit c.

(** ** The page count: [getTotalPages]

    The script defines [getTotalPages] and then counts on 44 pages
    without calling it. *)

(** [m[0]]: the text a match covers. *)
Definition matched (s : jsstring) (m : rmatch_result) : jsstring :=
  substring (m_index m) (pos (m_end m)) s.

(** [s.match(re)] for a [g] pattern that matches no empty text: the
    texts of all the matches, or null. *)
Definition match_g (r : regex) (s : jsstring) : option (list jsstring) :=
  match exec_all r s with
  | [] => None
  | ms => Some (List.map (matched s) ms)
  end.

(** [/mixes\/(\d+)[^>]*>\s*(?:»|last|\d+)\s*<\/a>\s*$/i] *)
Definition re_last_page : regex :=
  seqs [lit_i "mixes/"; Grp 1 (plus digit); star (none_of [u ">"]); chr ">";
        star space;
        Alt (Chr (N.eqb 187)) (Alt (lit_i "last") (plus digit));
        star space; lit_i "</a>"; star space; Eol].

(** [/mixes\/(\d+)/g] *)
Definition re_page_link : regex := Seq (lit "mixes/") (Grp 1 (plus digit)).

(** [/\d+$/] *)
Definition re_trailing_digits : regex := Seq (plus digit) Eol.

(** What a call can throw: the error of [fetchPage], or a TypeError. *)
Inductive thrown : Type :=
| Error (message : jsstring)
| TypeError.

(** The integer that a run of ASCII digits denotes. *)
Definition numeral_value (numeral : jsstring) : N :=
  fold_left (fun n c => (10 * n + (c - 48))%N) numeral 0%N.

(** The double nearest to an integer, ties to the even significand: the
    integer itself up to 53 bits, and otherwise its leading 53 bits,
    rounded, with the bits below them zero.  (Within the 20 digits of
    [parseInt] no integer is beyond the range of a double.) *)
Definition to_double (n : N) : N :=
  let bits := N.size n in
  if (bits <=? 53)%N then n
  else
    let k := (bits - 53)%N in
    let q := N.shiftr n k in
    let r := N.land n (N.ones k) in
    let half := N.shiftl 1 (k - 1) in
    let q' := if (half <? r)%N || ((r =? half)%N && N.odd q)
              then (q + 1)%N else q in
    N.shiftl q' k.

(** The digits of a numeral from its first non-zero digit on. *)
Fixpoint significant (numeral : jsstring) : jsstring :=
  match numeral with
  | c :: more => if (c =? 48)%N then significant more else numeral
  | [] => []
  end.

(** [parseInt] on a run of ASCII digits: the double nearest to the
    integer it denotes.  With more than 20 significant digits ECMAScript
    leaves the digits after the 20th to the implementation: [None]. *)
Definition parseInt (numeral : jsstring) : option N :=
  if length (significant numeral) <=? 20
  then Some (to_double (numeral_value numeral))
  else None.

(** What [getTotalPages] returns: a number of pages; -Infinity, which
    is [Math.max] of no number at all; or a number that depends on how
    the implementation reads a long numeral. *)
Inductive page_count : Type :=
| Pages (n : N)
| MinusInfinity
| Approximated.

(** [Math.max(...pages)] on numbers that are integers. *)
Definition math_max (pages : list N) : page_count :=
  match pages with
  | [] => MinusInfinity
  | p :: more => Pages (fold_left N.max more p)
  end.

(** [parseInt] on each numeral; [None] when one of them is too long. *)
Fixpoint pages_of (numerals : list jsstring) : option (list N) :=
  match numerals with
  | [] => Some []
  | numeral :: more =>
      match parseInt numeral, pages_of more with
      | Some p, Some ps => Some (p :: ps)
      | _, _ => None
      end
  end.

(** [m.match(/\d+$/)[0]]: [None] is the TypeError of indexing null. *)
Definition trailing_numeral (m : jsstring) : option jsstring :=
  match rx_match re_trailing_digits m with
  | Some found => Some (matched m found)
  | None => None
  end.

(** [pageMatch.map(...)]: the first element that throws ends it. *)
Fixpoint numerals_of (pageMatch : list jsstring) : option (list jsstring) :=
  match pageMatch with
  | [] => Some []
  | m :: more =>
      match trailing_numeral m with
      | None => None
      | Some numeral =>
          match numerals_of more with
          | Some rest_ => Some (numeral :: rest_)
          | None => None
          end
      end
  end.

Definition getTotalPages (answer : settled) : page_count + thrown :=
  match fetchPage answer (listing_url 1) with
  | inr message => inr (Error message)
  | inl html =>
      let pageMatch :=
        match rx_match re_last_page html with
        | Some m => Some [matched html m; group 1 m]
        | None => match_g re_page_link html
        end in
      match pageMatch with
      | Some texts =>
          match numerals_of texts with
          | Some numerals =>
              inl (match pages_of numerals with
                   | Some pages => math_max pages
                   | None => Approximated
                   end)
          | None => inr TypeError
          end
      | None => inl (Pages 44%N)
      end
  end.

(** ** Further samples *)

(** A listing page with two links to mix 7 and one to mix 12. *)
Definition listing_page : jsstring :=
  js "<a href=/mix/7><img></a><a href=/mix/7>seven</a><a href=/mix/12>twelve</a>".

(** A page labeled as a cassette that names one side only. *)
Definition one_side_page : jsstring :=
  js "<h1>Tape</h1> Format: Cassette <p>Side A</p><ul><li>Can - Vitamin C</li></ul>".

(** The text of a list item, tags stripped and trimmed. *)
Definition item_text (listMatch : rmatch_result) : jsstring :=
  trim (strip_tags (group 1 listMatch)).

(** A list with one good line and one without a dash. *)
Definition list_page : jsstring :=
  js "<ul><li>Can - Vitamin C</li><li>no dash here</li></ul>".

(** The foot of a listing whose last link closes the page, and one with
    text after the links. *)
Definition closing_link_page : jsstring :=
  js "<a href=/members/3942/mixes/2>2</a> <a href=/members/3942/mixes/44>last</a> ".
Definition open_link_page : jsstring :=
  js "<a href=/members/3942/mixes/2>2</a> <a href=/members/3942/mixes/44>last</a> end".

(** ** What the normalizer can read *)

(** An entry whose title and artist are strings. *)
Definition is_entry (track : json) : bool :=
  match text_of track k_title, text_of track k_artist with
  | Some _, Some _ => true
  | _, _ => false
  end.

Definition is_track_list (v : json) : bool :=
  match v with
  | JArr items => forallb is_entry items
  | _ => false
  end.

Definition is_text (v : json) : bool :=
  match v with
  | JStr _ => true
  | _ => false
  end.

(** A field that is absent, falsy, or of the kind [good]. *)
Definition field_fits (good : json -> bool) (v : option json) : bool :=
  match v with
  | Some v => negb (truthy v) || good v
  | None => true
  end.

(** The four fields the pass looks at, each absent, falsy or well
    formed. *)
Definition readable (fields : list (jsstring * json)) : bool :=
  field_fits is_track_list (assoc k_tracks fields)
  && field_fits is_track_list (assoc k_sideA fields)
  && field_fits is_track_list (assoc k_sideB fields)
  && field_fits is_text (assoc k_title fields).

(** A value that holds no Infinity and no -0, at any depth. *)
Fixpoint plain (v : json) : bool :=
  match v with
  | JNegZero | JInf _ => false
  | JArr items => forallb plain items
  | JObj fields => forallb (fun kv => plain (snd kv)) fields
  | _ => true
  end.

(** A track with both texts cleaned. *)
Definition cleaned_track (t : Track) : Track :=
  MkTrack (clean_text (track_title t)) (clean_text (track_artist t)).

(** A file with a number beyond the range of a double and with -0. *)
Definition ledger_record : json :=
  JObj [(k_title, JStr (js "ledger&nbsp;")); (js "plays", JInf false);
        (js "gain", JArr [JNegZero; JNum 3 0])].

(** A directory with a record whose title carries the token and with a
    file that is no [.json] file and holds the token twice over. *)
Definition two_file_dir : gmap jsstring json :=
  {[ js "road-songs.json" := album_record;
     js "notes.txt" := JObj [(k_title, JStr (js "a&nb&nbsp;sp;"))] ]}.

(** A directory with one record of its own. *)
Definition old_dir : disk :=
  {[ js "old.json" := album_record ]}.

(** A site whose first listing page shows mixes 1 and 2 and whose two
    detail pages are the same page. *)
Definition twin_site : network :=
  fun reqs url =>
    if reqs =? 0 then Fulfilled (Response 200 (js "<a href=/mix/1>one</a><a href=/mix/2>two</a>"))
    else if reqs <? totalPages then Fulfilled (Response 404 [])
    else Fulfilled (Response 200 undated_page).

(** The record of [undated_page] under the id [ident]. *)
Definition road_songs (ident : jsstring) : MixData :=
  MkMixData ident (js "Road Songs") [] (js "cd") []
    [MkTrack (js "vitamin c") (js "can")] None None.

(** ** A tidy line *)

(** A text whose first unit is no white space. *)
Definition word_start (s : jsstring) : bool :=
  match s with
  | c :: _ => negb (is_space c)
  | [] => false
  end.

(** A text whose last unit, if it has one, is no white space. *)
Definition ends_clean (s : jsstring) : bool :=
  match last s with
  | Some c => negb (is_space c)
  | None => true
  end.

(** Every white space unit is a blank with a word right after it. *)
Fixpoint blanks_inside (s : jsstring) : bool :=
  match s with
  | [] => true
  | c :: t =>
      (if is_space c then (c =? 32)%N && word_start t else true) && blanks_inside t
  end.

(** Words with one blank between them and no white space around them. *)
Definition single_spaced (s : jsstring) : bool := starts_clean s && blanks_inside s.
(** ** What a match is

    The matcher is a search; [matches r x y] says what it searches for:
    [r] can take the state [x] to the state [y]. *)

Inductive iter (R : mstate -> mstate -> Prop) (gs : list nat)
  : nat -> option nat -> mstate -> mstate -> Prop :=
| iter_stop : forall mx x, iter R gs 0 mx x x
| iter_full : forall mn x, iter R gs mn (Some 0) x x
| iter_step : forall mn mx x y z,
    mx <> Some 0 ->
    R (clear_caps gs x) y ->
    iter R gs (Nat.pred mn) (pred_max mx) y z ->
    iter R gs mn mx x z.

Fixpoint matches (r : regex) (x y : mstate) : Prop :=
  match r with
  | Eps => y = x
  | Chr p =>
      exists c, rest x = c :: rest y /\ p c = true
                /\ pos y = S (pos x) /\ caps y = caps x
  | Seq a b => exists z, matches a x z /\ matches b z y
  | Alt a b => matches a x y \/ matches b x y
  | Grp i a =>
      exists z, matches a x z /\ y = set_cap i (firstn (pos z - pos x) (rest x)) z
  | Bol => pos x = 0 /\ y = x
  | Eol => rest x = [] /\ y = x
  | Rep mn mx _ a => iter (matches a) (groups_of a) mn mx x y
  end.

(** The match the matcher tries at index [j] of [s]. *)
Definition match_at (r : regex) (s : jsstring) (j : nat) : option mstate :=
  rmatch r Some (MState j (skipn j s) []).


(** [y] lies ahead of [x] in the same input. *)
Definition ahead (x y : mstate) : Prop :=
  length (rest y) <= length (rest x)
  /\ pos y + length (rest y) = pos x + length (rest x).
(** ** Properties of the matcher *)

Lemma orelse_Some a b res :
  orelse a b = Some res -> a = Some res \/ b = Some res.
Proof. destruct a; simpl; auto. Qed.

Lemma rep_loop_sound ma (R : mstate -> mstate -> Prop) gs greedy k :
  (forall d x res, ma d x = Some res -> exists y, R x y /\ d y = Some res) ->
  forall fuel mn mx x res,
    rep_loop ma gs greedy k fuel mn mx x = Some res ->
    exists y, iter R gs mn mx x y /\ k y = Some res.
Proof.
  intros Hma fuel.
  induction fuel as [|fuel IH]; intros mn mx x res H.
  - simpl in H. destruct mx as [[|n]|].
    + exists x. split; [apply iter_full | exact H].
    + destruct (Nat.eqb_spec mn 0) as [->|]; [|discriminate].
      exists x. split; [apply iter_stop | exact H].
    + destruct (Nat.eqb_spec mn 0) as [->|]; [|discriminate].
      exists x. split; [apply iter_stop | exact H].
  - assert (Hstep :
      forall mx', mx' <> Some 0 ->
        ma (fun y => if (mn =? 0) && (pos y =? pos x) then None
                     else rep_loop ma gs greedy k fuel (Nat.pred mn) (pred_max mx') y)
           (clear_caps gs x) = Some res ->
        exists y, iter R gs mn mx' x y /\ k y = Some res).
    { intros mx' Hmx Hm.
      apply Hma in Hm as (y & Hy & Hd).
      destruct ((mn =? 0) && (pos y =? pos x)); [discriminate|].
      apply IH in Hd as (z & Hz & Hk).
      exists z. split; [|exact Hk].
      eapply iter_step; eauto. }
    assert (Hany :
      forall mx', mx' <> Some 0 ->
        (if negb (mn =? 0)
         then ma (fun y => if (mn =? 0) && (pos y =? pos x) then None
                     else rep_loop ma gs greedy k fuel (Nat.pred mn) (pred_max mx') y)
                 (clear_caps gs x)
         else if greedy
              then orelse (ma (fun y => if (mn =? 0) && (pos y =? pos x) then None
                     else rep_loop ma gs greedy k fuel (Nat.pred mn) (pred_max mx') y)
                              (clear_caps gs x)) (k x)
              else orelse (k x)
                     (ma (fun y => if (mn =? 0) && (pos y =? pos x) then None
                     else rep_loop ma gs greedy k fuel (Nat.pred mn) (pred_max mx') y)
                         (clear_caps gs x))) = Some res ->
        exists y, iter R gs mn mx' x y /\ k y = Some res).
    { intros mx' Hmx Hm.
      destruct (Nat.eqb_spec mn 0) as [Hz|Hnz]; simpl in Hm.
      - subst mn.
        destruct greedy; apply orelse_Some in Hm as [Hm|Hm];
          try (apply (Hstep mx' Hmx); exact Hm);
          exists x; (split; [apply iter_stop | exact Hm]).
      - apply (Hstep mx' Hmx).
        destruct (Nat.eqb_spec mn 0); [contradiction|]. exact Hm. }
    simpl in H. destruct mx as [[|n]|].
    + exists x. split; [apply iter_full | exact H].
    + apply (Hany (Some (S n))); [discriminate | exact H].
    + apply (Hany None); [discriminate | exact H].
Qed.

Lemma rmatch_sound r :
  forall k x res, rmatch r k x = Some res ->
    exists y, matches r x y /\ k y = Some res.
Proof.
  induction r as [|p|a IHa b IHb|a IHa b IHb|mn mx g a IHa|i a IHa| |];
    intros k x res H; simpl in H.
  - exists x. split; [reflexivity | exact H].
  - destruct x as [i t cs]. simpl in H.
    destruct t as [|c t]; [discriminate|].
    destruct (p c) eqn:Hp; [|discriminate].
    exists (MState (S i) t cs). split; [|exact H].
    exists c. simpl. auto.
  - apply IHa in H as (z & Hz & H).
    apply IHb in H as (y & Hy & H).
    exists y. split; [exists z; auto | exact H].
  - apply orelse_Some in H as [H|H].
    + apply IHa in H as (y & Hy & H). exists y. split; [left; exact Hy | exact H].
    + apply IHb in H as (y & Hy & H). exists y. split; [right; exact Hy | exact H].
  - eapply rep_loop_sound in H; [|exact IHa]. exact H.
  - apply IHa in H as (z & Hz & H).
    eexists. split; [exists z; split; [exact Hz | reflexivity] | exact H].
  - destruct (pos x =? 0) eqn:E; [|discriminate].
    apply Nat.eqb_eq in E. exists x. split; [split; auto | exact H].
  - destruct (rest x) eqn:E; [|discriminate].
    exists x. split; [split; auto | exact H].
Qed.

Lemma filter_all_true {A} (l : list A) : List.filter (fun _ => true) l = l.
Proof. induction l as [|a l IH]; simpl; [reflexivity | now rewrite IH]. Qed.

Lemma clear_caps_nil x : clear_caps [] x = x.
Proof.
  destruct x as [i t cs]. unfold clear_caps. simpl.
  now rewrite filter_all_true.
Qed.

(** A match consumes a prefix of the input left and moves the index by
    its length. *)
Lemma iter_span (R : mstate -> mstate -> Prop) gs :
  (forall x y, R x y -> exists w, rest x = w ++ rest y /\ pos y = pos x + length w) ->
  forall mn mx x y, iter R gs mn mx x y ->
    exists w, rest x = w ++ rest y /\ pos y = pos x + length w.
Proof.
  intros HR mn mx x y H.
  induction H as [mx x|mn x|mn mx x y z Hmx Hxy Hyz IH].
  - exists []. simpl. split; [reflexivity | lia].
  - exists []. simpl. split; [reflexivity | lia].
  - apply HR in Hxy as (w1 & E1 & P1).
    destruct IH as (w2 & E2 & P2).
    exists (w1 ++ w2). simpl in E1, P1.
    rewrite E1, E2, <- app_assoc, length_app. split; [reflexivity | lia].
Qed.

Lemma matches_span r :
  forall x y, matches r x y ->
    exists w, rest x = w ++ rest y /\ pos y = pos x + length w.
Proof.
  induction r as [|p|a IHa b IHb|a IHa b IHb|mn mx g a IHa|i a IHa| |];
    intros x y H; simpl in H.
  - subst y. exists []. split; [reflexivity | simpl; lia].
  - destruct H as (c & E & _ & P & _). exists [c]. split; [exact E | simpl; lia].
  - destruct H as (z & Ha & Hb).
    apply IHa in Ha as (w1 & E1 & P1). apply IHb in Hb as (w2 & E2 & P2).
    exists (w1 ++ w2). rewrite E1, E2, <- app_assoc, length_app.
    split; [reflexivity | lia].
  - destruct H as [H|H]; [apply IHa | apply IHb]; exact H.
  - eapply iter_span; [exact IHa | exact H].
  - destruct H as (z & Ha & ->). apply IHa in Ha as (w & E & P).
    exists w. simpl. auto.
  - destruct H as [_ ->]. exists []. split; [reflexivity | simpl; lia].
  - destruct H as [_ ->]. exists []. split; [reflexivity | simpl; lia].
Qed.

(** A quantified class consumes units of the class, as many as the
    bounds allow, and captures nothing. *)
Lemma iter_class p mn mx x y :
  iter (matches (Chr p)) [] mn mx x y ->
  (forall n, mx = Some n -> mn <= n) ->
  exists w, rest x = w ++ rest y /\ pos y = pos x + length w /\ caps y = caps x
            /\ forallb p w = true /\ mn <= length w
            /\ (forall n, mx = Some n -> length w <= n).
Proof.
  intros H.
  induction H as [mx x|mn x|mn mx x y z Hmx Hxy Hyz IH]; intros Hwf.
  - exists []. simpl. repeat split; auto; intros; lia.
  - exists []. simpl. specialize (Hwf 0 eq_refl).
    repeat split; auto; intros; lia.
  - rewrite clear_caps_nil in Hxy. destruct Hxy as (c & E & Hp & P & C).
    destruct IH as (w & E' & P' & C' & Hw & Hmn & Hmax).
    { intros n Hn. destruct mx as [m|]; [|discriminate].
      injection Hn as <-. specialize (Hwf m eq_refl). lia. }
    exists (c :: w). simpl. rewrite E, E', Hp, Hw.
    repeat split; try lia; try congruence.
    intros n ->. destruct n as [|n]; [congruence|].
    specialize (Hmax n eq_refl). lia.
Qed.

Lemma matches_Seq a b x y :
  matches (Seq a b) x y -> exists z, matches a x z /\ matches b z y.
Proof. exact (fun H => H). Qed.

Lemma matches_Grp i a x y :
  matches (Grp i a) x y ->
  exists z w, matches a x z /\ rest x = w ++ rest z
              /\ caps y = (i, w) :: caps z /\ rest y = rest z /\ pos y = pos z.
Proof.
  intros (z & Ha & ->).
  destruct (matches_span _ _ _ Ha) as (w & E & P).
  exists z, w. simpl. repeat split; auto.
  rewrite E, P. replace (pos x + length w - pos x) with (length w) by lia.
  now rewrite firstn_app, Nat.sub_diag, firstn_all, app_nil_r.
Qed.

(** *** The scan *)

Lemma scan_spec r :
  forall t i m, scan r i t = Some m ->
    exists k, m_index m = i + k /\ k <= length t
      /\ rmatch r Some (MState (i + k) (skipn k t) []) = Some (m_end m)
      /\ forall k', k' < k -> rmatch r Some (MState (i + k') (skipn k' t) []) = None.
Proof.
  induction t as [|c t IH]; intros i m H; simpl in H.
  - destruct (rmatch r Some (MState i [] [])) eqn:E; [|discriminate].
    injection H as <-. exists 0. simpl. rewrite Nat.add_0_r.
    repeat split; auto. intros k' Hk. lia.
  - destruct (rmatch r Some (MState i (c :: t) [])) eqn:E.
    + injection H as <-. exists 0. simpl. rewrite Nat.add_0_r.
      repeat split; auto; [lia|]. intros k' Hk. lia.
    + apply IH in H as (k & Hi & Hk & Hm & Hmin).
      exists (S k). simpl.
      replace (i + S k) with (S i + k) by lia.
      repeat split; auto; [lia|].
      intros [|k'] Hk'; simpl.
      * now rewrite Nat.add_0_r.
      * replace (i + S k') with (S i + k') by lia. apply Hmin. lia.
Qed.

(** [s.match(re)] finds the leftmost index where the pattern matches. *)
Lemma rx_match_spec r s m :
  rx_match r s = Some m ->
  m_index m <= length s
  /\ match_at r s (m_index m) = Some (m_end m)
  /\ forall j, j < m_index m -> match_at r s j = None.
Proof.
  intros H. apply scan_spec in H as (k & Hi & Hk & Hm & Hmin).
  simpl in Hi. subst k.
  repeat split; auto.
Qed.

Lemma rx_match_matches r s m :
  rx_match r s = Some m ->
  matches r (MState (m_index m) (skipn (m_index m) s) []) (m_end m).
Proof.
  intros H. apply rx_match_spec in H as (_ & H & _).
  apply rmatch_sound in H as (y & Hy & E).
  now injection E as <-.
Qed.

(** What a successful scan tells: where the match starts, what it
    consumes, and that nothing matched before. *)
Lemma scan_found r t i m :
  scan r i t = Some m ->
  exists k w,
    m_index m = i + k /\ k <= length t
    /\ skipn k t = w ++ rest (m_end m)
    /\ pos (m_end m) = i + k + length w
    /\ matches r (MState (i + k) (skipn k t) []) (m_end m)
    /\ forall k', k' < k -> rmatch r Some (MState (i + k') (skipn k' t) []) = None.
Proof.
  intros H. apply scan_spec in H as (k & Hi & Hk & Hm & Hmin).
  apply rmatch_sound in Hm as (y & Hy & E). injection E as ->.
  destruct (matches_span _ _ _ Hy) as (w & Ew & Pw). simpl in Ew, Pw.
  exists k, w. repeat split; auto.
Qed.

Lemma scan_nowhere r t :
  forall i, scan r i t = None ->
    forall k, k <= length t -> rmatch r Some (MState (i + k) (skipn k t) []) = None.
Proof.
  induction t as [|c t IH]; intros i H k Hk; simpl in H.
  - destruct (rmatch r Some (MState i [] [])) eqn:E; [discriminate|].
    simpl in Hk. assert (k = 0) as -> by lia. simpl. now rewrite Nat.add_0_r.
  - destruct (rmatch r Some (MState i (c :: t) [])) eqn:E; [discriminate|].
    destruct k as [|k]; simpl.
    + now rewrite Nat.add_0_r.
    + replace (i + S k) with (S i + k) by lia. apply IH; [exact H|].
      simpl in Hk. lia.
Qed.

(** Replacing never brings in a unit that is neither in the text nor in
    the replacement. *)
Lemma replace_loop_Forall (P : N -> Prop) r rep :
  Forall P rep ->
  forall fuel i t, Forall P t -> Forall P (replace_loop fuel r rep i t).
Proof.
  intros Hrep fuel. induction fuel as [|fuel IH]; intros i t Ht; simpl; [exact Ht|].
  destruct (scan r i t) as [m|] eqn:E; [|exact Ht].
  apply scan_found in E as (k & w & Hi & Hk & Hw & Hp & _ & _).
  rewrite Hi. replace (i + k - i) with k by lia.
  assert (Hd : Forall P (skipn k t)) by now apply Forall_drop.
  apply Forall_app. split; [now apply Forall_take|].
  apply Forall_app. split; [exact Hrep|].
  destruct (pos (m_end m) =? i + k).
  - destruct (skipn k t) as [|c t'] eqn:Ed; [constructor|].
    apply Forall_cons in Hd as [Hc Ht']. constructor; [exact Hc|].
    apply IH. exact Ht'.
  - apply IH. rewrite Hw in Hd. apply Forall_app in Hd as [_ Hd]. exact Hd.
Qed.

(** A greedy quantifier with nothing required after it never fails once
    its minimum is met. *)
Lemma rep_loop_accepts ma gs fuel mx x :
  rep_loop ma gs true Some fuel 0 mx x <> None.
Proof.
  destruct fuel as [|fuel]; simpl; destruct mx as [[|n]|]; try discriminate;
    destruct (ma _ _); discriminate.
Qed.

Lemma rep_loop_required ma gs greedy k fuel mn x :
  rep_loop ma gs greedy k (S fuel) (S mn) None x
  = ma (fun y => rep_loop ma gs greedy k fuel mn None y) (clear_caps gs x).
Proof. reflexivity. Qed.

Lemma plus_class_matches p i c t cs :
  p c = true -> rmatch (plus (Chr p)) Some (MState i (c :: t) cs) <> None.
Proof.
  intros Hp. unfold plus.
  change (rmatch (Rep 1 None true (Chr p)) Some (MState i (c :: t) cs))
    with (rep_loop (rmatch (Chr p)) [] true Some (S (S (length t))) 1 None
            (MState i (c :: t) cs)).
  rewrite rep_loop_required, clear_caps_nil. cbn [rmatch rest].
  rewrite Hp. apply rep_loop_accepts.
Qed.

(** *** Greedy runs *)

Lemma run_end_spec p t :
  forall i cs,
    i <= pos (run_end p i t cs) /\ starts_with p (rest (run_end p i t cs)) = false.
Proof.
  induction t as [|c t IH]; intros i cs; simpl; [auto|].
  destruct (p c) eqn:E; simpl.
  - destruct (IH (S i) cs) as [H1 H2]. split; [lia | exact H2].
  - split; [lia | exact E].
Qed.

(** With nothing required after it, a greedy [p*] takes the whole run. *)
Lemma greedy_class_run p fuel :
  forall i t cs,
    length t <= fuel ->
    rep_loop (rmatch (Chr p)) [] true Some fuel 0 None (MState i t cs)
    = Some (run_end p i t cs).
Proof.
  induction fuel as [|fuel IH]; intros i t cs Hlen.
  - destruct t; [reflexivity | simpl in Hlen; lia].
  - cbn [rep_loop Nat.eqb negb]. rewrite clear_caps_nil. cbn [rmatch rest pos caps].
    destruct t as [|c t]; [reflexivity|]. cbn [run_end].
    destruct (p c); [|reflexivity].
    cbn [andb]. replace (S i =? i) with false by (symmetry; apply Nat.eqb_neq; lia).
    cbn [Nat.pred pred_max]. rewrite IH by (simpl in Hlen; lia). reflexivity.
Qed.

Lemma plus_class_run p i t cs :
  rmatch (plus (Chr p)) Some (MState i t cs)
  = match t with
    | c :: t' => if p c then Some (run_end p (S i) t' cs) else None
    | [] => None
    end.
Proof.
  unfold plus.
  change (rmatch (Rep 1 None true (Chr p)) Some (MState i t cs))
    with (rep_loop (rmatch (Chr p)) [] true Some (S (length t)) 1 None
            (MState i t cs)).
  rewrite rep_loop_required, clear_caps_nil. cbn [rmatch rest pos caps].
  destruct t as [|c t]; [reflexivity|].
  destruct (p c); [|reflexivity].
  apply greedy_class_run. simpl. lia.
Qed.

Lemma plus_class_fails p k i t cs :
  starts_with p t = false -> rmatch (plus (Chr p)) k (MState i t cs) = None.
Proof.
  intros H. unfold plus.
  change (rmatch (Rep 1 None true (Chr p)) k (MState i t cs))
    with (rep_loop (rmatch (Chr p)) [] true k (S (length t)) 1 None
            (MState i t cs)).
  rewrite rep_loop_required, clear_caps_nil. cbn [rmatch rest].
  destruct t as [|c t]; [reflexivity|]. simpl in H. now rewrite H.
Qed.

Lemma rmatch_Alt a b k x : rmatch (Alt a b) k x = orelse (rmatch a k x) (rmatch b k x).
Proof. reflexivity. Qed.

Lemma rmatch_Seq a b k x : rmatch (Seq a b) k x = rmatch a (fun y => rmatch b k y) x.
Proof. reflexivity. Qed.

Lemma rmatch_Bol k x : rmatch Bol k x = if pos x =? 0 then k x else None.
Proof. reflexivity. Qed.

(** *** The iteration bound of the quantifier

    A matcher calls its continuation only on states ahead of its own, so
    the bound [mn + length (rest x)] of [rmatch] on the iterations of a
    quantifier is never what stops it: any larger bound gives the same
    result. *)

Lemma ahead_refl x : ahead x x.
Proof. unfold ahead. lia. Qed.

Lemma ahead_trans x y z : ahead x y -> ahead y z -> ahead x z.
Proof. unfold ahead. lia. Qed.

Lemma rep_loop_local ma gs greedy :
  (forall k k' x, (forall y, ahead x y -> k y = k' y) -> ma k x = ma k' x) ->
  forall fuel k k' mn mx x,
    (forall y, ahead x y -> k y = k' y) ->
    rep_loop ma gs greedy k fuel mn mx x = rep_loop ma gs greedy k' fuel mn mx x.
Proof.
  intros Hma fuel.
  induction fuel as [|fuel IH]; intros k k' mn mx x Hk.
  - simpl. rewrite (Hk x (ahead_refl x)). reflexivity.
  - cbn [rep_loop]. rewrite (Hk x (ahead_refl x)).
    assert (E : forall mx',
               ma (fun y => if (mn =? 0) && (pos y =? pos x) then None
                            else rep_loop ma gs greedy k fuel (Nat.pred mn) mx' y)
                  (clear_caps gs x)
               = ma (fun y => if (mn =? 0) && (pos y =? pos x) then None
                              else rep_loop ma gs greedy k' fuel (Nat.pred mn) mx' y)
                    (clear_caps gs x)).
    { intros mx'. apply Hma. intros y Hy.
      destruct ((mn =? 0) && (pos y =? pos x)); [reflexivity|].
      apply IH. intros z Hz. apply Hk.
      apply (ahead_trans _ y); [exact Hy | exact Hz]. }
    destruct mx as [[|n]|]; [reflexivity| |]; cbn [pred_max]; now rewrite E.
Qed.

Lemma rmatch_local r :
  forall k k' x, (forall y, ahead x y -> k y = k' y) -> rmatch r k x = rmatch r k' x.
Proof.
  induction r as [|p|a IHa b IHb|a IHa b IHb|mn mx g a IHa|i a IHa| |];
    intros k k' x Hk; cbn [rmatch].
  - apply Hk, ahead_refl.
  - destruct x as [i t cs]. simpl. destruct t as [|c t]; [reflexivity|].
    destruct (p c); [|reflexivity]. apply Hk. unfold ahead. simpl. lia.
  - apply IHa. intros y Hy. apply IHb. intros z Hz. apply Hk.
    apply (ahead_trans _ y); assumption.
  - now rewrite (IHa k k' x Hk), (IHb k k' x Hk).
  - apply rep_loop_local; assumption.
  - apply IHa. intros y Hy. apply Hk. exact Hy.
  - destruct (pos x =? 0); [apply Hk, ahead_refl | reflexivity].
  - destruct (rest x); [apply Hk, ahead_refl | reflexivity].
Qed.

Lemma rmatch_no_continuation r x : rmatch r (fun _ => None) x = None.
Proof.
  destruct (rmatch r (fun _ => None) x) eqn:E; [|reflexivity].
  apply rmatch_sound in E as (y & _ & E). discriminate.
Qed.

Lemma orelse_None_r a : orelse a None = a.
Proof. destruct a; reflexivity. Qed.

Lemma rep_loop_fuel a gs greedy k fuel1 :
  forall fuel2 mn mx x,
    mn + length (rest x) <= fuel1 ->
    mn + length (rest x) <= fuel2 ->
    rep_loop (rmatch a) gs greedy k fuel1 mn mx x
    = rep_loop (rmatch a) gs greedy k fuel2 mn mx x.
Proof.
  assert (Hdone : forall fuel mn mx x,
             mn + length (rest x) <= 0 ->
             rep_loop (rmatch a) gs greedy k fuel mn mx x = k x).
  { intros fuel mn mx x H0.
    assert (mn = 0) as -> by lia.
    destruct fuel as [|fuel]; cbn [rep_loop Nat.eqb negb];
      destruct mx as [[|n]|]; try reflexivity;
      (rewrite (rmatch_local a _ (fun _ => None)), rmatch_no_continuation;
       [destruct greedy; [reflexivity | apply orelse_None_r]|]);
      intros y [Hy1 Hy2]; simpl in Hy1, Hy2;
      (replace (pos y =? pos x) with true
         by (symmetry; apply Nat.eqb_eq; lia)); reflexivity. }
  induction fuel1 as [|fuel1 IH]; intros fuel2 mn mx x H1 H2.
  - now rewrite !Hdone by exact H1.
  - destruct fuel2 as [|fuel2]; [now rewrite !Hdone by exact H2|].
    cbn [rep_loop].
    assert (E : forall mx',
               rmatch a
                 (fun y => if (mn =? 0) && (pos y =? pos x) then None
                           else rep_loop (rmatch a) gs greedy k fuel1 (Nat.pred mn) mx' y)
                 (clear_caps gs x)
               = rmatch a
                   (fun y => if (mn =? 0) && (pos y =? pos x) then None
                             else rep_loop (rmatch a) gs greedy k fuel2 (Nat.pred mn) mx' y)
                   (clear_caps gs x)).
    { intros mx'. apply rmatch_local. intros y [Hy1 Hy2]. simpl in Hy1, Hy2.
      destruct (Nat.eqb_spec mn 0) as [->|Hmn]; simpl.
      - destruct (Nat.eqb_spec (pos y) (pos x)); [reflexivity|].
        apply IH; simpl; lia.
      - apply IH; lia. }
    destruct mx as [[|n]|]; [reflexivity| |]; cbn [pred_max]; now rewrite E.
Qed.

(** Whatever bound at least as large gives the quantifier of [rmatch]. *)
Lemma rmatch_Rep_fuel mn mx greedy a k x fuel :
  mn + length (rest x) <= fuel ->
  rep_loop (rmatch a) (groups_of a) greedy k fuel mn mx x
  = rmatch (Rep mn mx greedy a) k x.
Proof. intros H. cbn [rmatch]. apply rep_loop_fuel; [exact H | lia]. Qed.

(** *** The bounds of the two loops

    Every round of [replace_loop] leaves less text to go through, and so
    does every round of [exec_loop] for a pattern that matches no empty
    text; [S (length s)] rounds are never what stops them. *)

Lemma replace_loop_fuel r rep fuel1 :
  forall fuel2 i (t : jsstring),
    length t < fuel1 -> length t < fuel2 ->
    replace_loop fuel1 r rep i t = replace_loop fuel2 r rep i t.
Proof.
  induction fuel1 as [|fuel1 IH]; intros fuel2 i t H1 H2; [lia|].
  destruct fuel2 as [|fuel2]; [lia|]. cbn [replace_loop].
  destruct (scan r i t) as [m|] eqn:E; [|reflexivity].
  apply scan_found in E as (k & w & Hi & Hk & Hw & Hp & _ & _).
  assert (L : length (skipn k t) = length w + length (rest (m_end m)))
    by (rewrite Hw; apply length_app).
  rewrite length_skipn in L.
  rewrite Hi. replace (i + k - i) with k by lia.
  do 2 f_equal.
  destruct (Nat.eqb_spec (pos (m_end m)) (i + k)) as [Hz|Hnz].
  - destruct (skipn k t) as [|c t'] eqn:Ed; [reflexivity|]. f_equal.
    assert (L' : length (skipn k t) = S (length t')) by now rewrite Ed.
    rewrite length_skipn in L'. apply IH; lia.
  - apply IH; lia.
Qed.

Lemma exec_loop_fuel r :
  (forall x y, matches r x y -> pos x < pos y) ->
  forall fuel1 fuel2 i (t : jsstring),
    length t < fuel1 -> length t < fuel2 ->
    exec_loop fuel1 r i t = exec_loop fuel2 r i t.
Proof.
  intros Hr fuel1.
  induction fuel1 as [|fuel1 IH]; intros fuel2 i t H1 H2; [lia|].
  destruct fuel2 as [|fuel2]; [lia|]. cbn [exec_loop].
  destruct (scan r i t) as [m|] eqn:E; [|reflexivity].
  apply scan_found in E as (k & w & Hi & Hk & Hw & Hp & Hm & _).
  apply Hr in Hm. simpl in Hm.
  assert (L : length (skipn k t) = length w + length (rest (m_end m)))
    by (rewrite Hw; apply length_app).
  rewrite length_skipn in L.
  f_equal. apply IH; lia.
Qed.

Lemma seqs_chr_advances p rs x y :
  matches (seqs (Chr p :: rs)) x y -> pos x < pos y.
Proof.
  destruct rs as [|r rs]; cbn [seqs].
  - intros (c & _ & _ & P & _). lia.
  - intros (z & (c & _ & _ & P & _) & H).
    apply matches_span in H as (w & _ & Pw). lia.
Qed.

Lemma Seq_advances a b x y :
  (forall x z, matches a x z -> pos x < pos z) ->
  matches (Seq a b) x y -> pos x < pos y.
Proof.
  intros Ha (z & H1 & H2). apply Ha in H1.
  apply matches_span in H2 as (w & _ & Pw). lia.
Qed.

(** *** Literals *)

Lemma matches_units (f : N -> N -> bool) (cs : list N) :
  forall x y,
    matches (seqs (List.map (fun c => Chr (f c)) cs)) x y ->
    exists w, rest x = w ++ rest y /\ pos y = pos x + length w
              /\ caps y = caps x
              /\ Forall2 (fun c a => f c a = true) cs w.
Proof.
  induction cs as [|c cs IH]; intros x y H.
  - simpl in H. subst y. exists []. simpl. repeat split; auto.
  - destruct cs as [|c' cs].
    + simpl in H. destruct H as (a & E & Ha & P & C).
      exists [a]. simpl. split; [exact E|]. split; [lia|]. split; [exact C|].
      repeat constructor. exact Ha.
    + change (seqs (List.map (fun c => Chr (f c)) (c :: c' :: cs)))
        with (Seq (Chr (f c)) (seqs (List.map (fun c => Chr (f c)) (c' :: cs)))) in H.
      destruct H as (z & (a & E & Ha & P & C) & H).
      apply IH in H as (w & Ew & Pw & Cw & Fw).
      exists (a :: w). simpl. rewrite E, Ew.
      split; [reflexivity|]. split; [lia|]. split; [congruence|].
      constructor; assumption.
Qed.

Lemma Forall2_eqb (cs w : list N) :
  Forall2 (fun c a => (c =? a)%N = true) cs w -> w = cs.
Proof.
  induction 1 as [|c a cs w Hc F IH]; [reflexivity|].
  apply N.eqb_eq in Hc. now rewrite Hc, IH.
Qed.

Lemma matches_lit s x y :
  matches (lit s) x y ->
  rest x = js s ++ rest y /\ pos y = pos x + length (js s) /\ caps y = caps x.
Proof.
  intros H. apply matches_units in H as (w & E & P & C & F).
  apply Forall2_eqb in F. subst w. auto.
Qed.

Lemma matches_lit_i s x y :
  matches (lit_i s) x y ->
  exists w, rest x = w ++ rest y /\ pos y = pos x + length w
            /\ caps y = caps x /\ Forall2 same_letter (js s) w.
Proof.
  intros H.
  apply (matches_units (fun c a => (a =? lower_unit c)%N || (a =? upper_unit c)%N))
    in H as (w & E & P & C & F).
  exists w. repeat split; auto.
  eapply Forall2_impl; [exact F|]. intros c a Hc.
  apply orb_prop in Hc as [Hc|Hc]; apply N.eqb_eq in Hc; [left | right]; exact Hc.
Qed.

Lemma lower_same_letter c a : same_letter c a -> lower_unit a = lower_unit c.
Proof.
  unfold same_letter, lower_unit, upper_unit, is_upper, is_lower, in_range.
  intros [-> | ->];
    repeat match goal with
           | |- context [(?a <=? ?b)%N] => destruct (N.leb_spec a b)
           end; cbn [andb] in *; lia.
Qed.

Lemma basic_latin_same_letter c a :
  is_basic_latin c = true -> same_letter c a -> is_basic_latin a = true.
Proof.
  unfold same_letter, is_basic_latin, lower_unit, upper_unit, is_upper, is_lower,
    in_range.
  intros Hc H. apply N.ltb_lt in Hc. apply N.ltb_lt.
  destruct H as [-> | ->];
    repeat match goal with
           | |- context [(?a <=? ?b)%N] => destruct (N.leb_spec a b)
           end; cbn [andb] in *; lia.
Qed.

(** What an [i] literal of Basic Latin text matches is that text but for
    the case of its letters. *)
Lemma same_letters_lower cs w :
  Forall2 same_letter cs w ->
  forallb is_basic_latin cs = true ->
  List.map lower_unit w = List.map lower_unit cs
  /\ forallb is_basic_latin w = true.
Proof.
  induction 1 as [|c a cs w Hc F IH]; simpl; [auto|].
  intros H. apply andb_prop in H as [Hb Hbs].
  destruct (IH Hbs) as [E B].
  rewrite E, B, (lower_same_letter _ _ Hc), (basic_latin_same_letter _ _ Hb Hc).
  auto.
Qed.

(** *** Captures *)

Lemma iter_keeps_caps (R : mstate -> mstate -> Prop) :
  (forall x y, R x y -> caps y = caps x) ->
  forall mn mx x y, iter R [] mn mx x y -> caps y = caps x.
Proof.
  intros HR mn mx x y H.
  induction H as [mx x|mn x|mn mx x y z Hmx Hxy Hyz IH]; try reflexivity.
  rewrite clear_caps_nil in Hxy. apply HR in Hxy. congruence.
Qed.

(** A pattern without groups leaves the captures as they are. *)
Lemma matches_keeps_caps r :
  groups_of r = [] -> forall x y, matches r x y -> caps y = caps x.
Proof.
  induction r as [|p|a IHa b IHb|a IHa b IHb|mn mx g a IHa|i a IHa| |];
    simpl; intros G x y H.
  - now subst.
  - destruct H as (c & _ & _ & _ & C). exact C.
  - apply app_eq_nil in G as [Ga Gb]. destruct H as (z & Ha & Hb).
    apply (IHa Ga) in Ha. apply (IHb Gb) in Hb. congruence.
  - apply app_eq_nil in G as [Ga Gb].
    destruct H as [H|H]; [apply (IHa Ga) | apply (IHb Gb)]; exact H.
  - rewrite G in H. eapply iter_keeps_caps; [apply (IHa G) | exact H].
  - discriminate.
  - now destruct H as [_ ->].
  - now destruct H as [_ ->].
Qed.

(** *** The text of a match *)

Lemma matched_text (s : jsstring) m w :
  skipn (m_index m) s = w ++ rest (m_end m) ->
  pos (m_end m) = m_index m + length w ->
  matched s m = w.
Proof.
  intros E P. unfold matched, substring. rewrite E, P.
  replace (m_index m + length w - m_index m) with (length w) by lia.
  now rewrite firstn_app, Nat.sub_diag, firstn_all, app_nil_r.
Qed.


(** Every match the loop of a [g] pattern goes through. *)
Lemma exec_loop_found r (s : jsstring) fuel :
  forall i m,
    In m (exec_loop fuel r i (skipn i s)) ->
    exists w,
      skipn (m_index m) s = w ++ rest (m_end m)
      /\ pos (m_end m) = m_index m + length w
      /\ matched s m = w
      /\ matches r (MState (m_index m) (skipn (m_index m) s) []) (m_end m).
Proof.
  induction fuel as [|fuel IH]; intros i m H; simpl in H; [contradiction|].
  destruct (scan r i (skipn i s)) as [m0|] eqn:E; [|contradiction].
  apply scan_found in E as (k & w & Hi & _ & Hw & Hp & Hm & _).
  rewrite skipn_skipn, (Nat.add_comm k i), <- Hi in Hw, Hm.
  rewrite <- Hi in Hp.
  destruct H as [<-|H].
  - exists w. repeat split; auto. now apply matched_text.
  - assert (Hr : rest (m_end m0) = skipn (pos (m_end m0)) s).
    { rewrite Hp, Nat.add_comm, <- skipn_skipn, Hw.
      now rewrite skipn_app, Nat.sub_diag, skipn_all. }
    rewrite Hr in H. apply IH in H. exact H.
Qed.

Lemma exec_all_found r (s : jsstring) m :
  In m (exec_all r s) ->
  exists w,
    skipn (m_index m) s = w ++ rest (m_end m)
    /\ pos (m_end m) = m_index m + length w
    /\ matched s m = w
    /\ matches r (MState (m_index m) (skipn (m_index m) s) []) (m_end m).
Proof. unfold exec_all. apply (exec_loop_found r s (S (length s)) 0). Qed.

(** ** Dates *)

Lemma split_sep_free (sep : N) (w : jsstring) :
  forallb (fun c => negb (c =? sep)%N) w = true -> split sep w = [w].
Proof.
  induction w as [|c w IH]; simpl; [reflexivity|].
  intros H. apply andb_prop in H as [Hc Hw].
  apply negb_true_iff in Hc. rewrite Hc, (IH Hw). reflexivity.
Qed.

Lemma split_at_sep (sep : N) (w t : jsstring) :
  forallb (fun c => negb (c =? sep)%N) w = true ->
  split sep (w ++ sep :: t) = w :: split sep t.
Proof.
  induction w as [|c w IH]; simpl; intros H.
  - now rewrite N.eqb_refl.
  - apply andb_prop in H as [Hc Hw].
    apply negb_true_iff in Hc. rewrite Hc, (IH Hw). reflexivity.
Qed.

Lemma digits_slash_free (w : jsstring) :
  forallb is_digit w = true -> forallb (fun c => negb (c =? u "/")%N) w = true.
Proof.
  induction w as [|c w IH]; cbn [forallb]; [reflexivity|].
  intros H. apply andb_prop in H as [Hc Hw]. rewrite (IH Hw), andb_true_r.
  unfold is_digit, in_range in Hc. apply andb_prop in Hc as [Hlo Hhi].
  apply N.leb_le in Hlo. apply negb_true_iff, N.eqb_neq.
  change (u "/") with 47%N. lia.
Qed.

Lemma matches_chr c x y :
  matches (chr c) x y ->
  rest x = u c :: rest y /\ pos y = S (pos x) /\ caps y = caps x.
Proof.
  intros (c' & E & Hc & P & C). apply N.eqb_eq in Hc. subst c'. auto.
Qed.

Lemma matches_times_digit lo hi x y :
  lo <= hi ->
  matches (times lo hi digit) x y ->
  exists w, rest x = w ++ rest y /\ forallb is_digit w = true
            /\ lo <= length w <= hi.
Proof.
  intros Hwf H. unfold times, digit in H. cbn [matches groups_of] in H.
  apply iter_class in H as (w & E & _ & _ & Hw & Hlo & Hhi).
  - exists w. repeat split; auto.
  - intros n [= <-]. exact Hwf.
Qed.

Lemma matches_mdy x y :
  matches re_mdy x y -> exists w, rest x = w ++ rest y /\ is_mdy w.
Proof.
  unfold re_mdy, is_mdy, mdy_parts. cbn [seqs]. intros H.
  apply matches_Seq in H as (z1 & H1 & H).
  apply matches_Seq in H as (z2 & H2 & H).
  apply matches_Seq in H as (z3 & H3 & H).
  apply matches_Seq in H as (z4 & H4 & H5).
  apply matches_times_digit in H1 as (m & E1 & Dm & Lm); [|lia].
  apply matches_chr in H2 as (E2 & _).
  apply matches_times_digit in H3 as (d & E3 & Dd & Ld); [|lia].
  apply matches_chr in H4 as (E4 & _).
  apply matches_times_digit in H5 as (yr & E5 & Dy & Ly); [|lia].
  exists (m ++ u "/" :: d ++ u "/" :: yr). split.
  - rewrite E1, E2, E3, E4, E5.
    rewrite <- !app_assoc. simpl. rewrite <- !app_assoc. reflexivity.
  - exists m, d, yr. repeat split; auto; lia.
Qed.

(** On what the date patterns capture, [parseDate] does not throw and
    returns the canonical date of the same year, month and day. *)
Lemma parseDate_mdy w m d y :
  mdy_parts w m d y ->
  parseDate w = Some (iso_of m d y) /\ is_iso_date (iso_of m d y) = true.
Proof.
  intros (-> & Dm & Dd & Dy & Lm & Ld & Ly).
  unfold parseDate.
  rewrite split_at_sep by (apply digits_slash_free; exact Dm).
  rewrite split_at_sep by (apply digits_slash_free; exact Dd).
  rewrite split_sep_free by (apply digits_slash_free; exact Dy).
  split; [reflexivity|]. unfold iso_of.
  destruct y as [|y1 [|y2 [|y3 [|y4 [|? ?]]]]]; simpl in Ly; try lia.
  simpl in Dy. repeat (apply andb_prop in Dy as [? Dy]).
  destruct m as [|m1 [|m2 [|? ?]]]; simpl in Lm; try lia;
    destruct d as [|d1 [|d2 [|? ?]]]; simpl in Ld; try lia;
    simpl in Dm, Dd;
    repeat match goal with
           | H : _ && _ = true |- _ => apply andb_prop in H as [? ?]
           end;
    cbn [padStart length Nat.sub repeat app js List.map list_ascii_of_string
         is_iso_date];
    repeat match goal with
           | H : is_digit _ = true |- _ => rewrite H
           end;
    reflexivity.
Qed.

Lemma matches_group_mdy z y :
  matches (Grp 1 re_mdy) z y ->
  exists w cs, caps y = (1, w) :: cs /\ is_mdy w.
Proof.
  intros H.
  apply matches_Grp in H as (z' & w & Hm & E & C & _).
  apply matches_mdy in Hm as (w' & E' & Hw).
  assert (w = w') as ->.
  { rewrite E' in E. apply app_inv_tail in E. congruence. }
  eauto.
Qed.

Lemma group_of_caps i w cs n y :
  caps y = (i, w) :: cs -> group i (Match n y) = w.
Proof.
  intros C. unfold group, capture. simpl. rewrite C. simpl.
  now rewrite Nat.eqb_refl.
Qed.

Lemma submit_date_group s m :
  rx_match re_submit_date s = Some m -> is_mdy (group 1 m).
Proof.
  intros H. apply rx_match_matches in H.
  unfold re_submit_date in H. cbn [seqs] in H.
  do 4 (apply matches_Seq in H as (? & _ & H)).
  apply matches_group_mdy in H as (w & cs & C & Hw).
  destruct m as [n y]. now rewrite (group_of_caps _ _ _ _ _ C).
Qed.

Lemma submitted_group s m :
  rx_match re_submitted s = Some m -> is_mdy (group 1 m).
Proof.
  intros H. apply rx_match_matches in H.
  unfold re_submitted in H. cbn [seqs] in H.
  do 2 (apply matches_Seq in H as (? & _ & H)).
  apply matches_group_mdy in H as (w & cs & C & Hw).
  destruct m as [n y]. now rewrite (group_of_caps _ _ _ _ _ C).
Qed.

Section ImporterFacts.

Context {CM : CaseMapping}.

(** The date read off a page: the labeled date in canonical form, or
    the empty string when no label is found; reading it never throws. *)
Lemma extract_date_spec html :
  exists dt,
    extract_date html = Some dt
    /\ match or_match (rx_match re_submit_date html) (rx_match re_submitted html) with
       | Some found =>
           exists m d y, mdy_parts (group 1 found) m d y
                         /\ dt = iso_of m d y /\ is_iso_date dt = true
       | None => dt = []
       end.
Proof.
  unfold extract_date.
  destruct (rx_match re_submit_date html) as [found|] eqn:E1; simpl.
  - apply submit_date_group in E1 as (m & d & y & Hw).
    destruct (parseDate_mdy _ _ _ _ Hw) as [-> Hd]. eauto 10.
  - destruct (rx_match re_submitted html) as [found|] eqn:E2.
    + apply submitted_group in E2 as (m & d & y & Hw).
      destruct (parseDate_mdy _ _ _ _ Hw) as [-> Hd]. eauto 10.
    + eauto.
Qed.

(** [extractMixData] does not throw. *)
Lemma extractMixData_total html mixId : extractMixData html mixId <> None.
Proof.
  destruct (extract_date_spec html) as (d & E & _).
  unfold extractMixData. rewrite E.
  destruct (_ && _); discriminate.
Qed.

End ImporterFacts.

(** The three patterns that drive a [while] loop match no empty text. *)
Lemma re_mix_id_advances x y : matches re_mix_id x y -> pos x < pos y.
Proof.
  unfold re_mix_id. apply Seq_advances. intros x' z. apply seqs_chr_advances.
Qed.

Lemma rowRegex_advances x y : matches rowRegex x y -> pos x < pos y.
Proof.
  unfold rowRegex. cbn [seqs]. apply Seq_advances.
  intros x' z. apply seqs_chr_advances.
Qed.

Lemma listItemRegex_advances x y : matches listItemRegex x y -> pos x < pos y.
Proof.
  unfold listItemRegex. cbn [seqs]. apply Seq_advances.
  intros x' z. apply seqs_chr_advances.
Qed.

(** ** Properties of the importer *)

Lemma test_search r s :
  test r s = true ->
  exists i, search r s = Some i /\ i <= length s
            /\ match_at r s i <> None
            /\ forall j, j < i -> match_at r s j = None.
Proof.
  unfold test, search. destruct (scan r 0 s) as [m|] eqn:E; [|discriminate].
  intros _. change (rx_match r s = Some m) in E.
  apply rx_match_spec in E as (L & Hm & Hmin).
  exists (m_index m). repeat split; auto. rewrite Hm. discriminate.
Qed.

(** C4.  On every detail page that shows both a "Side A" and a "Side B"
    marker, [extractMixData] returns a record whose format is cassette,
    whose [sideA] holds the tracks of the text before the first "Side B"
    marker, whose [sideB] holds the tracks of the text from that marker
    on, and whose [tracks] is [sideA] followed by [sideB], so that its
    length is the sum of theirs. *)
Theorem extractMixData_sides (CM : CaseMapping) (html mixId : jsstring) :
  test re_sideA html = true ->
  test re_sideB html = true ->
  exists d i,
    extractMixData html mixId = Some d
    /\ search re_sideB html = Some i
    /\ match_at re_sideB html i <> None
    /\ (forall j, j < i -> match_at re_sideB html j = None)
    /\ format d = js "cassette"
    /\ sideA d = Some (extractTracksFromHtml (firstn i html))
    /\ sideB d = Some (extractTracksFromHtml (skipn i html))
    /\ tracks d = extractTracksFromHtml (firstn i html)
                  ++ extractTracksFromHtml (skipn i html)
    /\ length (tracks d) = length (extractTracksFromHtml (firstn i html))
                           + length (extractTracksFromHtml (skipn i html)).
Proof.
  intros HA HB.
  destruct (test_search _ _ HB) as (i & Hi & _ & Hat & Hmin).
  destruct (extract_date_spec html) as (dt & Edt & _).
  unfold extractMixData. rewrite Edt, HA, HB.
  rewrite orb_true_r. cbn [andb].
  unfold sideBIndex, substring. rewrite Hi, Nat.sub_0_r. cbn [skipn].
  eexists. exists i.
  split; [reflexivity|]. cbn [format sideA sideB tracks].
  repeat split; auto. apply length_app.
Qed.

Lemma extractMixData_sides_witness :
  test re_sideA cassette_page = true
  /\ test re_sideB cassette_page = true
  /\ exists d i,
    extractMixData (CM := basic_latin_case) cassette_page (js "77") = Some d
    /\ search re_sideB cassette_page = Some i
    /\ match_at re_sideB cassette_page i <> None
    /\ (forall j, j < i -> match_at re_sideB cassette_page j = None)
    /\ format d = js "cassette"
    /\ sideA d = Some (extractTracksFromHtml (CM := basic_latin_case) (firstn i cassette_page))
    /\ sideB d = Some (extractTracksFromHtml (CM := basic_latin_case) (skipn i cassette_page))
    /\ tracks d = extractTracksFromHtml (CM := basic_latin_case) (firstn i cassette_page)
                  ++ extractTracksFromHtml (CM := basic_latin_case) (skipn i cassette_page)
    /\ length (tracks d)
       = length (extractTracksFromHtml (CM := basic_latin_case) (firstn i cassette_page))
         + length (extractTracksFromHtml (CM := basic_latin_case) (skipn i cassette_page)).
Proof.
  split; [vm_compute; reflexivity|].
  split; [vm_compute; reflexivity|].
  apply (extractMixData_sides basic_latin_case cassette_page (js "77"));
    vm_compute; reflexivity.
Defined.

(** The cassette page of the specification: two tracks a side, four in
    all, in the order of the rows. *)
Example cassette_page_tracks :
  option_map (fun d => (sideA d, sideB d, tracks d))
    (extractMixData (CM := basic_latin_case) cassette_page (js "77"))
  = Some (Some [MkTrack (js "glory box") (js "portishead");
                MkTrack (js "sexy boy") (js "air")],
          Some [MkTrack (js "loser") (js "beck");
                MkTrack (js "song 2") (js "blur")],
          [MkTrack (js "glory box") (js "portishead");
           MkTrack (js "sexy boy") (js "air");
           MkTrack (js "loser") (js "beck");
           MkTrack (js "song 2") (js "blur")]).
Proof. vm_compute. reflexivity. Qed.

(** C7, as the code has it.  For every detail page, the record that
    [extractMixData] returns is written with a [date] field.  When the
    page shows a labeled M/D/YYYY date, the field holds its year, month
    and day in the zero-padded form YYYY-MM-DD ("7/4/1999" gives
    "1999-07-04", "12/31/2003" gives "2003-12-31"); when it shows none,
    the field holds the empty string: it is never left out. *)
Theorem persisted_date (CM : CaseMapping) (html mixId : jsstring) :
  (exists d,
     extractMixData html mixId = Some d
     /\ json_get (js "date") (jsonData d) = Some (JStr (date d))
     /\ match or_match (rx_match re_submit_date html) (rx_match re_submitted html) with
        | Some found =>
            exists m dd y,
              mdy_parts (group 1 found) m dd y
              /\ date d = iso_of m dd y
              /\ is_iso_date (date d) = true
        | None => date d = []
        end)
  /\ parseDate (js "7/4/1999") = Some (js "1999-07-04")
  /\ parseDate (js "12/31/2003") = Some (js "2003-12-31").
Proof.
  split; [|split; reflexivity].
  destruct (extract_date_spec html) as (dt & Edt & Hdt).
  unfold extractMixData. rewrite Edt.
  destruct (_ && _); eexists; (split; [reflexivity|]); split; try exact Hdt;
    reflexivity.
Qed.

(** C7 as stated fails: a page that shows no date is written with a
    [date] field, holding the empty string. *)
Lemma undated_page_keeps_date_field :
  rx_match re_submit_date undated_page = None
  /\ rx_match re_submitted undated_page = None
  /\ exists d,
       extractMixData (CM := basic_latin_case) undated_page (js "5") = Some d
       /\ title d = js "Road Songs"
       /\ length (tracks d) = 1
       /\ json_get (js "date") (jsonData (CM := basic_latin_case) d) = Some (JStr []).
Proof.
  split; [vm_compute; reflexivity|].
  split; [vm_compute; reflexivity|].
  eexists. split; [vm_compute; reflexivity|].
  split; [reflexivity|]. split; reflexivity.
Qed.

(** *** Listing pages *)

Lemma str_eqb_eq (a b : jsstring) : str_eqb a b = true <-> a = b.
Proof. unfold str_eqb. apply bool_decide_eq_true. Qed.

Lemma str_eqb_neq (a b : jsstring) : str_eqb a b = false <-> a <> b.
Proof. unfold str_eqb. apply bool_decide_eq_false. Qed.

Lemma includes_In (arr : list jsstring) (x : jsstring) :
  includes arr x = true <-> In x arr.
Proof.
  unfold includes. rewrite existsb_exists. split.
  - intros (y & Hy & E). apply str_eqb_eq in E. now subst.
  - intros H. exists x. split; [exact H | now apply str_eqb_eq].
Qed.

Lemma includes_snoc (arr : list jsstring) (x y : jsstring) :
  includes (arr ++ [x]) y = includes arr y || str_eqb y x.
Proof.
  unfold includes. rewrite existsb_app. simpl. now rewrite orb_false_r.
Qed.

Lemma filter_filter_and {A} (f g : A -> bool) (l : list A) :
  List.filter f (List.filter g l) = List.filter (fun a => g a && f a) l.
Proof.
  induction l as [|a l IH]; simpl; [reflexivity|].
  destruct (g a); simpl; [destruct (f a)|]; now rewrite IH.
Qed.

Lemma filter_ext_eq {A} (f g : A -> bool) (l : list A) :
  (forall a, f a = g a) -> List.filter f l = List.filter g l.
Proof.
  intros H. induction l as [|a l IH]; simpl; [reflexivity|].
  now rewrite H, IH.
Qed.

(** The loop of [extractMixIds] keeps what it has and adds the first
    occurrences that are new. *)
Lemma push_new_first_seen (l acc : list jsstring) :
  fold_left
    (fun mixIds x => if negb (includes mixIds x) then mixIds ++ [x] else mixIds)
    l acc
  = acc ++ List.filter (fun y => negb (includes acc y)) (first_seen l).
Proof.
  revert acc. induction l as [|x t IH]; intros acc; simpl.
  - now rewrite app_nil_r.
  - rewrite IH, filter_filter_and.
    destruct (includes acc x) eqn:E; simpl.
    + f_equal. apply filter_ext_eq. intros y.
      destruct (str_eqb y x) eqn:Eyx; simpl; [|reflexivity].
      apply str_eqb_eq in Eyx. subst y. now rewrite E.
    + rewrite <- app_assoc. simpl. do 2 f_equal.
      apply filter_ext_eq. intros y.
      rewrite includes_snoc, negb_orb. apply andb_comm.
Qed.

Lemma fold_left_map_arg {A B C} (f : A -> C -> A) (g : B -> C) l a :
  fold_left (fun acc b => f acc (g b)) l a = fold_left f (List.map g l) a.
Proof. revert a. induction l as [|b l IH]; intros a; simpl; auto. Qed.

Lemma extractMixIds_first_seen html :
  extractMixIds html = first_seen (listed_ids html).
Proof.
  unfold extractMixIds, listed_ids.
  rewrite (fold_left_map_arg
             (fun mixIds x => if negb (includes mixIds x) then mixIds ++ [x]
                              else mixIds) (group 1)).
  rewrite push_new_first_seen. simpl.
  exact (filter_all_true _).
Qed.

Lemma first_seen_In l x : In x (first_seen l) <-> In x l.
Proof.
  induction l as [|y t IH]; simpl; [tauto|].
  rewrite List.filter_In, IH. split.
  - intros [H|[H _]]; auto.
  - intros [H|H]; auto.
    destruct (str_eqb x y) eqn:E.
    + apply str_eqb_eq in E. auto.
    + right. auto.
Qed.

Lemma first_seen_NoDup l : List.NoDup (first_seen l).
Proof.
  induction l as [|y t IH]; simpl; constructor.
  - rewrite List.filter_In. intros [_ H].
    apply negb_true_iff, str_eqb_neq in H. congruence.
  - apply List.NoDup_filter. exact IH.
Qed.

Lemma discover_app net pages :
  forall reqs acc,
    discover net reqs pages acc = acc ++ concat (pages_ids net reqs pages).
Proof.
  induction pages as [|page more IH]; intros reqs acc; simpl.
  - now rewrite app_nil_r.
  - rewrite IH. unfold discover_page, page_ids.
    destruct (fetchPage _ _); [now rewrite <- app_assoc|reflexivity].
Qed.

(** C1, as the code has it.  [extractMixIds] returns the distinct
    identifiers of one listing page, each once, in first-seen order; the
    discovery phase collects, in page order, the lists of the pages it
    could fetch, one after the other.  Duplicates are suppressed within a
    page and kept across pages. *)
Theorem discovered_ids (net : network) :
  (forall html,
      extractMixIds html = first_seen (listed_ids html)
      /\ List.NoDup (extractMixIds html)
      /\ (forall x, In x (extractMixIds html) <-> In x (listed_ids html)))
  /\ discover net 0 (seq 1 totalPages) []
     = concat (pages_ids net 0 (seq 1 totalPages))
  /\ Forall (@List.NoDup jsstring) (pages_ids net 0 (seq 1 totalPages)).
Proof.
  split; [|split].
  - intros html. rewrite extractMixIds_first_seen.
    split; [reflexivity|]. split; [apply first_seen_NoDup|].
    intros x. apply first_seen_In.
  - apply discover_app.
  - generalize 0 (seq 1 totalPages). intros reqs pages. revert reqs.
    induction pages as [|page more IH]; intros reqs; simpl; constructor; auto.
    unfold page_ids. destruct (fetchPage _ _); [|constructor].
    rewrite extractMixIds_first_seen. apply first_seen_NoDup.
Qed.

(** C1 as stated fails: an identifier that two listing pages show is
    collected twice. *)
Lemma overlapping_pages_collect_twice :
  discover overlapping_site 0 (seq 1 totalPages) [] = [js "7"; js "7"]
  /\ ~ List.NoDup (discover overlapping_site 0 (seq 1 totalPages) []).
Proof.
  assert (E : discover overlapping_site 0 (seq 1 totalPages) [] = [js "7"; js "7"])
    by (vm_compute; reflexivity).
  split; [exact E|]. rewrite E. intros H.
  apply List.NoDup_cons_iff in H as [H _]. apply H. left. reflexivity.
Qed.

(** The listing of the specification: ids 7, 12, 7, 5. *)
Example extractMixIds_example :
  extractMixIds (js "<a href=/mix/7>a</a><a href=/mix/12>b</a><a href=/mix/7>c</a><a href=/mix/5>d</a>")
  = [js "7"; js "12"; js "5"].
Proof. vm_compute. reflexivity. Qed.

(** *** Validation and the counters *)

Section Orchestrator.

Context {CM : CaseMapping}.

Lemma persist_valid (d : MixData) (st : progress) :
  title d <> [] -> tracks d <> [] ->
  persist d st
  = Progress (<[file_name d := jsonData d]> (files st)) (S (created st)) (errors st).
Proof.
  intros Ht Hk. unfold persist, createMixFile.
  apply str_eqb_neq in Ht. rewrite Ht.
  destruct (tracks d); [contradiction|]. reflexivity.
Qed.

Lemma persist_invalid (d : MixData) (st : progress) :
  title d = [] \/ tracks d = [] ->
  persist d st = Progress (files st) (created st) (S (errors st)).
Proof.
  intros [H|H]; unfold persist; rewrite H.
  - reflexivity.
  - simpl. now rewrite andb_false_r.
Qed.

Lemma import_mix_counts net reqs mixId st :
  created (import_mix net reqs mixId st) + errors (import_mix net reqs mixId st)
  = S (created st + errors st).
Proof.
  unfold import_mix.
  destruct (fetchPage _ _) as [html|]; [|simpl; lia].
  destruct (extractMixData html mixId) as [d|]; [|simpl; lia].
  unfold persist. destruct (_ && _); simpl; lia.
Qed.

Lemma import_all_counts net ids :
  forall reqs st,
    created (import_all net reqs ids st) + errors (import_all net reqs ids st)
    = created st + errors st + length ids.
Proof.
  induction ids as [|mixId more IH]; intros reqs st; simpl; [lia|].
  rewrite IH, import_mix_counts. lia.
Qed.

(** A run accounts for every id it discovered, once per occurrence. *)
Lemma importMixes_counts net files0 :
  created (importMixes net files0) + errors (importMixes net files0)
  = length (discover net 0 (seq 1 totalPages) []).
Proof. unfold importMixes. now rewrite import_all_counts. Qed.

End Orchestrator.

(** On the site whose first two pages both show mix 7, the detail page
    of mix 7 is asked for twice (and is missing both times). *)
Example overlapping_site_run :
  importMixes (CM := basic_latin_case) overlapping_site ∅ = Progress ∅ 0 2.
Proof. vm_compute. reflexivity. Qed.

(** C5.  For every record that [extractMixData] returns for a fetched
    detail page, step 2 writes the record (and counts it as created) if
    its title is non-empty and it has at least one track, and otherwise
    writes nothing and adds one to the error counter. *)
Theorem persist_iff_valid (CM : CaseMapping) (net : network) (reqs : nat)
  (mixId html : jsstring) (st : progress) :
  fetchPage (net reqs (mix_url mixId)) (mix_url mixId) = inl html ->
  exists d,
    extractMixData html mixId = Some d
    /\ (title d <> [] /\ tracks d <> [] ->
        import_mix net reqs mixId st
        = Progress (<[file_name d := jsonData d]> (files st))
                   (S (created st)) (errors st)
        /\ files (import_mix net reqs mixId st) !! file_name d = Some (jsonData d))
    /\ (title d = [] \/ tracks d = [] ->
        import_mix net reqs mixId st
        = Progress (files st) (created st) (S (errors st))).
Proof.
  intros Hf.
  pose proof (extractMixData_total html mixId) as Hd.
  destruct (extractMixData html mixId) as [d|] eqn:E; [|contradiction].
  exists d. split; [reflexivity|].
  unfold import_mix. rewrite Hf, E. split.
  - intros [Ht Hk]. rewrite (persist_valid d st Ht Hk). split; [reflexivity|].
    simpl. apply lookup_insert_eq.
  - apply persist_invalid.
Qed.

Lemma persist_iff_valid_witness :
  fetchPage (one_page_site 0 (mix_url (js "5"))) (mix_url (js "5")) = inl undated_page
  /\ exists d,
    extractMixData (CM := basic_latin_case) undated_page (js "5") = Some d
    /\ (title d <> [] /\ tracks d <> [] ->
        import_mix (CM := basic_latin_case) one_page_site 0 (js "5") (Progress ∅ 0 0)
        = Progress (<[file_name (CM := basic_latin_case) d
                      := jsonData (CM := basic_latin_case) d]> ∅) 1 0
        /\ files (import_mix (CM := basic_latin_case) one_page_site 0 (js "5")
                    (Progress ∅ 0 0))
             !! file_name (CM := basic_latin_case) d
           = Some (jsonData (CM := basic_latin_case) d))
    /\ (title d = [] \/ tracks d = [] ->
        import_mix (CM := basic_latin_case) one_page_site 0 (js "5") (Progress ∅ 0 0)
        = Progress ∅ 0 1).
Proof.
  split; [reflexivity|].
  apply (persist_iff_valid basic_latin_case one_page_site 0 (js "5") undated_page
           (Progress ∅ 0 0)).
  reflexivity.
Defined.

(** C8.  When the fetch of a detail page fails, step 2 adds one to the
    error counter, writes nothing, and goes on with the ids that remain;
    a response whose status is not a success makes [fetchPage] throw an
    error whose message carries the URL and the status; and whatever
    happens to the single ids, every id of the run ends up counted as
    created or as an error. *)
Theorem failed_fetch_is_counted (CM : CaseMapping) (net : network) (reqs : nat)
  (mixId : jsstring) (more : list jsstring) (st : progress) (message : jsstring) :
  fetchPage (net reqs (mix_url mixId)) (mix_url mixId) = inr message ->
  import_mix net reqs mixId st = Progress (files st) (created st) (S (errors st))
  /\ import_all net reqs (mixId :: more) st
     = import_all net (S reqs) more (Progress (files st) (created st) (S (errors st)))
  /\ (forall r url, ok r = false ->
        fetchPage (Fulfilled r) url
        = inr (js "Failed to fetch " ++ url ++ js ": " ++ decimal (status r)))
  /\ (forall ids reqs' st',
        created (import_all net reqs' ids st') + errors (import_all net reqs' ids st')
        = created st' + errors st' + length ids).
Proof.
  intros Hf.
  assert (E : import_mix net reqs mixId st
              = Progress (files st) (created st) (S (errors st))).
  { unfold import_mix. now rewrite Hf. }
  split; [exact E|]. split; [simpl; now rewrite E|]. split.
  - intros r url Hr. unfold fetchPage. now rewrite Hr.
  - intros ids reqs' st'. apply import_all_counts.
Qed.

Lemma failed_fetch_is_counted_witness :
  fetchPage (missing_site 0 (mix_url (js "9"))) (mix_url (js "9"))
  = inr (js "Failed to fetch https://www.artofthemix.org/mix/9: 404")
  /\ import_mix (CM := basic_latin_case) missing_site 0 (js "9") (Progress ∅ 0 0)
     = Progress ∅ 0 1
  /\ import_all (CM := basic_latin_case) missing_site 0 [js "9"; js "10"] (Progress ∅ 0 0)
     = import_all (CM := basic_latin_case) missing_site 1 [js "10"] (Progress ∅ 0 1)
  /\ (forall r url, ok r = false ->
        fetchPage (Fulfilled r) url
        = inr (js "Failed to fetch " ++ url ++ js ": " ++ decimal (status r)))
  /\ (forall ids reqs' st',
        created (import_all (CM := basic_latin_case) missing_site reqs' ids st')
        + errors (import_all (CM := basic_latin_case) missing_site reqs' ids st')
        = created st' + errors st' + length ids).
Proof.
  split; [vm_compute; reflexivity|].
  apply (failed_fetch_is_counted basic_latin_case missing_site 0 (js "9")
           [js "10"] (Progress ∅ 0 0)
           (js "Failed to fetch https://www.artofthemix.org/mix/9: 404")).
  vm_compute. reflexivity.
Defined.

(** *** Slugs *)

(** C10.  The title "!!!" is not empty and holds no ASCII letter or
    digit; its slug is the empty string, the file of a record with that
    title is named ".json", and the record is written under that name. *)
Theorem empty_slug_file_name (CM : CaseMapping) (mixId date format notes : jsstring)
  (tracks : list Track) (sideA sideB : option (list Track)) (st : progress) :
  let d := MkMixData mixId (js "!!!") date format notes tracks sideA sideB in
  title d <> []
  /\ forallb (fun c => negb (is_ascii_alnum c)) (title d) = true
  /\ slugify (title d) = []
  /\ file_name d = js ".json"
  /\ createMixFile d (files st) !! js ".json" = Some (jsonData d)
  /\ (tracks <> [] ->
      persist d st
      = Progress (<[js ".json" := jsonData d]> (files st)) (S (created st)) (errors st)).
Proof.
  intros d.
  assert (Hs : slugify (title d) = []).
  { unfold slugify, d. cbn [title].
    rewrite toLowerCase_basic_latin by reflexivity. vm_compute. reflexivity. }
  assert (Hn : file_name d = js ".json").
  { unfold file_name. rewrite Hs. reflexivity. }
  split; [discriminate|]. split; [reflexivity|]. split; [exact Hs|].
  split; [exact Hn|]. split.
  - unfold createMixFile. rewrite Hn. apply lookup_insert_eq.
  - intros Hk. rewrite persist_valid; [|discriminate|exact Hk]. now rewrite Hn.
Qed.

(** C2 at the title of 79 letters, a blank and a letter: the slug is cut
    at 80 units after the hyphens were trimmed, and ends in a hyphen. *)
Theorem slugify_cut_leaves_hyphen (CM : CaseMapping) :
  slugify long_title = repeat (u "a") 79 ++ js "-"
  /\ last (slugify long_title) = Some (u "-").
Proof.
  assert (E : slugify long_title = repeat (u "a") 79 ++ js "-").
  { unfold slugify. rewrite toLowerCase_basic_latin by reflexivity.
    vm_compute. reflexivity. }
  split; [exact E|]. rewrite E. reflexivity.
Qed.

(** The slug of the specification. *)
Example slugify_example (CM : CaseMapping) :
  slugify (js "Midnight in a Perfect World!! ") = js "midnight-in-a-perfect-world".
Proof.
  unfold slugify. rewrite toLowerCase_basic_latin by reflexivity.
  vm_compute. reflexivity.
Qed.

(** *** What does hold of every slug *)

Lemma unmatched_is_alnum (t : jsstring) j k c :
  t !! k = Some c ->
  rmatch re_non_alnum Some (MState j (skipn k t) []) = None ->
  is_lower_alnum c = true.
Proof.
  intros Hc Hm. rewrite (drop_S _ _ _ Hc) in Hm.
  destruct (is_lower_alnum c) eqn:E; [reflexivity|].
  exfalso. revert Hm. apply plus_class_matches. now rewrite E.
Qed.

Lemma alnum_is_slug_unit c : is_lower_alnum c = true -> is_slug_unit c = true.
Proof. unfold is_slug_unit. now intros ->. Qed.

Lemma non_alnum_match_consumes x y :
  matches re_non_alnum x y ->
  exists w, rest x = w ++ rest y /\ 1 <= length w.
Proof.
  unfold re_non_alnum, plus. cbn [matches groups_of]. intros H.
  apply iter_class in H as (w & E & _ & _ & _ & L & _); [|discriminate].
  eauto.
Qed.

Lemma non_alnum_replaced fuel :
  forall i (t : jsstring),
    length t < fuel ->
    Forall (fun c => is_slug_unit c = true)
           (replace_loop fuel re_non_alnum (js "-") i t).
Proof.
  induction fuel as [|fuel IH]; intros i t Hlen; [lia|]. simpl.
  destruct (scan re_non_alnum i t) as [m|] eqn:E.
  - apply scan_found in E as (k & w & Hi & Hk & Hw & Hp & Hm & Hmin).
    apply non_alnum_match_consumes in Hm as (w' & Hw' & Lw'). simpl in Hw'.
    assert (w' = w) as -> by (rewrite Hw in Hw'; now apply app_inv_tail in Hw').
    rewrite Hi. replace (i + k - i) with k by lia.
    apply Forall_app. split.
    + apply Forall_lookup. intros k' c Hc.
      apply lookup_take_Some in Hc as [Hc Hk'].
      apply alnum_is_slug_unit.
      apply (unmatched_is_alnum t (i + k') k' c Hc). now apply Hmin.
    + constructor; [reflexivity|].
      assert (Hne : (pos (m_end m) =? i + k) = false)
        by (apply Nat.eqb_neq; lia).
      rewrite Hne. apply IH.
      assert (L : length (skipn k t) = length w + length (rest (m_end m)))
        by (rewrite Hw; apply length_app).
      rewrite length_skipn in L. lia.
  - apply Forall_lookup. intros k c Hc. apply alnum_is_slug_unit.
    apply (unmatched_is_alnum t (i + k) k c Hc).
    apply scan_nowhere; [exact E|].
    apply lookup_lt_Some in Hc. lia.
Qed.

(** Every slug is made of lowercase letters, digits and hyphens and is at
    most 80 units long, whatever the title and whatever [toLowerCase]
    makes of it. *)
Lemma slugify_units (CM : CaseMapping) (title : jsstring) :
  Forall (fun c => is_slug_unit c = true) (slugify title)
  /\ length (slugify title) <= 80.
Proof.
  unfold slugify, substring. split.
  - apply Forall_take, Forall_drop.
    apply replace_loop_Forall; [constructor|].
    apply non_alnum_replaced. lia.
  - rewrite length_firstn. lia.
Qed.

(** *** No hyphen in front *)

Lemma starts_with_take p k (t : jsstring) :
  0 < k -> forall rest_, starts_with p (firstn k t ++ rest_) = starts_with p t
                         \/ t = [].
Proof.
  intros Hk rest_. destruct t as [|c t]; [right; reflexivity|].
  left. destruct k; [lia | reflexivity].
Qed.

Lemma edge_hyphens_needs_hyphen i (t : jsstring) y :
  0 < i ->
  matches re_edge_hyphens (MState i t []) y ->
  starts_with (N.eqb (u "-")) t = true.
Proof.
  intros Hi [H|H]; apply matches_Seq in H as (z & H1 & H2).
  - destruct H1 as [H1 _]. simpl in H1. lia.
  - unfold plus, chr in H1. cbn [matches groups_of] in H1.
    apply iter_class in H1 as (w & E & _ & _ & Hw & L & _); [|discriminate].
    simpl in E. rewrite E. destruct w as [|c w]; [simpl in L; lia|].
    simpl in Hw. apply andb_prop in Hw as [Hc _]. exact Hc.
Qed.

(** Past the start of the text, nothing is removed in front of a unit
    that is no hyphen. *)
Lemma edge_hyphens_later fuel :
  forall i (t : jsstring),
    0 < i ->
    starts_with (N.eqb (u "-")) t = false ->
    starts_with (N.eqb (u "-")) (replace_loop fuel re_edge_hyphens [] i t) = false.
Proof.
  induction fuel as [|fuel IH]; intros i t Hi Ht; cbn [replace_loop]; [exact Ht|].
  destruct (scan re_edge_hyphens i t) as [m|] eqn:E; [|exact Ht].
  apply scan_found in E as (k & w & Hk & Hlen & Hw & Hp & Hm & Hmin).
  rewrite Hk. replace (i + k - i) with k by lia.
  destruct k as [|k].
  - rewrite Nat.add_0_r in Hm. change (skipn 0 t) with t in Hm.
    apply edge_hyphens_needs_hyphen in Hm; [congruence | exact Hi].
  - destruct t as [|c t]; [simpl in Hlen; lia|]. exact Ht.
Qed.

Lemma edge_hyphens_at_start c (s : jsstring) :
  rmatch re_edge_hyphens Some (MState 0 (c :: s) [])
  = if (u "-" =? c)%N then Some (run_end (N.eqb (u "-")) 1 s []) else None.
Proof.
  unfold re_edge_hyphens, chr.
  rewrite rmatch_Alt, !rmatch_Seq, rmatch_Bol. cbn [pos Nat.eqb].
  destruct (u "-" =? c)%N eqn:Ec.
  - rewrite plus_class_run, Ec. reflexivity.
  - rewrite !plus_class_fails by exact Ec. reflexivity.
Qed.

Lemma edge_hyphens_removed (s : jsstring) :
  starts_with (N.eqb (u "-")) (replace_all re_edge_hyphens [] s) = false.
Proof.
  unfold replace_all. cbn [replace_loop].
  destruct s as [|c s]; [reflexivity|].
  cbn [scan]. rewrite edge_hyphens_at_start.
  destruct (u "-" =? c)%N eqn:Ec.
  - cbn [m_index m_end Nat.sub firstn app].
    destruct (run_end_spec (N.eqb (u "-")) s 1 []) as [Hpos Hrest].
    replace (pos (run_end (N.eqb (u "-")) 1 s []) =? 0) with false
      by (symmetry; apply Nat.eqb_neq; lia).
    apply edge_hyphens_later; [lia | exact Hrest].
  - destruct (scan re_edge_hyphens 1 s) as [m|] eqn:Es; [|simpl; exact Ec].
    apply scan_found in Es as (k & w & Hk & _ & _ & _ & _ & _).
    rewrite Hk. replace (1 + k - 0) with (S k) by lia.
    cbn [firstn app starts_with]. exact Ec.
Qed.

(** No slug starts with a hyphen. *)
Lemma slugify_no_leading_hyphen (CM : CaseMapping) (title : jsstring) :
  starts_with is_hyphen (slugify title) = false.
Proof.
  unfold slugify, substring. cbn [skipn Nat.sub].
  set (z := replace_all re_edge_hyphens [] _).
  assert (H : starts_with (N.eqb (u "-")) z = false) by apply edge_hyphens_removed.
  destruct z as [|c z]; [reflexivity|]. simpl in *.
  unfold is_hyphen. rewrite N.eqb_sym. exact H.
Qed.

(** *** Track lists *)

Section TrackLists.

Context {CM : CaseMapping}.

Lemma table_rows_fold rows :
  forall acc t,
    In t (fold_left
            (fun tracks rowMatch =>
               let artist := trim (strip_tags (group 1 rowMatch)) in
               let song := trim (strip_tags (group 2 rowMatch)) in
               if str_eqb (toLowerCase artist) (js "artist")
                  || str_eqb (toLowerCase song) (js "song") then tracks
               else if str_eqb artist [] || str_eqb song [] then tracks
               else tracks ++ [MkTrack (toLowerCase song) (toLowerCase artist)])
            rows acc) ->
    In t acc
    \/ exists rowMatch,
         In rowMatch rows
         /\ t = MkTrack (toLowerCase (row_song rowMatch))
                        (toLowerCase (row_artist rowMatch))
         /\ row_artist rowMatch <> [] /\ row_song rowMatch <> []
         /\ toLowerCase (row_artist rowMatch) <> js "artist"
         /\ toLowerCase (row_song rowMatch) <> js "song".
Proof.
  induction rows as [|m rows IH]; intros acc t; simpl; [auto|].
  fold (row_artist m) (row_song m).
  intros H. apply IH in H as [H|(m' & Hin & Hm')];
    [|right; exists m'; split; [right; exact Hin | exact Hm']].
  destruct (str_eqb (toLowerCase (row_artist m)) (js "artist")) eqn:Ea;
    [auto|].
  destruct (str_eqb (toLowerCase (row_song m)) (js "song")) eqn:Es; [auto|].
  simpl in H.
  destruct (str_eqb (row_artist m) []) eqn:Na; [auto|].
  destruct (str_eqb (row_song m) []) eqn:Ns; [auto|].
  simpl in H. apply in_app_or in H as [H|[<-|[]]]; [auto|].
  right. exists m. apply str_eqb_neq in Ea, Es, Na, Ns.
  repeat split; auto.
Qed.

(** What the two-column strategy returns: both texts lower-cased and
    non-empty, and no row whose first cell is the label "artist" or whose
    second cell is the label "song", whatever the case of its letters. *)
Lemma table_rows_tracks html t :
  In t (table_rows html) ->
  track_title t <> [] /\ track_artist t <> []
  /\ exists rowMatch,
       In rowMatch (exec_all rowRegex html)
       /\ track_title t = toLowerCase (row_song rowMatch)
       /\ track_artist t = toLowerCase (row_artist rowMatch)
       /\ toLowerCase (row_artist rowMatch) <> js "artist"
       /\ toLowerCase (row_song rowMatch) <> js "song".
Proof.
  unfold table_rows. intros H.
  apply table_rows_fold in H as [[]|(m & Hin & -> & Na & Ns & Ha & Hs)].
  simpl. split; [|split].
  - intros E. apply toLowerCase_nil in E. contradiction.
  - intros E. apply toLowerCase_nil in E. contradiction.
  - exists m. auto.
Qed.

(** The list items are read only when the table rows give nothing. *)
Lemma extractTracksFromHtml_rows html :
  table_rows (normalize_html html) <> [] ->
  extractTracksFromHtml html = table_rows (normalize_html html).
Proof.
  unfold extractTracksFromHtml.
  destruct (table_rows (normalize_html html)); [contradiction | reflexivity].
Qed.

End TrackLists.

(** C6 at the list [<ul><li>a - " "</li></ul>]: the line-oriented
    strategy takes the blank between the quotes for the title, trims it,
    and returns a track whose title is empty. *)
Theorem blank_title_track (CM : CaseMapping) :
  table_rows (normalize_html blank_title_item) = []
  /\ extractTracksFromHtml blank_title_item = [MkTrack [] (js "a")].
Proof.
  split; [vm_compute; reflexivity|].
  assert (E : extractTracksFromHtml blank_title_item
              = [MkTrack (toLowerCase []) (toLowerCase (js "a"))])
    by (vm_compute; reflexivity).
  rewrite E, !toLowerCase_basic_latin by reflexivity. reflexivity.
Qed.

(** The table of the specification: the header row is skipped. *)
Example header_row_skipped :
  extractTracksFromHtml (CM := basic_latin_case)
    (js "<table><tr><td>Portishead</td><td>Glory Box</td></tr><tr><td>Artist</td><td>Song</td></tr></table>")
  = [MkTrack (js "glory box") (js "portishead")].
Proof. vm_compute. reflexivity. Qed.

(** The labels are looked for in their own columns: a row that has them
    the other way round is a track like any other. *)
Example swapped_header_kept :
  extractTracksFromHtml (CM := basic_latin_case) swapped_header_table
  = [MkTrack (js "artist") (js "song"); MkTrack (js "vitamin c") (js "can")].
Proof. vm_compute. reflexivity. Qed.

(** ** Properties of the normalizer *)

(** *** Objects *)

Lemma assoc_assign_eq key v fields : assoc key (assign key v fields) = Some v.
Proof.
  induction fields as [|[k w] more IH]; simpl.
  - assert (E : str_eqb key key = true) by now apply str_eqb_eq.
    now rewrite E.
  - destruct (str_eqb k key) eqn:E; simpl; rewrite E; [reflexivity | exact IH].
Qed.

Lemma assoc_assign_ne key k v fields :
  k <> key -> assoc k (assign key v fields) = assoc k fields.
Proof.
  intros Hk. induction fields as [|[k' w] more IH]; simpl.
  - assert (E : str_eqb key k = false) by (apply str_eqb_neq; congruence).
    now rewrite E.
  - destruct (str_eqb k' key) eqn:E; simpl.
    + apply str_eqb_eq in E. subst k'.
      assert (E' : str_eqb key k = false) by (apply str_eqb_neq; congruence).
      now rewrite E'.
    + destruct (str_eqb k' k); [reflexivity | exact IH].
Qed.

Lemma keys_assign key v w fields :
  assoc key fields = Some w ->
  List.map fst (assign key v fields) = List.map fst fields.
Proof.
  induction fields as [|[k' w'] more IH]; simpl; [discriminate|].
  destruct (str_eqb k' key); simpl; [reflexivity|].
  intros H. now rewrite (IH H).
Qed.

Lemma assign_same key v fields :
  assoc key fields = Some v -> assign key v fields = fields.
Proof.
  induction fields as [|[k' w'] more IH]; simpl; [discriminate|].
  destruct (str_eqb k' key); simpl.
  - now intros [= ->].
  - intros H. now rewrite (IH H).
Qed.

(** *** One guarded assignment *)

Lemma clean_field_value key f data data' :
  clean_field key f data = Some data' ->
  field_cleaned f (json_get key data) (json_get key data').
Proof.
  unfold clean_field, field_cleaned.
  destruct data as [|b|m e| |neg|s|items|fields]; try discriminate;
    try (intros [= <-]; reflexivity).
  simpl. destruct (assoc key fields) as [v|] eqn:E.
  - destruct (truthy v).
    + destruct (f v) as [v'|]; [|discriminate]. simpl. intros [= <-].
      exists v'. split; [reflexivity|]. simpl. apply assoc_assign_eq.
    + intros [= <-]. simpl. exact E.
  - intros [= <-]. simpl. exact E.
Qed.

Lemma clean_field_frame key f data data' :
  clean_field key f data = Some data' ->
  keys_of data' = keys_of data
  /\ (keys_of data = None -> data' = data)
  /\ (forall k, k <> key -> json_get k data' = json_get k data).
Proof.
  unfold clean_field.
  destruct data as [|b|m e| |neg|s|items|fields]; try discriminate;
    try (intros [= <-]; auto).
  destruct (assoc key fields) as [v|] eqn:E; [|intros [= <-]; auto].
  destruct (truthy v); [|intros [= <-]; auto].
  destruct (f v) as [v'|]; [|discriminate]. simpl. intros [= <-]. simpl.
  split; [now rewrite (keys_assign _ _ _ _ E)|].
  split; [discriminate|].
  intros k Hk. now apply assoc_assign_ne.
Qed.

(** *** Track entries *)

Lemma map_tracks_entries items :
  forall items', map_tracks items = Some items' ->
    Forall2 (fun entry entry' =>
               exists t a, text_of entry k_title = Some t
                           /\ text_of entry k_artist = Some a
                           /\ entry' = cleaned_entry t a) items items'.
Proof.
  induction items as [|entry more IH]; simpl; intros items'.
  - intros [= <-]. constructor.
  - unfold clean_track. fold k_title k_artist.
    destruct (text_of entry k_title) as [t|] eqn:Et; [|discriminate].
    destruct (text_of entry k_artist) as [a|] eqn:Ea; [|discriminate].
    destruct (map_tracks more) as [ts|]; [|discriminate].
    intros [= <-]. constructor; [|apply IH; reflexivity].
    exists t, a. auto.
Qed.

Lemma cleanTracks_entries v v' :
  cleanTracks v = Some v' ->
  exists items items',
    v = JArr items /\ v' = JArr items'
    /\ Forall2 (fun entry entry' =>
                  exists t a, text_of entry k_title = Some t
                              /\ text_of entry k_artist = Some a
                              /\ entry' = cleaned_entry t a) items items'.
Proof.
  destruct v as [|b|m e| |neg|s|items|fields]; try discriminate. simpl.
  destruct (map_tracks items) as [items'|] eqn:E; [|discriminate].
  intros [= <-]. exists items, items'. repeat split.
  now apply map_tracks_entries.
Qed.

(** *** The whole pass *)

Lemma reformat_steps data data' :
  reformat data = Some data' ->
  exists d1 d2 d3,
    clean_field k_tracks cleanTracks data = Some d1
    /\ clean_field k_sideA cleanTracks d1 = Some d2
    /\ clean_field k_sideB cleanTracks d2 = Some d3
    /\ clean_field k_title clean_title d3 = Some data'.
Proof.
  unfold reformat, bind_json. fold k_tracks k_sideA k_sideB k_title.
  destruct (clean_field k_tracks cleanTracks data) as [d1|] eqn:E1; [|discriminate].
  destruct (clean_field k_sideA cleanTracks d1) as [d2|] eqn:E2; [|discriminate].
  destruct (clean_field k_sideB cleanTracks d2) as [d3|] eqn:E3; [|discriminate].
  intros H. exists d1, d2, d3. repeat split; auto.
Qed.

Lemma reformat_fields data data' :
  reformat data = Some data' ->
  keys_of data' = keys_of data
  /\ (keys_of data = None -> data' = data)
  /\ (forall k, k <> k_tracks -> k <> k_sideA -> k <> k_sideB -> k <> k_title ->
        json_get k data' = json_get k data)
  /\ field_cleaned cleanTracks (json_get k_tracks data) (json_get k_tracks data')
  /\ field_cleaned cleanTracks (json_get k_sideA data) (json_get k_sideA data')
  /\ field_cleaned cleanTracks (json_get k_sideB data) (json_get k_sideB data')
  /\ field_cleaned clean_title (json_get k_title data) (json_get k_title data').
Proof.
  intros H. apply reformat_steps in H as (d1 & d2 & d3 & H1 & H2 & H3 & H4).
  pose proof (clean_field_value _ _ _ _ H1) as V1.
  pose proof (clean_field_value _ _ _ _ H2) as V2.
  pose proof (clean_field_value _ _ _ _ H3) as V3.
  pose proof (clean_field_value _ _ _ _ H4) as V4.
  apply clean_field_frame in H1 as (K1 & N1 & F1).
  apply clean_field_frame in H2 as (K2 & N2 & F2).
  apply clean_field_frame in H3 as (K3 & N3 & F3).
  apply clean_field_frame in H4 as (K4 & N4 & F4).
  split; [congruence|]. split.
  { intros Hn. rewrite N4, N3, N2, N1; congruence. }
  split.
  { intros k Ht Ha Hb Hti. rewrite F4, F3, F2, F1; auto. }
  split; [rewrite F4, F3, F2 by discriminate; exact V1|].
  split; [rewrite F4, F3 by discriminate; rewrite <- (F1 k_sideA) by discriminate;
          exact V2|].
  split; [rewrite F4 by discriminate;
          rewrite <- (F1 k_sideB), <- (F2 k_sideB) by discriminate; exact V3|].
  rewrite <- (F1 k_title), <- (F2 k_title), <- (F3 k_title) by discriminate.
  exact V4.
Qed.

(** *** What is written *)

Lemma assoc_written key fields :
  assoc key (List.map (fun kv => (fst kv, written (snd kv))) fields)
  = written <$> assoc key fields.
Proof.
  induction fields as [|[k v] more IH]; [reflexivity|]. simpl.
  destruct (str_eqb k key); [reflexivity | exact IH].
Qed.

Lemma json_get_written k v : json_get k (written v) = written <$> json_get k v.
Proof.
  destruct v as [|b|m e| |neg|s|items|fields]; try reflexivity.
  apply assoc_written.
Qed.

Lemma keys_of_written v : keys_of (written v) = keys_of v.
Proof.
  destruct v as [|b|m e| |neg|s|items|fields]; try reflexivity.
  simpl. f_equal. rewrite List.map_map. reflexivity.
Qed.

Lemma truthy_written v : truthy v = false -> truthy (written v) = false.
Proof. destruct v as [|b|m e| |neg|s|items|fields]; simpl; auto. Qed.

(** A value without Infinity and without -0 is written as it was read. *)
Lemma written_plain : forall v, plain v = true -> written v = v.
Proof.
  fix IH 1. intros [|b|m e| |neg|s|items|fields]; simpl; try reflexivity;
    try discriminate; intros H; f_equal.
  - induction items as [|v items IHi]; [reflexivity|].
    simpl in H |- *. apply andb_prop in H as [Hv Hi].
    rewrite (IH v Hv), (IHi Hi). reflexivity.
  - induction fields as [|[k v] fields IHf]; [reflexivity|].
    simpl in H |- *. apply andb_prop in H as [Hv Hf].
    rewrite (IH v Hv), (IHf Hf). reflexivity.
Qed.

Lemma written_twice : forall v, written (written v) = written v.
Proof.
  fix IH 1. intros [|b|m e| |neg|s|items|fields]; simpl; try reflexivity; f_equal.
  - induction items as [|v items IHi]; [reflexivity|].
    simpl. rewrite (IH v), IHi. reflexivity.
  - induction fields as [|[k v] fields IHf]; [reflexivity|].
    simpl. rewrite (IH v), IHf. reflexivity.
Qed.

Lemma written_cleaned_entries items items' :
  Forall2 entry_cleaned items items' -> List.map written items' = items'.
Proof.
  induction 1 as [|entry entry' items items' (t & a & _ & _ & ->) _ IH];
    [reflexivity|].
  simpl. now rewrite IH.
Qed.

(** C9, as the code has it.  Take what [JSON.parse] reads from a file
    before the pass and from the file the pass has rewritten.  The keys
    and their order are the same.  A [title] that is a non-empty string
    is cleaned.  A [tracks], [sideA] or [sideB] that is an array has
    each entry replaced by an object that holds the cleaned title and
    the cleaned artist of the entry and nothing else: whatever else an
    entry held is dropped.  Every other field, and each of the four
    when it is falsy, has the value that [JSON.stringify] writes for
    the one it had: the same value when it holds no Infinity and no -0,
    and otherwise that value with [null] for each Infinity and 0 for
    each -0.  A value that is not an object is written in that same
    way. *)
Theorem reformat_frame (data after : json) :
  rewritten data = Some after ->
  keys_of after = keys_of data
  /\ (keys_of data = None -> after = written data)
  /\ (forall k, k <> k_tracks -> k <> k_sideA -> k <> k_sideB -> k <> k_title ->
        json_get k after = written <$> json_get k data)
  /\ (forall v, plain v = true -> written v = v)
  /\ (forall k v, k = k_tracks \/ k = k_sideA \/ k = k_sideB ->
        json_get k data = Some v ->
        if truthy v
        then exists items items',
               v = JArr items /\ json_get k after = Some (JArr items')
               /\ Forall2 entry_cleaned items items'
        else json_get k after = Some (written v))
  /\ (forall v, json_get k_title data = Some v ->
        if truthy v
        then exists s, v = JStr s /\ json_get k_title after = Some (JStr (clean_text s))
        else json_get k_title after = Some (written v)).
Proof.
  unfold rewritten. destruct (reformat data) as [data'|] eqn:H; [|discriminate].
  intros [= <-].
  apply reformat_fields in H as (K & N & F & Vt & Va & Vb & Vti).
  split; [now rewrite keys_of_written|].
  split; [intros Hn; now rewrite (N Hn)|].
  split; [intros k H1 H2 H3 H4; now rewrite json_get_written, F|].
  split; [exact written_plain|]. split.
  - intros k v Hk Hv. rewrite json_get_written.
    assert (Hc : field_cleaned cleanTracks (json_get k data) (json_get k data'))
      by (destruct Hk as [->|[->| ->]]; assumption).
    rewrite Hv in Hc. simpl in Hc.
    destruct (truthy v); [|now rewrite Hc].
    destruct Hc as (v' & E & ->).
    apply cleanTracks_entries in E as (items & items' & -> & -> & HF).
    exists items, items'. split; [reflexivity|]. split; [|exact HF].
    simpl. now rewrite (written_cleaned_entries _ _ HF).
  - intros v Hv. rewrite json_get_written. rewrite Hv in Vti. simpl in Vti.
    destruct (truthy v); [|now rewrite Vti].
    destruct Vti as (v' & E & ->).
    destruct v as [|b|m e| |neg|s|items|fields]; try discriminate.
    injection E as <-. exists s. auto.
Qed.

Lemma reformat_frame_witness :
  rewritten album_record = Some album_record_cleaned
  /\ keys_of album_record_cleaned = keys_of album_record
  /\ (keys_of album_record = None -> album_record_cleaned = written album_record)
  /\ (forall k, k <> k_tracks -> k <> k_sideA -> k <> k_sideB -> k <> k_title ->
        json_get k album_record_cleaned = written <$> json_get k album_record)
  /\ (forall v, plain v = true -> written v = v)
  /\ (forall k v, k = k_tracks \/ k = k_sideA \/ k = k_sideB ->
        json_get k album_record = Some v ->
        if truthy v
        then exists items items',
               v = JArr items /\ json_get k album_record_cleaned = Some (JArr items')
               /\ Forall2 entry_cleaned items items'
        else json_get k album_record_cleaned = Some (written v))
  /\ (forall v, json_get k_title album_record = Some v ->
        if truthy v
        then exists s, v = JStr s
                       /\ json_get k_title album_record_cleaned = Some (JStr (clean_text s))
        else json_get k_title album_record_cleaned = Some (written v)).
Proof.
  split; [vm_compute; reflexivity|].
  apply (reformat_frame album_record album_record_cleaned).
  vm_compute. reflexivity.
Defined.

(** A number beyond the range of a double comes back as [null] and -0
    as 0, also inside an array; the title is cleaned beside them. *)
Example ledger_record_rewritten :
  rewritten ledger_record
  = Some (JObj [(k_title, JStr (js "ledger")); (js "plays", JNull);
                (js "gain", JArr [JNum 0 0; JNum 3 0])]).
Proof. vm_compute. reflexivity. Qed.

(** C9 as stated fails: the album of a track entry is a field of the
    file that the normalizer does not keep. *)
Lemma album_of_track_is_dropped :
  exists entry entry',
    json_get k_tracks album_record = Some (JArr [entry])
    /\ json_get (js "album") entry = Some (JStr (js "ege bamyasi"))
    /\ option_map (json_get k_tracks) (reformat album_record)
       = Some (Some (JArr [entry']))
    /\ json_get (js "album") entry' = None.
Proof.
  do 2 eexists. split; [reflexivity|]. split; [reflexivity|].
  split; [vm_compute; reflexivity|]. reflexivity.
Qed.

(** *** Trimming and the token *)

Lemma trimStart_clean s : starts_clean s = true -> trimStart s = s.
Proof.
  destruct s as [|c t]; simpl; [reflexivity|].
  intros H. apply negb_true_iff in H. now rewrite H.
Qed.

Lemma trimStart_starts_clean s : starts_clean (trimStart s) = true.
Proof.
  induction s as [|c t IH]; simpl; [reflexivity|].
  destruct (is_space c) eqn:E; [exact IH|]. simpl. now rewrite E.
Qed.

Lemma trimStart_snoc l c :
  is_space c = false -> trimStart (l ++ [c]) = trimStart l ++ [c].
Proof.
  intros Hc. induction l as [|a l IH]; simpl.
  - now rewrite Hc.
  - destruct (is_space a); [exact IH | reflexivity].
Qed.

Lemma trimEnd_starts_clean s :
  starts_clean s = true -> starts_clean (trimEnd s) = true.
Proof.
  destruct s as [|c t]; [reflexivity|]. simpl. intros H.
  apply negb_true_iff in H. unfold trimEnd. simpl.
  rewrite (trimStart_snoc _ _ H), rev_app_distr. simpl. now rewrite H.
Qed.

Lemma trimEnd_idem s : trimEnd (trimEnd s) = trimEnd s.
Proof.
  unfold trimEnd. rewrite rev_involutive.
  now rewrite (trimStart_clean _ (trimStart_starts_clean _)).
Qed.

Lemma trim_idem s : trim (trim s) = trim s.
Proof.
  unfold trim at 1.
  rewrite (trimStart_clean (trim s)).
  - unfold trim. apply trimEnd_idem.
  - unfold trim. apply trimEnd_starts_clean, trimStart_starts_clean.
Qed.

Lemma replace_all_no_match r rep s : test r s = false -> replace_all r rep s = s.
Proof.
  unfold test, replace_all. simpl.
  destruct (scan r 0 s); [discriminate | reflexivity].
Qed.

(** A text without the token is cleaned by trimming alone, and cleaning
    a cleaned text that shows no token changes nothing. *)
Lemma clean_text_fixed s :
  test re_nbsp (clean_text s) = false -> clean_text (clean_text s) = clean_text s.
Proof.
  intros H. unfold clean_text at 1.
  rewrite (replace_all_no_match _ _ _ H). unfold clean_text. apply trim_idem.
Qed.

(** *** Running the pass again *)

Lemma clean_field_nonnull key f d d' :
  clean_field key f d = Some d' -> d' <> JNull.
Proof.
  unfold clean_field.
  destruct d as [|b|m e| |neg|s|items|fields]; try discriminate;
    try (intros [= <-]; discriminate).
  destruct (assoc key fields) as [v|]; [|intros [= <-]; discriminate].
  destruct (truthy v); [|intros [= <-]; discriminate].
  destruct (f v); [|discriminate]. simpl. intros [= <-]. discriminate.
Qed.

Lemma clean_field_fixed key f d :
  d <> JNull ->
  (forall v, json_get key d = Some v -> truthy v = true -> f v = Some v) ->
  clean_field key f d = Some d.
Proof.
  intros Hn Hf. unfold clean_field.
  destruct d as [|b|m e| |neg|s|items|fields]; try reflexivity; [contradiction|].
  simpl in Hf. destruct (assoc key fields) as [v|] eqn:E; [|reflexivity].
  destruct (truthy v) eqn:T; [|reflexivity].
  rewrite (Hf v eq_refl T). simpl. now rewrite (assign_same _ _ _ E).
Qed.

Lemma cleaned_entry_fixed t a :
  entry_token_free (cleaned_entry t a) = true ->
  clean_track (cleaned_entry t a) = Some (cleaned_entry t a).
Proof.
  unfold entry_token_free. intros H. apply andb_prop in H as [Ht Ha].
  change (negb (test re_nbsp (clean_text t)) = true) in Ht.
  change (negb (test re_nbsp (clean_text a)) = true) in Ha.
  apply negb_true_iff in Ht, Ha.
  change (clean_track (cleaned_entry t a))
    with (Some (cleaned_entry (clean_text t) (clean_text a))).
  unfold cleaned_entry.
  now rewrite (clean_text_fixed _ Ht), (clean_text_fixed _ Ha).
Qed.

Lemma cleaned_tracks_fixed items items' :
  Forall2 entry_cleaned items items' ->
  forallb entry_token_free items' = true ->
  map_tracks items' = Some items'.
Proof.
  induction 1 as [|entry entry' items items' (t & a & _ & _ & ->) _ IH];
    cbn [map_tracks forallb]; [reflexivity|].
  intros H. apply andb_prop in H as [He Hs].
  now rewrite (cleaned_entry_fixed _ _ He), (IH Hs).
Qed.

Lemma tracks_field_fixed before after :
  field_cleaned cleanTracks before after ->
  tracks_token_free after = true ->
  forall v, after = Some v -> truthy v = true -> cleanTracks v = Some v.
Proof.
  unfold field_cleaned. intros Hc Hfree v -> Tv.
  destruct before as [v0|]; [|discriminate].
  destruct (truthy v0) eqn:T0.
  - destruct Hc as (v' & E & [= <-]).
    apply cleanTracks_entries in E as (items & items' & -> & -> & HF).
    simpl in Hfree. simpl. now rewrite (cleaned_tracks_fixed _ _ HF Hfree).
  - injection Hc as <-. congruence.
Qed.

Lemma title_field_fixed before after :
  field_cleaned clean_title before after ->
  text_token_free after = true ->
  forall v, after = Some v -> truthy v = true -> clean_title v = Some v.
Proof.
  unfold field_cleaned. intros Hc Hfree v -> Tv.
  destruct before as [v0|]; [|discriminate].
  destruct (truthy v0) eqn:T0.
  - destruct Hc as (v' & E & [= <-]).
    destruct v0 as [|b|m e| |neg|s|items|fields]; try discriminate.
    injection E as <-. simpl in Hfree. apply negb_true_iff in Hfree.
    simpl. now rewrite (clean_text_fixed _ Hfree).
  - injection Hc as <-. congruence.
Qed.

(** In a record that a pass has written and that shows no token, none
    of the four guarded assignments changes anything. *)
Lemma clean_fields_settled (data data1 : json) :
  reformat data = Some data1 ->
  token_free data1 = true ->
  clean_field k_tracks cleanTracks data1 = Some data1
  /\ clean_field k_sideA cleanTracks data1 = Some data1
  /\ clean_field k_sideB cleanTracks data1 = Some data1
  /\ clean_field k_title clean_title data1 = Some data1.
Proof.
  intros H Hfree.
  pose proof (reformat_steps _ _ H) as (d1 & d2 & d3 & _ & _ & _ & H4).
  apply clean_field_nonnull in H4.
  apply reformat_fields in H as (_ & _ & _ & Vt & Va & Vb & Vti).
  unfold token_free in Hfree.
  apply andb_prop in Hfree as [Hfree Fti].
  apply andb_prop in Hfree as [Hfree Fb].
  apply andb_prop in Hfree as [Ft Fa].
  repeat split; apply clean_field_fixed; try exact H4; intros v.
  - apply (tracks_field_fixed _ _ Vt Ft).
  - apply (tracks_field_fixed _ _ Va Fa).
  - apply (tracks_field_fixed _ _ Vb Fb).
  - apply (title_field_fixed _ _ Vti Fti).
Qed.




(** *** The directory *)

(** The pass over the directory rewrites each [*.json] file by
    [reformat] and touches no other file. *)
Lemma reformat_all_lookup (files : gmap jsstring json) (name : jsstring) :
  reformat_all files !! name = reformat_file name <$> files !! name.
Proof.
  unfold reformat_all. rewrite map_lookup_imap.
  destruct (files !! name); reflexivity.
Qed.

(** ** More on the importer *)

(** *** Slugs *)

(** A greedy run that must reach the end of the text does so when the
    text is all of the class. *)
Lemma greedy_class_to_end p fuel :
  forall i t cs,
    length t <= fuel ->
    forallb p t = true ->
    rep_loop (rmatch (Chr p)) [] true (fun y => rmatch Eol Some y) fuel 0 None
      (MState i t cs)
    <> None.
Proof.
  induction fuel as [|fuel IH]; intros i t cs Hlen Hp.
  - destruct t; [discriminate | simpl in Hlen; lia].
  - cbn [rep_loop Nat.eqb negb]. rewrite clear_caps_nil. cbn [rmatch rest pos caps].
    destruct t as [|c t]; [discriminate|].
    cbn [forallb] in Hp. apply andb_prop in Hp as [Hc Ht]. rewrite Hc.
    cbn [andb]. replace (S i =? i) with false by (symmetry; apply Nat.eqb_neq; lia).
    cbn [Nat.pred pred_max].
    destruct (rep_loop _ _ _ _ fuel 0 None (MState (S i) t cs)) eqn:E.
    + discriminate.
    + exfalso. revert E. apply IH; [simpl in Hlen; lia | exact Ht].
Qed.

Lemma edge_hyphens_at_run i c (t : jsstring) :
  forallb (N.eqb (u "-")) (c :: t) = true ->
  rmatch re_edge_hyphens Some (MState i (c :: t) []) <> None.
Proof.
  intros H. unfold re_edge_hyphens, chr.
  rewrite rmatch_Alt, (rmatch_Seq (plus _) Eol).
  assert (E : rmatch (plus (Chr (N.eqb (u "-")))) (fun y => rmatch Eol Some y)
                (MState i (c :: t) []) <> None).
  { unfold plus.
    change (rmatch (Rep 1 None true (Chr (N.eqb (u "-")))) (fun y => rmatch Eol Some y)
              (MState i (c :: t) []))
      with (rep_loop (rmatch (Chr (N.eqb (u "-")))) [] true
              (fun y => rmatch Eol Some y) (S (S (length t))) 1 None
              (MState i (c :: t) [])).
    rewrite rep_loop_required, clear_caps_nil. cbn [rmatch rest pos caps].
    cbn [forallb] in H. apply andb_prop in H as [Hc Ht]. rewrite Hc.
    apply greedy_class_to_end; [lia | exact Ht]. }
  destruct (rmatch (Seq Bol _) Some _); [discriminate|]. exact E.
Qed.

(** What the pattern of the edge hyphens matches: hyphens, at the start
    of the text or up to its end. *)
Lemma edge_hyphens_match x y :
  matches re_edge_hyphens x y ->
  exists w, rest x = w ++ rest y /\ 1 <= length w
            /\ forallb (N.eqb (u "-")) w = true
            /\ (pos x = 0 \/ rest y = []).
Proof.
  intros [H|H]; apply matches_Seq in H as (z & H1 & H2).
  - destruct H1 as [P ->].
    unfold plus, chr in H2. cbn [matches groups_of] in H2.
    apply iter_class in H2 as (w & E & _ & _ & Hw & L & _); [|discriminate].
    exists w. auto.
  - destruct H2 as [R ->].
    unfold plus, chr in H1. cbn [matches groups_of] in H1.
    apply iter_class in H1 as (w & E & _ & _ & Hw & L & _); [|discriminate].
    exists w. auto.
Qed.

Lemma edge_hyphens_trailing fuel :
  forall i (t : jsstring),
    length t < fuel ->
    last (replace_loop fuel re_edge_hyphens [] i t) <> Some (u "-").
Proof.
  induction fuel as [|fuel IH]; intros i t Hlen; [lia|]. cbn [replace_loop].
  destruct (scan re_edge_hyphens i t) as [m|] eqn:E.
  - apply scan_found in E as (k & w & Hi & Hk & Hw & Hp & Hm & Hmin).
    apply edge_hyphens_match in Hm as (w' & Hw' & L & Hyp & Hedge).
    simpl in Hw', Hedge.
    assert (w' = w) as -> by (rewrite Hw in Hw'; now apply app_inv_tail in Hw').
    rewrite Hi. replace (i + k - i) with k by lia.
    replace (pos (m_end m) =? i + k) with false
      by (symmetry; apply Nat.eqb_neq; lia).
    cbn [app].
    assert (Lr : length (rest (m_end m)) < fuel).
    { assert (L' : length (skipn k t) = length w + length (rest (m_end m)))
        by (rewrite Hw; apply length_app).
      rewrite length_skipn in L'. lia. }
    specialize (IH (pos (m_end m)) (rest (m_end m)) Lr).
    rewrite last_app.
    destruct (last (replace_loop fuel re_edge_hyphens [] (pos (m_end m))
                      (rest (m_end m)))) as [c|] eqn:El; [exact IH|].
    intros Hlast. apply last_Some in Hlast as (t0 & Et0).
    destruct Hedge as [P0 | Rend].
    + assert (k = 0) by lia. subst k. simpl in Et0. destruct t0; discriminate.
    + assert (Lt0 : length (firstn k t) = k) by (rewrite length_firstn; lia).
      rewrite Et0, length_app in Lt0. simpl in Lt0.
      assert (Hd : skipn (length t0) t = u "-" :: w).
      { rewrite <- (firstn_skipn k t) at 1. rewrite Et0, Hw, Rend, app_nil_r.
        rewrite <- app_assoc. now rewrite drop_app_length. }
      assert (Hno := Hmin (length t0) ltac:(lia)).
      rewrite Hd in Hno. revert Hno. apply edge_hyphens_at_run.
      cbn [forallb]. now rewrite N.eqb_refl, Hyp.
  - intros Hlast. apply last_Some in Hlast as (t0 & ->).
    pose proof (scan_nowhere _ _ _ E (length t0)) as Hno.
    rewrite drop_app_length in Hno.
    rewrite length_app in Hno. cbn [length] in Hno.
    specialize (Hno ltac:(lia)). revert Hno. apply edge_hyphens_at_run.
    reflexivity.
Qed.

(** X1.  Whatever the title, its slug is made of lowercase letters,
    digits and hyphens only, is at most 80 units long and does not start
    with a hyphen; and a slug shorter than 80 units, which is one that
    was not cut, does not end with a hyphen either. *)
Theorem slug_is_safe (CM : CaseMapping) (title : jsstring) :
  Forall (fun c => is_slug_unit c = true) (slugify title)
  /\ length (slugify title) <= 80
  /\ starts_with is_hyphen (slugify title) = false
  /\ (length (slugify title) < 80 -> last (slugify title) <> Some (u "-")).
Proof.
  destruct (slugify_units CM title) as [Hu Hl].
  split; [exact Hu|]. split; [exact Hl|].
  split; [apply slugify_no_leading_hyphen|].
  unfold slugify, substring. cbn [skipn Nat.sub].
  set (z := replace_all re_edge_hyphens [] _).
  rewrite length_firstn. intros Hshort.
  rewrite firstn_all2 by lia.
  unfold z, replace_all. apply edge_hyphens_trailing. lia.
Qed.

(** *** Identifiers *)

Lemma matches_plus_class p x y :
  matches (plus (Chr p)) x y ->
  exists w, rest x = w ++ rest y /\ 1 <= length w /\ forallb p w = true.
Proof.
  unfold plus. cbn [matches groups_of]. intros H.
  apply iter_class in H as (w & E & _ & _ & Hw & L & _); [|discriminate].
  eauto.
Qed.

Lemma mix_id_match x y :
  caps x = [] ->
  matches re_mix_id x y ->
  exists w, rest x = js "/mix/" ++ w ++ rest y
            /\ 1 <= length w /\ forallb is_digit w = true
            /\ caps y = [(1, w)].
Proof.
  intros Cx H. unfold re_mix_id in H.
  apply matches_Seq in H as (z & H1 & H2).
  apply matches_lit in H1 as (E1 & _ & C1).
  apply matches_Grp in H2 as (z' & w & H2 & Ew & Cy & Ry & _).
  pose proof (matches_keeps_caps (plus digit) eq_refl _ _ H2) as C2.
  apply matches_plus_class in H2 as (w' & Ew' & L & D).
  assert (w' = w) as -> by (rewrite Ew in Ew'; now apply app_inv_tail in Ew').
  exists w. rewrite E1, Ew, Cy, C2, C1, Cx, Ry. auto.
Qed.

(** X2.  Every identifier that [extractMixIds] returns is a non-empty
    run of ASCII digits that stands right after [/mix/] somewhere in the
    page. *)
Theorem extractMixIds_numerals (html mixId : jsstring) :
  In mixId (extractMixIds html) ->
  mixId <> []
  /\ forallb is_digit mixId = true
  /\ exists before after, html = before ++ js "/mix/" ++ mixId ++ after.
Proof.
  intros H. rewrite extractMixIds_first_seen in H.
  apply (proj1 (first_seen_In _ _)) in H. unfold listed_ids in H.
  apply in_map_iff in H as (m & <- & Hm).
  apply exec_all_found in Hm as (w & Hs & _ & _ & Hm).
  apply mix_id_match in Hm as (d & E & L & D & C); [|reflexivity].
  simpl in E. destruct m as [idx e]. simpl in *.
  rewrite (group_of_caps 1 d [] idx e C).
  split; [destruct d; [simpl in L; lia | discriminate]|].
  split; [exact D|].
  exists (firstn idx html), (rest e).
  rewrite <- (firstn_skipn idx html) at 1. now rewrite E.
Qed.

Lemma extractMixIds_numerals_witness :
  In (js "12") (extractMixIds listing_page)
  /\ js "12" <> []
  /\ forallb is_digit (js "12") = true
  /\ exists before after, listing_page = before ++ js "/mix/" ++ js "12" ++ after.
Proof.
  assert (H : In (js "12") (extractMixIds listing_page))
    by (vm_compute; right; left; reflexivity).
  split; [exact H|].
  exact (extractMixIds_numerals listing_page (js "12") H).
Defined.

(** *** The fields of a record *)

Section RecordFields.

Context {CM : CaseMapping}.

Lemma lit_i_lower s x y :
  forallb is_basic_latin (js s) = true ->
  matches (lit_i s) x y ->
  exists w, rest x = w ++ rest y
            /\ toLowerCase w = List.map lower_unit (js s).
Proof.
  intros Hs H. apply matches_lit_i in H as (w & E & _ & _ & F).
  destruct (same_letters_lower _ _ F Hs) as [El Hb].
  exists w. split; [exact E|]. now rewrite toLowerCase_basic_latin.
Qed.

(** The label the format pattern finds is one of the three, in some
    case of its letters. *)
Lemma extract_format_spec html :
  extract_format html = js "cd"
  \/ extract_format html = js "cassette"
  \/ extract_format html = js "playlist".
Proof.
  unfold extract_format.
  destruct (rx_match re_format html) as [m|] eqn:E; [|auto].
  apply rx_match_matches in E. unfold re_format in E. cbn [seqs] in E.
  do 2 (apply matches_Seq in E as (? & _ & E)).
  apply matches_Grp in E as (z & w & H & Ew & C & _).
  destruct m as [idx e]. simpl in C. rewrite (group_of_caps 1 w _ idx e C).
  destruct H as [H|[H|H]];
    apply lit_i_lower in H as (w' & Ew' & Hl); try reflexivity;
    (assert (w' = w) as -> by (rewrite Ew in Ew'; now apply app_inv_tail in Ew'));
    rewrite Hl; auto.
Qed.

End RecordFields.

(** X3.  Whatever the page, [extractMixData] returns a record (it does
    not throw) that carries the given id and whose format is "cd",
    "cassette" or "playlist". *)
Theorem extracted_format (CM : CaseMapping) (html ident : jsstring) :
  exists d,
    extractMixData html ident = Some d
    /\ mixId d = ident
    /\ (format d = js "cd" \/ format d = js "cassette" \/ format d = js "playlist").
Proof.
  destruct (extract_date_spec html) as (dt & Edt & _).
  unfold extractMixData. rewrite Edt.
  destruct (_ && _); eexists; (split; [reflexivity|]); (split; [reflexivity|]);
    cbn [format]; [auto | apply extract_format_spec].
Qed.

(** X4.  The sides of a record come in pairs.  On a page that shows both
    a "Side A" and a "Side B" marker the record has both sides, its
    tracks are the two sides in a row, and both sides are written to the
    file.  On any other page, were it labeled a cassette, the record has
    neither side, its tracks are those of the whole page, its format is
    the labeled one, and the file has no [sideA] and no [sideB]. *)
Theorem extracted_sides (CM : CaseMapping) (html ident : jsstring) :
  exists d,
    extractMixData html ident = Some d
    /\ if test re_sideA html && test re_sideB html
       then exists a b,
              sideA d = Some a /\ sideB d = Some b /\ tracks d = a ++ b
              /\ format d = js "cassette"
              /\ json_get k_sideA (jsonData d) = Some (json_of_tracks a)
              /\ json_get k_sideB (jsonData d) = Some (json_of_tracks b)
       else sideA d = None /\ sideB d = None
            /\ tracks d = extractTracksFromHtml (normalize_html html)
            /\ format d = extract_format html
            /\ json_get k_sideA (jsonData d) = None
            /\ json_get k_sideB (jsonData d) = None.
Proof.
  destruct (extract_date_spec html) as (dt & Edt & _).
  unfold extractMixData. rewrite Edt.
  destruct (test re_sideA html) eqn:HA, (test re_sideB html) eqn:HB;
    rewrite ?orb_true_r, ?orb_false_r, ?andb_false_r; cbn [andb];
    eexists; (split; [reflexivity|]).
  - do 2 eexists. repeat split; reflexivity.
  - repeat split; reflexivity.
  - repeat split; reflexivity.
  - repeat split; reflexivity.
Qed.

(** *** Tracks *)

Lemma trim_starts_clean s : starts_clean (trim s) = true.
Proof. unfold trim. apply trimEnd_starts_clean, trimStart_starts_clean. Qed.

Lemma trim_clean_head c t : is_space c = false -> trim (c :: t) <> [].
Proof.
  intros Hc. unfold trim. cbn [trimStart]. rewrite Hc.
  unfold trimEnd. cbn [rev]. rewrite (trimStart_snoc _ _ Hc), rev_app_distr.
  discriminate.
Qed.

(** What a line "artist - title" gives: the artist is a first part of
    the line, the title a later one, neither empty before trimming. *)
Lemma track_line_groups (item : jsstring) tm :
  rx_match re_track_line item = Some tm ->
  exists w1 w2 after,
    item = w1 ++ after /\ 1 <= length w1 /\ 1 <= length w2
    /\ group 1 tm = w1 /\ group 2 tm = w2.
Proof.
  intros H. apply rx_match_matches in H.
  unfold re_track_line in H. cbn [seqs] in H.
  apply matches_Seq in H as (z0 & [P0 ->] & H). simpl in P0.
  rewrite P0 in H. change (skipn 0 item) with item in H.
  apply matches_Seq in H as (z1 & H1 & H).
  apply matches_Grp in H1 as (z1' & w1 & H1 & E1 & C1 & _).
  pose proof (matches_keeps_caps (plus_lazy dot) eq_refl _ _ H1) as K1.
  unfold plus_lazy, dot in H1. cbn [matches groups_of] in H1.
  apply iter_class in H1 as (w1' & E1' & _ & _ & _ & L1 & _); [|discriminate].
  assert (w1' = w1) as -> by (rewrite E1 in E1'; now apply app_inv_tail in E1').
  simpl in E1, K1. rewrite K1 in C1.
  apply matches_Seq in H as (z2 & H2 & H).
  apply (matches_keeps_caps (star space) eq_refl) in H2.
  apply matches_Seq in H as (z3 & H3 & H).
  apply (matches_keeps_caps (one_of _) eq_refl) in H3.
  apply matches_Seq in H as (z4 & H4 & H).
  apply (matches_keeps_caps (star space) eq_refl) in H4.
  apply matches_Seq in H as (z5 & H5 & H).
  apply (matches_keeps_caps (opt (one_of _)) eq_refl) in H5.
  apply matches_Seq in H as (z6 & H6 & H).
  apply matches_Grp in H6 as (z6' & w2 & H6 & E6 & C6 & _).
  pose proof (matches_keeps_caps (plus_lazy dot) eq_refl _ _ H6) as K6.
  unfold plus_lazy, dot in H6. cbn [matches groups_of] in H6.
  apply iter_class in H6 as (w2' & E6' & _ & _ & _ & L2 & _); [|discriminate].
  assert (w2' = w2) as -> by (rewrite E6 in E6'; now apply app_inv_tail in E6').
  apply matches_Seq in H as (z7 & H7 & H8).
  apply (matches_keeps_caps (opt (one_of _)) eq_refl) in H7.
  apply (matches_keeps_caps Eol eq_refl) in H8.
  assert (C : caps (m_end tm) = [(2, w2); (1, w1)])
    by (rewrite H8, H7, C6, K6, H5, H4, H3, H2, C1; reflexivity).
  exists w1, w2, (rest z1'). repeat split; auto.
  - unfold group, capture. now rewrite C.
  - unfold group, capture. now rewrite C.
Qed.

Section TrackFacts.

Context {CM : CaseMapping}.

Lemma list_items_fold items :
  forall acc t,
    In t (fold_left
            (fun tracks listMatch =>
               let item := trim (strip_tags (group 1 listMatch)) in
               match rx_match re_track_line item with
               | Some trackMatch =>
                   tracks ++ [MkTrack (toLowerCase (trim (group 2 trackMatch)))
                                      (toLowerCase (trim (group 1 trackMatch)))]
               | None => tracks
               end)
            items acc) ->
    In t acc
    \/ exists listMatch trackMatch,
         In listMatch items
         /\ rx_match re_track_line (item_text listMatch) = Some trackMatch
         /\ t = MkTrack (toLowerCase (trim (group 2 trackMatch)))
                        (toLowerCase (trim (group 1 trackMatch))).
Proof.
  induction items as [|m items IH]; intros acc t; simpl; [auto|].
  fold (item_text m).
  intros H. apply IH in H as [H|(m' & tm & Hin & Hm')];
    [|right; exists m', tm; split; [right; exact Hin | exact Hm']].
  destruct (rx_match re_track_line (item_text m)) as [tm|] eqn:E; [|auto].
  apply in_app_or in H as [H|[<-|[]]]; [auto|].
  right. exists m, tm. auto.
Qed.

(** What the line-oriented strategy returns: the artist of a track is
    never empty, and both texts are lower-cased parts of a line of the
    form "artist - title". *)
Lemma list_items_tracks html t :
  In t (list_items html) ->
  track_artist t <> []
  /\ exists listMatch artist title after,
       In listMatch (exec_all listItemRegex html)
       /\ item_text listMatch = artist ++ after
       /\ title <> []
       /\ track_artist t = toLowerCase (trim artist)
       /\ track_title t = toLowerCase (trim title).
Proof.
  unfold list_items. intros H.
  apply list_items_fold in H as [[]|(m & tm & Hin & Hm & ->)].
  apply track_line_groups in Hm as (w1 & w2 & after & Ei & L1 & L2 & G1 & G2).
  rewrite G1, G2. cbn [track_artist track_title].
  split.
  - intros E. apply toLowerCase_nil in E.
    destruct w1 as [|c w1]; [simpl in L1; lia|].
    pose proof (trim_starts_clean (strip_tags (group 1 m))) as Hc.
    fold (item_text m) in Hc. rewrite Ei in Hc. simpl in Hc.
    apply negb_true_iff in Hc. revert E. now apply trim_clean_head.
  - exists m, w1, w2, after. repeat split; auto.
    destruct w2; [simpl in L2; lia | discriminate].
Qed.

End TrackFacts.

(** X5.  When the table rows of a text give any track, they give them
    all: each track then has a non-empty title and a non-empty artist,
    which are the lower-cased second and first cell of a row, and no
    track comes from a row whose first cell is "artist" or whose second
    cell is "song" in any case of the letters. *)
Theorem table_strategy_tracks (CM : CaseMapping) (html : jsstring) (t : Track) :
  table_rows (normalize_html html) <> [] ->
  In t (extractTracksFromHtml html) ->
  track_title t <> [] /\ track_artist t <> []
  /\ exists rowMatch,
       In rowMatch (exec_all rowRegex (normalize_html html))
       /\ track_title t = toLowerCase (row_song rowMatch)
       /\ track_artist t = toLowerCase (row_artist rowMatch)
       /\ toLowerCase (row_artist rowMatch) <> js "artist"
       /\ toLowerCase (row_song rowMatch) <> js "song".
Proof.
  intros Hrows Ht. rewrite (extractTracksFromHtml_rows html Hrows) in Ht.
  now apply table_rows_tracks.
Qed.

Lemma table_strategy_tracks_witness :
  table_rows (CM := basic_latin_case) (normalize_html undated_page) <> []
  /\ In (MkTrack (js "vitamin c") (js "can"))
        (extractTracksFromHtml (CM := basic_latin_case) undated_page)
  /\ js "vitamin c" <> [] /\ js "can" <> []
  /\ exists rowMatch,
       In rowMatch (exec_all rowRegex (normalize_html undated_page))
       /\ js "vitamin c" = toLowerCase (CaseMapping := basic_latin_case) (row_song rowMatch)
       /\ js "can" = toLowerCase (CaseMapping := basic_latin_case) (row_artist rowMatch)
       /\ toLowerCase (CaseMapping := basic_latin_case) (row_artist rowMatch) <> js "artist"
       /\ toLowerCase (CaseMapping := basic_latin_case) (row_song rowMatch) <> js "song".
Proof.
  assert (H1 : table_rows (CM := basic_latin_case) (normalize_html undated_page) <> [])
    by (vm_compute; discriminate).
  assert (H2 : In (MkTrack (js "vitamin c") (js "can"))
                  (extractTracksFromHtml (CM := basic_latin_case) undated_page))
    by (vm_compute; left; reflexivity).
  split; [exact H1|]. split; [exact H2|].
  exact (table_strategy_tracks basic_latin_case undated_page
           (MkTrack (js "vitamin c") (js "can")) H1 H2).
Defined.

(** X6.  Whatever the text and whichever strategy reads it, no track
    that [extractTracksFromHtml] returns has an empty artist. *)
Theorem track_artist_nonempty (CM : CaseMapping) (html : jsstring) (t : Track) :
  In t (extractTracksFromHtml html) -> track_artist t <> [].
Proof.
  unfold extractTracksFromHtml.
  destruct (table_rows (normalize_html html)) as [|t0 ts] eqn:E.
  - intros H. now apply list_items_tracks in H as [H _].
  - rewrite <- E. intros H. now apply table_rows_tracks in H as (_ & H & _).
Qed.

Lemma track_artist_nonempty_witness :
  In (MkTrack (js "vitamin c") (js "can"))
     (extractTracksFromHtml (CM := basic_latin_case) list_page)
  /\ js "can" <> [].
Proof.
  assert (H : In (MkTrack (js "vitamin c") (js "can"))
                 (extractTracksFromHtml (CM := basic_latin_case) list_page))
    by (vm_compute; left; reflexivity).
  split; [exact H|].
  exact (track_artist_nonempty basic_latin_case list_page
           (MkTrack (js "vitamin c") (js "can")) H).
Defined.

(** *** Dates without their parts *)

Lemma split_length (sep : N) (s : jsstring) :
  length (split sep s) = S (length (List.filter (fun c => (c =? sep)%N) s)).
Proof.
  induction s as [|c s IH]; simpl; [reflexivity|].
  destruct (c =? sep)%N; simpl; [now rewrite IH|].
  destruct (split sep s) as [|h r]; [discriminate | exact IH].
Qed.

Lemma filter_sep_nil (sep : N) (s : jsstring) :
  List.filter (fun c => (c =? sep)%N) s = [] <-> ~ In sep s.
Proof.
  induction s as [|c s IH]; simpl; [tauto|].
  destruct (N.eqb_spec c sep) as [->|Hne].
  - split; [discriminate | intros H; exfalso; apply H; now left].
  - rewrite IH. split; [intros H [E|E]; [congruence | contradiction] | tauto].
Qed.

Lemma sep_free_forallb (sep : N) (s : jsstring) :
  ~ In sep s -> forallb (fun c => negb (c =? sep)%N) s = true.
Proof.
  induction s as [|c s IH]; simpl; [reflexivity|]. intros H.
  destruct (N.eqb_spec c sep) as [->|Hne]; [exfalso; apply H; now left|].
  apply IH. tauto.
Qed.

(** X7.  [parseDate] throws exactly on a text without a slash.  On a
    text with one slash it does not throw: the year of its result reads
    "undefined". *)
Theorem parseDate_throws (dateStr : jsstring) :
  (parseDate dateStr = None <-> ~ In (u "/") dateStr)
  /\ (forall month day,
        dateStr = month ++ u "/" :: day ->
        ~ In (u "/") month -> ~ In (u "/") day ->
        parseDate dateStr
        = Some (js "undefined-" ++ padStart 2 (u "0") month
                  ++ js "-" ++ padStart 2 (u "0") day)).
Proof.
  split.
  - rewrite <- filter_sep_nil. unfold parseDate.
    pose proof (split_length (u "/") dateStr) as L.
    destruct (split (u "/") dateStr) as [|m [|d r]]; cbn [length] in L.
    + discriminate.
    + split; [intros _ | reflexivity].
      destruct (List.filter _ dateStr); [reflexivity | discriminate].
    + split; [discriminate|]. intros E. rewrite E in L. discriminate.
  - intros month day -> Hm Hd. unfold parseDate.
    rewrite split_at_sep by now apply sep_free_forallb.
    rewrite split_sep_free by now apply sep_free_forallb.
    reflexivity.
Qed.

(** *** The page count *)












(** *** The numbers of the pages *)









(** The two feet of a listing, and a page number beyond 2^53. *)
Example getTotalPages_examples :
  getTotalPages (Fulfilled (Response 200 closing_link_page)) = inr TypeError
  /\ getTotalPages (Fulfilled (Response 200 open_link_page)) = inl (Pages 44)
  /\ parseInt (js "9007199254740993") = Some 9007199254740992%N.
Proof. repeat split; vm_compute; reflexivity. Qed.

(** ** More on the normalizer *)

(** *** What makes the pass throw *)

Lemma map_tracks_none items : map_tracks items = None <-> forallb is_entry items = false.
Proof.
  induction items as [|entry more IH]; simpl; [split; discriminate|].
  unfold clean_track, is_entry. fold k_title k_artist.
  destruct (text_of entry k_title), (text_of entry k_artist); cbn [andb];
    try (split; [reflexivity | reflexivity]).
  destruct (map_tracks more).
  - split; [discriminate|]. intros H. apply IH in H. discriminate.
  - split; [intros _; now apply IH | reflexivity].
Qed.

Lemma cleanTracks_none v : cleanTracks v = None <-> is_track_list v = false.
Proof.
  destruct v as [|b|m e| |neg|s|items|fields]; simpl; try (split; reflexivity).
  rewrite <- map_tracks_none.
  destruct (map_tracks items); simpl; split; congruence.
Qed.

Lemma clean_title_none v : clean_title v = None <-> is_text v = false.
Proof. destruct v; simpl; split; congruence. Qed.

(** One guarded assignment on an object: it throws exactly when the
    field does not fit, and leaves the other fields as they were. *)
Lemma clean_field_object key f good fields :
  (forall v, f v = None <-> good v = false) ->
  match clean_field key f (JObj fields) with
  | Some data' =>
      field_fits good (assoc key fields) = true
      /\ exists fields', data' = JObj fields'
                         /\ forall k, k <> key -> assoc k fields' = assoc k fields
  | None => field_fits good (assoc key fields) = false
  end.
Proof.
  intros Hf. unfold clean_field, field_fits.
  destruct (assoc key fields) as [v|] eqn:E; [|split; eauto].
  destruct (truthy v); cbn [negb orb]; [|split; eauto].
  destruct (f v) as [v'|] eqn:Ev; simpl.
  - split.
    + destruct (good v) eqn:G; [reflexivity|]. apply Hf in G. congruence.
    + eexists. split; [reflexivity|]. intros k Hk. now apply assoc_assign_ne.
  - now apply Hf.
Qed.

Lemma reformat_object_throws fields :
  reformat (JObj fields) = None <-> readable fields = false.
Proof.
  unfold reformat, readable. fold k_tracks k_sideA k_sideB k_title.
  pose proof (clean_field_object k_tracks cleanTracks is_track_list fields
                cleanTracks_none) as H1.
  destruct (clean_field k_tracks cleanTracks (JObj fields)) as [d1|];
    [|rewrite H1; split; reflexivity].
  destruct H1 as (-> & f1 & -> & F1). cbn [bind_json andb].
  pose proof (clean_field_object k_sideA cleanTracks is_track_list f1
                cleanTracks_none) as H2.
  rewrite (F1 k_sideA) in H2 by discriminate.
  destruct (clean_field k_sideA cleanTracks (JObj f1)) as [d2|];
    [|rewrite H2; split; reflexivity].
  destruct H2 as (-> & f2 & -> & F2). cbn [bind_json andb].
  pose proof (clean_field_object k_sideB cleanTracks is_track_list f2
                cleanTracks_none) as H3.
  rewrite (F2 k_sideB), (F1 k_sideB) in H3 by discriminate.
  destruct (clean_field k_sideB cleanTracks (JObj f2)) as [d3|];
    [|rewrite H3; split; reflexivity].
  destruct H3 as (-> & f3 & -> & F3). cbn [bind_json andb].
  pose proof (clean_field_object k_title clean_title is_text f3
                clean_title_none) as H4.
  rewrite (F3 k_title), (F2 k_title), (F1 k_title) in H4 by discriminate.
  destruct (clean_field k_title clean_title (JObj f3)) as [d4|].
  - destruct H4 as (-> & _). split; discriminate.
  - rewrite H4. split; reflexivity.
Qed.

(** X9.  The pass of the normalizer over a parsed file throws on [null];
    on an object it throws exactly when, in the file as it was read,
    [tracks], [sideA] or [sideB] is truthy without being an array of
    objects with a string for title and for artist, or [title] is truthy
    without being a string.  On every other value it does not throw and
    writes the value as [JSON.stringify] does: a boolean, a finite
    number and a string as they were read, an array with what is
    written for each of its elements, [null] for a number read as
    Infinity and 0 for -0. *)
Theorem reformat_throws (data : json) :
  match data with
  | JNull => rewritten data = None
  | JObj fields => rewritten data = None <-> readable fields = false
  | JArr items => rewritten data = Some (JArr (List.map written items))
  | JInf _ => rewritten data = Some JNull
  | JNegZero => rewritten data = Some (JNum 0 0)
  | JBool _ | JNum _ _ | JStr _ => rewritten data = Some data
  end.
Proof.
  destruct data as [|b|m e| |neg|s|items|fields]; try reflexivity.
  rewrite <- reformat_object_throws. unfold rewritten.
  destruct (reformat (JObj fields)); simpl; split; congruence.
Qed.

(** A file whose tracks are a string is left alone, title and all; an
    array is written back, with [null] for an Infinity in it. *)
Example reformat_throws_example :
  rewritten (JObj [(k_title, JStr (js " a ")); (k_tracks, JStr (js "none"))]) = None
  /\ rewritten (JArr [JNull; JInf true]) = Some (JArr [JNull; JNull]).
Proof. split; vm_compute; reflexivity. Qed.

(** *** The normalizer on what the importer writes *)

Lemma assoc_here key v more : assoc key ((key, v) :: more) = Some v.
Proof.
  simpl. assert (E : str_eqb key key = true) by now apply str_eqb_eq.
  now rewrite E.
Qed.

Lemma assoc_skip key k v more :
  k <> key -> assoc key ((k, v) :: more) = assoc key more.
Proof. intros H. simpl. apply str_eqb_neq in H. now rewrite H. Qed.

Lemma assign_here key v w more : assign key v ((key, w) :: more) = (key, v) :: more.
Proof.
  simpl. assert (E : str_eqb key key = true) by now apply str_eqb_eq.
  now rewrite E.
Qed.

Lemma assign_skip key k v w more :
  k <> key -> assign key v ((k, w) :: more) = (k, w) :: assign key v more.
Proof. intros H. simpl. apply str_eqb_neq in H. now rewrite H. Qed.

Lemma map_tracks_written (ts : list Track) :
  map_tracks (List.map json_of_track ts)
  = Some (List.map json_of_track (List.map cleaned_track ts)).
Proof.
  induction ts as [|t ts IH]; [reflexivity|].
  cbn [List.map map_tracks]. rewrite IH.
  unfold clean_track, json_of_track at 1 2, text_of.
  rewrite assoc_here, assoc_skip, assoc_here by discriminate. reflexivity.
Qed.

Lemma cleanTracks_written (ts : list Track) :
  cleanTracks (json_of_tracks ts) = Some (json_of_tracks (List.map cleaned_track ts)).
Proof. unfold json_of_tracks. simpl. now rewrite map_tracks_written. Qed.

Lemma clean_text_nil : clean_text [] = [].
Proof. reflexivity. Qed.

Lemma title_field_written low more :
  clean_field (js "title") clean_title (JObj ((js "title", JStr low) :: more))
  = Some (JObj ((js "title", JStr (clean_text low)) :: more)).
Proof.
  unfold clean_field. rewrite assoc_here. cbn [truthy].
  destruct (str_eqb low []) eqn:E; cbn [negb].
  - apply str_eqb_eq in E. rewrite E. reflexivity.
  - cbn [clean_title option_map]. now rewrite assign_here.
Qed.

Lemma tracks_field_written key before ts after :
  assoc key before = None ->
  clean_field key cleanTracks (JObj (before ++ (key, json_of_tracks ts) :: after))
  = Some (JObj (before ++ (key, json_of_tracks (List.map cleaned_track ts)) :: after)).
Proof.
  intros Hb. unfold clean_field.
  assert (E : assoc key (before ++ (key, json_of_tracks ts) :: after)
              = Some (json_of_tracks ts)).
  { induction before as [|[k v] before IH]; [apply assoc_here|].
    simpl in Hb |- *. destruct (str_eqb k key); [discriminate | auto]. }
  rewrite E. cbn [truthy json_of_tracks]. fold (json_of_tracks ts).
  rewrite cleanTracks_written. cbn [option_map]. do 2 f_equal. clear E.
  induction before as [|[k v] before IH]; [apply assign_here|].
  cbn [app assoc assign] in Hb |- *. destruct (str_eqb k key); [discriminate|].
  now rewrite IH.
Qed.

Lemma absent_field_written key f fields :
  assoc key fields = None -> clean_field key f (JObj fields) = Some (JObj fields).
Proof. intros H. unfold clean_field. now rewrite H. Qed.

(** X10.  The normalizer reads every file the importer writes: on the
    object written for a record it does not throw, and it writes back
    the same fields in the same order, with the title and the title and
    artist of every track, in [tracks] and on both sides, cleaned. *)
Theorem imported_file_is_readable (CM : CaseMapping) (d : MixData) :
  reformat (jsonData d)
  = Some (JObj ([(js "title", JStr (clean_text (toLowerCase (title d))));
                 (js "date", JStr (date d));
                 (js "format", JStr (format d));
                 (js "notes", JStr (notes d));
                 (js "artOfTheMixUrl",
                    JStr (js "https://www.artofthemix.org/mix/" ++ mixId d));
                 (js "tracks", json_of_tracks (List.map cleaned_track (tracks d)))]
                ++ match sideA d, sideB d with
                   | Some a, Some b =>
                       if str_eqb (format d) (js "cassette")
                       then [(js "sideA", json_of_tracks (List.map cleaned_track a));
                             (js "sideB", json_of_tracks (List.map cleaned_track b))]
                       else []
                   | _, _ => []
                   end)).
Proof.
  unfold reformat, jsonData.
  pose (head := [(js "title", JStr (toLowerCase (title d)));
                (js "date", JStr (date d)); (js "format", JStr (format d));
                (js "notes", JStr (notes d));
                (js "artOfTheMixUrl",
                   JStr (js "https://www.artofthemix.org/mix/" ++ mixId d))]).
  assert (Hh : forall key, key <> js "title" -> key <> js "date" ->
                 key <> js "format" -> key <> js "notes" ->
                 key <> js "artOfTheMixUrl" -> assoc key head = None).
  { intros key H1 H2 H3 H4 H5. unfold head.
    rewrite !assoc_skip by congruence. reflexivity. }
  assert (Ht : forall ts more,
    clean_field (js "tracks") cleanTracks
      (JObj (head ++ (js "tracks", json_of_tracks ts) :: more))
    = Some (JObj (head ++ (js "tracks", json_of_tracks (List.map cleaned_track ts))
                    :: more))).
  { intros ts more. apply tracks_field_written. apply Hh; discriminate. }
  assert (Hplain : forall ts,
    bind_json (clean_field (js "tracks") cleanTracks
                 (JObj (head ++ [(js "tracks", json_of_tracks ts)])))
      (fun data =>
         bind_json (clean_field (js "sideA") cleanTracks data) (fun data =>
         bind_json (clean_field (js "sideB") cleanTracks data) (fun data =>
         clean_field (js "title") clean_title data)))
    = Some (JObj ((js "title", JStr (clean_text (toLowerCase (title d))))
                    :: List.tl head
                    ++ [(js "tracks", json_of_tracks (List.map cleaned_track ts))]))).
  { intros ts. rewrite Ht. cbn [bind_json].
    rewrite absent_field_written.
    2:{ unfold head. cbn [app]. rewrite !assoc_skip by discriminate. reflexivity. }
    cbn [bind_json].
    rewrite absent_field_written.
    2:{ unfold head. cbn [app]. rewrite !assoc_skip by discriminate. reflexivity. }
    cbn [bind_json]. unfold head. cbn [app]. now rewrite title_field_written. }
  assert (Hsides : forall ts a b,
    bind_json (clean_field (js "tracks") cleanTracks
                 (JObj (head ++ (js "tracks", json_of_tracks ts)
                          :: [(js "sideA", json_of_tracks a);
                              (js "sideB", json_of_tracks b)])))
      (fun data =>
         bind_json (clean_field (js "sideA") cleanTracks data) (fun data =>
         bind_json (clean_field (js "sideB") cleanTracks data) (fun data =>
         clean_field (js "title") clean_title data)))
    = Some (JObj ((js "title", JStr (clean_text (toLowerCase (title d))))
                    :: List.tl head
                    ++ [(js "tracks", json_of_tracks (List.map cleaned_track ts));
                        (js "sideA", json_of_tracks (List.map cleaned_track a));
                        (js "sideB", json_of_tracks (List.map cleaned_track b))]))).
  { intros ts a b. rewrite Ht. cbn [bind_json].
    set (mid := head ++ [(js "tracks", json_of_tracks (List.map cleaned_track ts))]).
    change (head ++ (js "tracks", json_of_tracks (List.map cleaned_track ts))
              :: [(js "sideA", json_of_tracks a); (js "sideB", json_of_tracks b)])
      with (mid ++ (js "sideA", json_of_tracks a) :: [(js "sideB", json_of_tracks b)]).
    rewrite tracks_field_written.
    2:{ unfold mid, head. cbn [app]. rewrite !assoc_skip by discriminate. reflexivity. }
    cbn [bind_json].
    change (mid ++ (js "sideA", json_of_tracks (List.map cleaned_track a))
              :: [(js "sideB", json_of_tracks b)])
      with ((mid ++ [(js "sideA", json_of_tracks (List.map cleaned_track a))])
              ++ (js "sideB", json_of_tracks b) :: []).
    rewrite tracks_field_written.
    2:{ unfold mid, head. cbn [app]. rewrite !assoc_skip by discriminate. reflexivity. }
    cbn [bind_json]. unfold mid, head. cbn [app]. now rewrite title_field_written. }
  destruct (sideA d) as [a|]; [|apply Hplain].
  destruct (sideB d) as [b|]; [|apply Hplain].
  destruct (str_eqb (format d) (js "cassette")); [apply Hsides | apply Hplain].
Qed.

(** *** The directory, twice *)

Lemma text_token_free_written (v : option json) :
  text_token_free (written <$> v) = text_token_free v.
Proof.
  destruct v as [v|]; [|reflexivity].
  destruct v as [|b|m e| |neg|s|items|fields]; reflexivity.
Qed.

Lemma entry_token_free_written entry :
  entry_token_free (written entry) = entry_token_free entry.
Proof.
  unfold entry_token_free.
  now rewrite !json_get_written, !text_token_free_written.
Qed.

Lemma tracks_token_free_written (v : option json) :
  tracks_token_free (written <$> v) = tracks_token_free v.
Proof.
  destruct v as [v|]; [|reflexivity].
  destruct v as [|b|m e| |neg|s|items|fields]; try reflexivity.
  simpl. induction items as [|entry items IH]; [reflexivity|].
  simpl. now rewrite entry_token_free_written, IH.
Qed.

Lemma token_free_written data : token_free (written data) = token_free data.
Proof.
  unfold token_free.
  now rewrite !json_get_written, !tracks_token_free_written,
    text_token_free_written.
Qed.

Lemma cleanTracks_fixed_written v : cleanTracks v = Some v -> written v = v.
Proof.
  intros H. apply cleanTracks_entries in H as (items & items' & -> & E & HF).
  injection E as <-. simpl. now rewrite (written_cleaned_entries _ _ HF).
Qed.

Lemma clean_title_fixed_written v : clean_title v = Some v -> written v = v.
Proof. destruct v as [|b|m e| |neg|s|items|fields]; try discriminate. reflexivity. Qed.

(** A guarded assignment that changes nothing changes nothing in what
    was written either, unless [null] was written. *)
Lemma clean_field_written key f d :
  (forall v, f v = Some v -> written v = v) ->
  clean_field key f d = Some d ->
  written d = JNull \/ clean_field key f (written d) = Some (written d).
Proof.
  intros Hf H.
  destruct d as [|b|m e| |neg|s|items|fields];
    try discriminate; try (right; reflexivity); [left; reflexivity|].
  right. unfold clean_field in H |- *. cbn [written]. rewrite assoc_written.
  destruct (assoc key fields) as [v|] eqn:E; [|reflexivity]. cbn [fmap option_fmap option_map].
  destruct (truthy v) eqn:T.
  - destruct (f v) as [v'|] eqn:Ef; [|discriminate]. simpl in H.
    injection H as H.
    assert (Ev : v' = v).
    { pose proof (assoc_assign_eq key v' fields) as Ha.
      rewrite H, E in Ha. now injection Ha. }
    subst v'. rewrite (Hf v Ef), T, Ef. simpl. do 2 f_equal.
    apply assign_same. rewrite assoc_written, E. simpl. now rewrite (Hf v Ef).
  - now rewrite (truthy_written v T).
Qed.

(** A second pass over a file that came out without a token throws or
    writes the file again. *)
Lemma rewritten_settled data after :
  rewritten data = Some after -> token_free after = true ->
  rewritten after = None \/ rewritten after = Some after.
Proof.
  unfold rewritten at 1.
  destruct (reformat data) as [d1|] eqn:R; [|discriminate].
  intros [= <-] Hfree. rewrite token_free_written in Hfree.
  destruct (clean_fields_settled data d1 R Hfree) as (Et & Ea & Eb & Eti).
  apply (clean_field_written _ _ _ cleanTracks_fixed_written) in Et, Ea, Eb.
  apply (clean_field_written _ _ _ clean_title_fixed_written) in Eti.
  unfold rewritten, reformat. fold k_tracks k_sideA k_sideB k_title.
  destruct Et as [En|Et]; [left; now rewrite En|].
  destruct Ea as [En|Ea]; [left; now rewrite En|].
  destruct Eb as [En|Eb]; [left; now rewrite En|].
  destruct Eti as [En|Eti]; [left; now rewrite En|].
  right. rewrite Et. cbn [bind_json]. rewrite Ea. cbn [bind_json].
  rewrite Eb. cbn [bind_json]. rewrite Eti. simpl. now rewrite written_twice.
Qed.

(** X11.  Over a directory in which every [.json] file that the pass
    rewrites comes out without a token [&nbsp;], a second run of the
    normalizer leaves every file as the first run left it: the files it
    rewrote, those on which it threw, and those that are no [.json]
    files, whatever they hold. *)
Theorem reformat_all_twice (files : gmap jsstring json) :
  (forall name data after,
      files !! name = Some data -> endsWith (js ".json") name = true ->
      rewritten data = Some after ->
      token_free after = true) ->
  reformat_all (reformat_all files) = reformat_all files.
Proof.
  intros Hfree. apply map_eq. intros name.
  rewrite !reformat_all_lookup.
  destruct (files !! name) as [data|] eqn:E; [|reflexivity]. simpl. f_equal.
  unfold reformat_file. destruct (endsWith (js ".json") name) eqn:Hj; [|reflexivity].
  destruct (rewritten data) as [after|] eqn:R.
  - destruct (rewritten_settled data after R (Hfree name data after E Hj R))
      as [-> | ->]; reflexivity.
  - now rewrite R.
Qed.

Lemma reformat_all_twice_witness :
  (forall name data after,
      two_file_dir !! name = Some data -> endsWith (js ".json") name = true ->
      rewritten data = Some after ->
      token_free after = true)
  /\ reformat_all two_file_dir !! js "road-songs.json" = Some album_record_cleaned
  /\ reformat_all two_file_dir !! js "notes.txt" = two_file_dir !! js "notes.txt"
  /\ reformat_all (reformat_all two_file_dir) = reformat_all two_file_dir.
Proof.
  assert (H : forall name data after,
             two_file_dir !! name = Some data -> endsWith (js ".json") name = true ->
             rewritten data = Some after ->
             token_free after = true).
  { intros name data after Hl Hj Hr. unfold two_file_dir in Hl.
    apply lookup_insert_Some in Hl as [[<- <-] | [_ Hl]].
    - assert (E : rewritten album_record = Some album_record_cleaned)
        by (vm_compute; reflexivity).
      rewrite E in Hr. injection Hr as <-. vm_compute. reflexivity.
    - apply lookup_singleton_Some in Hl as [<- _].
      vm_compute in Hj. discriminate. }
  split; [exact H|]. split; [|split].
  - rewrite reformat_all_lookup. vm_compute. reflexivity.
  - rewrite reformat_all_lookup. vm_compute. reflexivity.
  - exact (reformat_all_twice two_file_dir H).
Defined.

(** ** More on a run of the importer *)

Section RunFacts.

Context {CM : CaseMapping}.

(** One id of step 2: an error counted and nothing written, or one file
    written for a valid record of the fetched page. *)
Lemma import_mix_cases net reqs mixId st :
  import_mix net reqs mixId st = Progress (files st) (created st) (S (errors st))
  \/ exists html d,
       fetchPage (net reqs (mix_url mixId)) (mix_url mixId) = inl html
       /\ extractMixData html mixId = Some d
       /\ title d <> [] /\ tracks d <> []
       /\ import_mix net reqs mixId st
          = Progress (<[file_name d := jsonData d]> (files st))
                     (S (created st)) (errors st).
Proof.
  unfold import_mix.
  destruct (fetchPage _ _) as [html|]; [|left; reflexivity].
  destruct (extractMixData html mixId) as [d|] eqn:E; [|left; reflexivity].
  destruct (title d) as [|c t] eqn:Et.
  { left. apply persist_invalid. now left. }
  destruct (tracks d) as [|k ks] eqn:Ek.
  { left. apply persist_invalid. now right. }
  right. exists html, d.
  split; [reflexivity|]. split; [exact E|].
  split; [rewrite Et; discriminate|]. split; [rewrite Ek; discriminate|].
  apply persist_valid; congruence.
Qed.

Lemma import_all_files net ids :
  forall reqs st name v,
    files (import_all net reqs ids st) !! name = Some v ->
    files st !! name = Some v
    \/ exists k mixId html d,
         nth_error ids k = Some mixId
         /\ fetchPage (net (reqs + k) (mix_url mixId)) (mix_url mixId) = inl html
         /\ extractMixData html mixId = Some d
         /\ title d <> [] /\ tracks d <> []
         /\ name = file_name d /\ v = jsonData d.
Proof.
  induction ids as [|mixId more IH]; intros reqs st name v H; [now left|].
  cbn [import_all] in H. apply IH in H as [H | (k & i & html & d & Hk & Hf & Hd)].
  - destruct (import_mix_cases net reqs mixId st) as [E | (html & d & Hf & Hd & Ht & Hk & E)];
      rewrite E in H; cbn [files] in H; [now left|].
    destruct (decide (name = file_name d)) as [->|Hn].
    + assert (L : <[file_name d := jsonData d]> (files st) !! file_name d
                  = Some (jsonData d)) by apply lookup_insert_eq.
      rewrite L in H. injection H as <-.
      right. exists 0, mixId, html, d. rewrite Nat.add_0_r. auto 10.
    + assert (L : <[file_name d := jsonData d]> (files st) !! name
                  = files st !! name) by (apply lookup_insert_ne; congruence).
      rewrite L in H. now left.
  - right. exists (S k), i, html, d. rewrite Nat.add_succ_r. auto.
Qed.

Lemma import_all_keeps net ids :
  forall reqs st name,
    is_Some (files st !! name) ->
    is_Some (files (import_all net reqs ids st) !! name).
Proof.
  induction ids as [|mixId more IH]; intros reqs st name H; [exact H|].
  cbn [import_all]. apply IH.
  destruct (import_mix_cases net reqs mixId st) as [E | (html & d & _ & _ & _ & _ & E)];
    rewrite E; cbn [files]; [exact H|].
  destruct (decide (name = file_name d)) as [->|Hn].
  - assert (L : <[file_name d := jsonData d]> (files st) !! file_name d
                = Some (jsonData d)) by apply lookup_insert_eq.
    rewrite L. eauto.
  - assert (L : <[file_name d := jsonData d]> (files st) !! name
                = files st !! name) by (apply lookup_insert_ne; congruence).
    rewrite L. exact H.
Qed.

Lemma import_all_size net ids :
  forall reqs st,
    size (files (import_all net reqs ids st)) + created st
    <= size (files st) + created (import_all net reqs ids st).
Proof.
  induction ids as [|mixId more IH]; intros reqs st; cbn [import_all]; [lia|].
  specialize (IH (S reqs) (import_mix net reqs mixId st)).
  destruct (import_mix_cases net reqs mixId st) as [E | (html & d & _ & _ & _ & _ & E)];
    rewrite E in IH |- *; cbn [files created] in IH; [exact IH|].
  destruct (files st !! file_name d) as [w|] eqn:El.
  - assert (L : size (<[file_name d := jsonData d]> (files st)) = size (files st))
      by (apply map_size_insert_Some; eauto).
    rewrite L in IH. lia.
  - assert (L : size (<[file_name d := jsonData d]> (files st)) = S (size (files st)))
      by (apply map_size_insert_None; exact El).
    rewrite L in IH. lia.
Qed.

(** Listing pages that cannot be fetched add nothing to the collection. *)
Lemma discover_failed net n :
  forall reqs acc,
    (forall page, reqs < page <= reqs + n ->
       exists message,
         fetchPage (net (page - 1) (listing_url page)) (listing_url page) = inr message) ->
    discover net reqs (seq (S reqs) n) acc = acc.
Proof.
  induction n as [|n IH]; intros reqs acc H; [reflexivity|].
  cbn [seq discover]. unfold discover_page.
  destruct (H (S reqs)) as (message & E); [lia|].
  replace (S reqs - 1) with reqs in E by lia. rewrite E.
  apply IH. intros page Hp. apply H. lia.
Qed.

End RunFacts.

(** X12.  A run only adds and overwrites files.  Every file that was in
    the directory is still there afterwards.  And every file afterwards
    is either a file from before with its old content, or holds the
    object of a record with a non-empty title and at least one track
    that was extracted from the fetched detail page of a collected id,
    under the name made of the slug of that record's title. *)
Theorem imported_files (CM : CaseMapping) (net : network) (files0 : disk) :
  (forall other, is_Some (files0 !! other) ->
                 is_Some (files (importMixes net files0) !! other))
  /\ (forall name v,
        files (importMixes net files0) !! name = Some v ->
        files0 !! name = Some v
        \/ exists k mixId html d,
             nth_error (discover net 0 (seq 1 totalPages) []) k = Some mixId
             /\ fetchPage (net (totalPages + k) (mix_url mixId)) (mix_url mixId)
                = inl html
             /\ extractMixData html mixId = Some d
             /\ title d <> [] /\ tracks d <> []
             /\ name = slugify (title d) ++ js ".json" /\ v = jsonData d).
Proof.
  split.
  - intros other Ho. unfold importMixes. now apply import_all_keeps.
  - intros name v H. unfold importMixes in H.
    apply import_all_files in H. exact H.
Qed.

Lemma imported_files_witness :
  old_dir !! js "old.json" = Some album_record
  /\ is_Some (files (importMixes (CM := basic_latin_case) twin_site old_dir)
                !! js "old.json")
  /\ files (importMixes (CM := basic_latin_case) twin_site old_dir)
       !! js "road-songs.json"
     = Some (jsonData (CM := basic_latin_case) (road_songs (js "2")))
  /\ (old_dir !! js "road-songs.json"
      = Some (jsonData (CM := basic_latin_case) (road_songs (js "2")))
      \/ exists k mixId html d,
        nth_error (discover twin_site 0 (seq 1 totalPages) []) k = Some mixId
        /\ fetchPage (twin_site (totalPages + k) (mix_url mixId)) (mix_url mixId)
           = inl html
        /\ extractMixData (CM := basic_latin_case) html mixId = Some d
        /\ title d <> [] /\ tracks d <> []
        /\ js "road-songs.json"
           = slugify (CM := basic_latin_case) (title d) ++ js ".json"
        /\ jsonData (CM := basic_latin_case) (road_songs (js "2"))
           = jsonData (CM := basic_latin_case) d).
Proof.
  assert (Hold : old_dir !! js "old.json" = Some album_record)
    by (vm_compute; reflexivity).
  assert (Hnew : files (importMixes (CM := basic_latin_case) twin_site old_dir)
                   !! js "road-songs.json"
                 = Some (jsonData (CM := basic_latin_case) (road_songs (js "2"))))
    by (vm_compute; reflexivity).
  split; [exact Hold|]. split; [|split; [exact Hnew|]].
  - apply (proj1 (imported_files basic_latin_case twin_site old_dir)).
    rewrite Hold. eauto.
  - exact (proj2 (imported_files basic_latin_case twin_site old_dir)
             (js "road-songs.json")
             (jsonData (CM := basic_latin_case) (road_songs (js "2"))) Hnew).
Defined.

(** X13.  A run adds at most as many files to the directory as it counts
    as created.  (It can add fewer: two records whose titles have the
    same slug are written to the same file, and both are counted.) *)
Theorem created_bounds_new_files (CM : CaseMapping) (net : network) (files0 : disk) :
  size (files (importMixes net files0))
  <= size files0 + created (importMixes net files0).
Proof.
  unfold importMixes.
  pose proof (import_all_size net (discover net 0 (seq 1 totalPages) [])
                totalPages (Progress files0 0 0)) as H.
  cbn [files created] in H. lia.
Qed.

(** On the site with two mixes of the same title, two records are
    counted and one file is left, that of the second. *)
Example twin_site_run :
  importMixes (CM := basic_latin_case) twin_site ∅
  = Progress {[ js "road-songs.json"
                := jsonData (CM := basic_latin_case) (road_songs (js "2")) ]} 2 0.
Proof. vm_compute. reflexivity. Qed.

(** X14.  A listing page that cannot be fetched is not counted as an
    error: when none of the 44 listing pages can be fetched, the run
    asks for no detail page, leaves the directory as it was, and ends
    with both counters at zero. *)
Theorem failed_listings_are_silent (CM : CaseMapping) (net : network) (files0 : disk) :
  (forall page, 1 <= page <= totalPages ->
     exists message,
       fetchPage (net (page - 1) (listing_url page)) (listing_url page) = inr message) ->
  discover net 0 (seq 1 totalPages) [] = []
  /\ importMixes net files0 = Progress files0 0 0.
Proof.
  intros H.
  assert (E : discover net 0 (seq 1 totalPages) [] = []).
  { apply discover_failed. intros page Hp. apply H. lia. }
  split; [exact E|]. unfold importMixes. rewrite E. reflexivity.
Qed.

Lemma failed_listings_are_silent_witness :
  (forall page, 1 <= page <= totalPages ->
     exists message,
       fetchPage (missing_site (page - 1) (listing_url page)) (listing_url page)
       = inr message)
  /\ discover missing_site 0 (seq 1 totalPages) [] = []
  /\ importMixes (CM := basic_latin_case) missing_site ∅ = Progress ∅ 0 0.
Proof.
  assert (H : forall page, 1 <= page <= totalPages ->
     exists message,
       fetchPage (missing_site (page - 1) (listing_url page)) (listing_url page)
       = inr message).
  { intros page _. eexists. unfold missing_site, fetchPage. reflexivity. }
  split; [exact H|].
  exact (failed_listings_are_silent basic_latin_case missing_site ∅ H).
Defined.

(** ** The title of a record *)

Lemma unmatched_outside_class p (t : jsstring) j k c :
  t !! k = Some c ->
  rmatch (plus (Chr p)) Some (MState j (skipn k t) []) = None ->
  p c = false.
Proof.
  intros Hc Hm. rewrite (drop_S _ _ _ Hc) in Hm.
  destruct (p c) eqn:E; [|reflexivity].
  exfalso. revert Hm. now apply plus_class_matches.
Qed.

Lemma run_end_split p t :
  forall i cs, exists w,
    t = w ++ rest (run_end p i t cs) /\ forallb p w = true.
Proof.
  induction t as [|c t IH]; intros i cs; cbn [run_end].
  - exists []. split; reflexivity.
  - destruct (p c) eqn:E.
    + destruct (IH (S i) cs) as (w & Ew & Hw). exists (c :: w).
      split; [cbn [app]; now rewrite <- Ew | cbn [forallb]; now rewrite E].
    + exists []. split; reflexivity.
Qed.

Lemma blanks_inside_words (s t : jsstring) :
  forallb (fun c => negb (is_space c)) s = true ->
  blanks_inside (s ++ t) = blanks_inside t.
Proof.
  induction s as [|c s IH]; [reflexivity|]. cbn [forallb app blanks_inside].
  intros H. apply andb_prop in H as [Hc Hs]. apply negb_true_iff in Hc.
  rewrite Hc. now apply IH.
Qed.

Lemma last_spaces_dirty c (w : jsstring) :
  forallb is_space (c :: w) = true ->
  exists d, last (c :: w) = Some d /\ is_space d = true.
Proof.
  revert c. induction w as [|c' w IH]; intros c H.
  - exists c. cbn [forallb] in H. apply andb_prop in H as [Hc _]. auto.
  - cbn [forallb] in H. apply andb_prop in H as [_ H].
    destruct (IH c' H) as (d & Hl & Hd). exists d. split; [exact Hl | exact Hd].
Qed.

Lemma trim_ends_clean s : ends_clean (trim s) = true.
Proof.
  unfold trim, trimEnd, ends_clean.
  pose proof (trimStart_starts_clean (rev (trimStart s))) as H.
  destruct (trimStart (rev (trimStart s))) as [|c z]; [reflexivity|].
  cbn [rev]. rewrite last_snoc. exact H.
Qed.

(** Each run of white space becomes one blank with a word after it. *)
Lemma spaces_replaced fuel :
  forall i (t : jsstring),
    length t < fuel -> ends_clean t = true ->
    blanks_inside (replace_loop fuel re_spaces (js " ") i t) = true
    /\ (word_start t = true ->
        word_start (replace_loop fuel re_spaces (js " ") i t) = true)
    /\ (t = [] -> replace_loop fuel re_spaces (js " ") i t = []).
Proof.
  induction fuel as [|fuel IH]; intros i t Hlen Hend; [lia|].
  cbn [replace_loop].
  destruct (scan re_spaces i t) as [m|] eqn:E.
  - apply scan_spec in E as (k & Hi & Hk & Hm & Hmin).
    unfold re_spaces, space in Hm, Hmin. rewrite plus_class_run in Hm.
    destruct (skipn k t) as [|c t'] eqn:Ed; [discriminate|].
    destruct (is_space c) eqn:Ec; [|discriminate].
    injection Hm as Hm.
    destruct (run_end_spec is_space t' (S (i + k)) []) as [Hpos Hrest].
    destruct (run_end_split is_space t' (S (i + k)) []) as (w & Ew & Hw).
    rewrite Hm in Hpos, Hrest, Ew. rewrite Hi.
    replace (i + k - i) with k by lia.
    replace (pos (m_end m) =? i + k) with false
      by (symmetry; apply Nat.eqb_neq; lia).
    assert (Et : t = firstn k t ++ (c :: w) ++ rest (m_end m)).
    { rewrite <- (firstn_skipn k t) at 1. rewrite Ed. cbn [app]. now rewrite <- Ew. }
    assert (Hne : rest (m_end m) <> []).
    { intros Hnil. rewrite Hnil, app_nil_r in Et.
      unfold ends_clean in Hend. rewrite Et, last_app in Hend.
      destruct (last_spaces_dirty c w) as (d & Hl & Hd).
      { cbn [forallb]. now rewrite Ec. }
      rewrite Hl, Hd in Hend. discriminate. }
    assert (Hstart : word_start (rest (m_end m)) = true).
    { destruct (rest (m_end m)) as [|d r]; [contradiction|].
      cbn [starts_with] in Hrest. cbn [word_start]. now rewrite Hrest. }
    assert (Hend' : ends_clean (rest (m_end m)) = true).
    { unfold ends_clean in Hend |- *. rewrite Et, app_assoc, last_app in Hend.
      destruct (last (rest (m_end m))) eqn:El; [exact Hend|].
      apply last_None in El. contradiction. }
    assert (Hlen' : length (rest (m_end m)) < fuel).
    { apply (f_equal (@length N)) in Et. rewrite !length_app in Et.
      cbn [length] in Et. lia. }
    destruct (IH (pos (m_end m)) (rest (m_end m)) Hlen' Hend') as (Hb & Hs & _).
    split; [|split].
    + rewrite blanks_inside_words.
      * assert (Ej : forall R : jsstring, js " " ++ R = 32%N :: R) by reflexivity.
        rewrite Ej. cbn [blanks_inside].
        rewrite Hb, (Hs Hstart). reflexivity.
      * apply forallb_forall. intros d Hd.
        apply list_elem_of_In, list_elem_of_lookup in Hd as (k' & Hd).
        apply lookup_take_Some in Hd as [Hd Hk'].
        apply negb_true_iff.
        apply (unmatched_outside_class is_space t (i + k') k' d Hd).
        now apply Hmin.
    + intros Hws. destruct t as [|d t0]; [discriminate|].
      destruct k as [|k].
      * cbn [skipn] in Ed. injection Ed as -> ->.
        cbn [word_start] in Hws. rewrite Ec in Hws. discriminate.
      * exact Hws.
    + intros ->. destruct k; discriminate.
  - split; [|split]; [|auto|auto].
    rewrite <- (app_nil_r t). rewrite blanks_inside_words; [reflexivity|].
    apply forallb_forall. intros d Hd.
    apply list_elem_of_In, list_elem_of_lookup in Hd as (k' & Hd).
    apply negb_true_iff.
    apply (unmatched_outside_class is_space t (i + k') k' d Hd).
    unfold re_spaces, space in E.
    apply scan_nowhere; [exact E|].
    apply lookup_lt_Some in Hd. lia.
Qed.

Lemma single_spaced_spaces (s : jsstring) :
  starts_clean s = true -> ends_clean s = true ->
  single_spaced (replace_all re_spaces (js " ") s) = true.
Proof.
  intros Hs He. unfold single_spaced, replace_all.
  destruct (spaces_replaced (S (length s)) 0 s) as (Hb & Hw & Hn); [lia | exact He |].
  rewrite Hb, andb_true_r.
  destruct s as [|c s]; [now rewrite Hn|].
  cbn [starts_clean] in Hs. specialize (Hw Hs).
  destruct (replace_loop _ _ _ _ _); [reflexivity | exact Hw].
Qed.

(** Cutting a tidy line in front of white space leaves a tidy line. *)
Lemma blanks_inside_take k :
  forall (s : jsstring) c r,
    blanks_inside s = true -> skipn k s = c :: r -> is_space c = true ->
    blanks_inside (firstn k s) = true.
Proof.
  induction k as [|k IH]; intros s c r Hb Hd Hc; [reflexivity|].
  destruct s as [|d s]; [discriminate|]. cbn [skipn] in Hd.
  cbn [firstn blanks_inside] in Hb |- *.
  apply andb_prop in Hb as [Hd' Hb].
  rewrite (IH s c r Hb Hd Hc), andb_true_r.
  destruct (is_space d); [|reflexivity].
  apply andb_prop in Hd' as [-> Hw]. cbn [andb].
  destruct s as [|e s]; [discriminate|].
  destruct k as [|k]; [|exact Hw].
  cbn [skipn] in Hd. injection Hd as -> ->.
  cbn [word_start] in Hw. rewrite Hc in Hw. discriminate.
Qed.

Lemma by_author_match x y :
  matches re_by_author x y ->
  rest y = [] /\ exists c r, rest x = c :: r /\ is_space c = true.
Proof.
  unfold re_by_author. cbn [seqs]. intros H.
  apply matches_Seq in H as (z1 & H1 & H).
  apply matches_Seq in H as (z2 & _ & H).
  apply matches_Seq in H as (z3 & _ & H).
  apply matches_Seq in H as (z4 & _ & H).
  apply matches_Seq in H as (z5 & _ & H).
  destruct H as [Hr ->]. split; [exact Hr|].
  unfold space in H1. apply matches_plus_class in H1 as (w & Ew & L & Hw).
  destruct w as [|c w]; [simpl in L; lia|].
  exists c, (w ++ rest z1). split; [exact Ew|].
  cbn [forallb] in Hw. now apply andb_prop in Hw as [Hc _].
Qed.

Lemma single_spaced_by_author (s : jsstring) :
  single_spaced s = true ->
  single_spaced (replace_first re_by_author [] s) = true.
Proof.
  intros Hs. unfold replace_first.
  destruct (scan re_by_author 0 s) as [m|] eqn:E; [|exact Hs].
  apply scan_found in E as (k & w & Hi & Hk & Hw & _ & Hm & _).
  apply by_author_match in Hm as (Hr & c & r & Ec & Hc). cbn [rest] in Ec.
  rewrite Hr, Hi, app_nil_r. cbn [app Nat.add].
  unfold single_spaced in Hs |- *. apply andb_prop in Hs as [Hs Hb].
  rewrite (blanks_inside_take k s c r Hb Ec Hc), andb_true_r.
  destruct k as [|k]; [reflexivity|].
  destruct s as [|d s]; [reflexivity | exact Hs].
Qed.

(** X15.  Whatever the page, the title of the record that
    [extractMixData] returns is a tidy line: it neither starts nor ends
    with white space, and every white space unit in it is a single blank
    (U+0020) between two units that are no white space. *)
Theorem extracted_title_single_spaced (CM : CaseMapping) (html ident : jsstring) :
  exists d,
    extractMixData html ident = Some d
    /\ title d = extract_title (normalize_html html)
    /\ single_spaced (title d) = true.
Proof.
  assert (H : single_spaced (extract_title (normalize_html html)) = true).
  { unfold extract_title.
    destruct (or_match _ _) as [m|]; [|reflexivity].
    apply single_spaced_by_author, single_spaced_spaces.
    - apply trim_starts_clean.
    - apply trim_ends_clean. }
  destruct (extract_date_spec html) as (dt & Edt & _).
  unfold extractMixData. rewrite Edt.
  destruct (_ && _); eexists; (split; [reflexivity|]); cbn [title]; auto.
Qed.

Example extracted_title_example :
  extract_title (normalize_html cassette_page) = js "Midnight Mix".
Proof. vm_compute. reflexivity. Qed.
